(** * Fractal image compression: encoder and decoder

    A shallow embedding of [fractal_compress.py], [fractal_decompress.py]
    and the stepping logic of [fractal_decompress_interactive.py].

    Numbers.  The programs compute in IEEE binary64 ([np.float64]) and store
    the fitted contrast and offset as binary32.  Here every sample is an exact
    rational ([Q]), compared with [==]; rounding is outside the model.

    Arrays.  A two-dimensional [np.ndarray] is a shape together with an index
    function; the numpy primitives the programs call ([np.flip],
    [np.rot90], basic and strided slicing, slice assignment with
    broadcasting, [reshape(-1)], [np.sum], [mean], [np.argmin], [np.where],
    [np.maximum], [np.clip], [astype(np.uint8)]) are modelled in [Module Np]
    after numpy's documented behaviour.

    Constants.  The module-level constants of the two programs are gathered
    in a [Config] record; [source_config] holds the values of the source. *)

From Stdlib Require Import String.
From Stdlib Require Import List ZArith QArith Qround Qminmax Qabs.
From Stdlib Require Import Lia Lqa Bool Arith PeanoNat Setoid Morphisms.
Import ListNotations.

Set Implicit Arguments.
Local Open Scope nat_scope.

(** ** Exceptions *)

Inductive exn : Set :=
| ValueError.

Inductive outcome (A : Type) : Type :=
| Returned (a : A)
| Raised (e : exn).

Arguments Returned {A} a.
Arguments Raised {A} e.

Definition bind {A B : Type} (m : outcome A) (k : A -> outcome B) : outcome B :=
  match m with
  | Returned a => k a
  | Raised e => Raised e
  end.

Notation "x <- m ;; k" := (bind m (fun x => k))
  (at level 61, m at next level, right associativity).

(** ** numpy *)

Module Np.

Record ndarray : Type := mk_ndarray {
  shape0 : nat;
  shape1 : nat;
  cell : nat -> nat -> Q
}.

(** [range(0, stop, step)] for a positive step. *)
Fixpoint range_from (start step count : nat) : list nat :=
  match count with
  | O => []
  | S c => start :: range_from (start + step) step c
  end.

Definition range_step (stop step : nat) : list nat :=
  match step with
  | O => []
  | S _ => range_from 0 step ((stop + step - 1) / step)
  end.

(** Bounds of the basic slice [a:b] (step 1) on an axis of length [n], as
    [slice.indices] computes them: a negative bound counts from the end,
    and both are clipped to [0, n]. *)
Definition clip_index (i : Z) (n : nat) : nat :=
  if (i <? 0)%Z then Z.to_nat (Z.max (i + Z.of_nat n) 0)
  else Nat.min (Z.to_nat i) n.

Definition slice_start (a b : Z) (n : nat) : nat := clip_index a n.
Definition slice_len (a b : Z) (n : nat) : nat := clip_index b n - clip_index a n.

(** [A[y0:y1, x0:x1]] *)
Definition getitem (A : ndarray) (y0 y1 x0 x1 : Z) : ndarray :=
  let oy := slice_start y0 y1 (shape0 A) in
  let ox := slice_start x0 x1 (shape1 A) in
  {| shape0 := slice_len y0 y1 (shape0 A);
     shape1 := slice_len x0 x1 (shape1 A);
     cell := fun i j => cell A (oy + i) (ox + j) |}.

(** [A[oy::2, ox::2]] for [oy], [ox] in {0, 1}. *)
Definition stride2 (A : ndarray) (oy ox : nat) : ndarray :=
  {| shape0 := (shape0 A + 1 - oy) / 2;
     shape1 := (shape1 A + 1 - ox) / 2;
     cell := fun i j => cell A (oy + 2 * i) (ox + 2 * j) |}.

(** [np.flip(A, axis=-2)] and [np.flip(A, axis=-1)] *)
Definition flip0 (A : ndarray) : ndarray :=
  {| shape0 := shape0 A; shape1 := shape1 A;
     cell := fun i j => cell A (shape0 A - 1 - i) j |}.

Definition flip1 (A : ndarray) : ndarray :=
  {| shape0 := shape0 A; shape1 := shape1 A;
     cell := fun i j => cell A i (shape1 A - 1 - j) |}.

Definition transpose (A : ndarray) : ndarray :=
  {| shape0 := shape1 A; shape1 := shape0 A;
     cell := fun i j => cell A j i |}.

(** [np.rot90(A, k, axes=(-2, -1))], following numpy's definition:
    [k %= 4]; [k == 0] returns the array, [k == 2] flips both axes,
    [k == 1] is [transpose(flip(A, axes[1]))] and [k == 3] is
    [flip(transpose(A), axes[1])]. *)
Definition rot90 (A : ndarray) (k : Z) : ndarray :=
  let k := (k mod 4)%Z in
  if (k =? 0)%Z then A
  else if (k =? 2)%Z then flip1 (flip0 A)
  else if (k =? 1)%Z then transpose (flip1 A)
  else flip1 (transpose A).

(** Element-wise [A + B] and the scalar forms [A * c], [c * A], [A + c].
    numpy requires the two shapes of [A + B] to agree (up to
    broadcasting); the programs only add equal-shaped arrays, and the
    result takes the shape of the left operand. *)
Definition add (A B : ndarray) : ndarray :=
  {| shape0 := shape0 A; shape1 := shape1 A;
     cell := fun i j => (cell A i j + cell B i j)%Q |}.

Definition mul_scalar (A : ndarray) (c : Q) : ndarray :=
  {| shape0 := shape0 A; shape1 := shape1 A;
     cell := fun i j => (cell A i j * c)%Q |}.

Definition scalar_mul (c : Q) (A : ndarray) : ndarray :=
  {| shape0 := shape0 A; shape1 := shape1 A;
     cell := fun i j => (c * cell A i j)%Q |}.

Definition add_scalar (A : ndarray) (c : Q) : ndarray :=
  {| shape0 := shape0 A; shape1 := shape1 A;
     cell := fun i j => (cell A i j + c)%Q |}.

(** [np.empty_like(A)]: the shape of [A]; the contents are whatever the
    fresh buffer holds, here the function [uninit]. *)
Definition empty_like (A : ndarray) (uninit : nat -> nat -> Q) : ndarray :=
  {| shape0 := shape0 A; shape1 := shape1 A; cell := uninit |}.

(** Whether a value axis of length [a] broadcasts to a target axis of
    length [t]. *)
Definition broadcastable (a t : nat) : bool := (a =? t) || (a =? 1).

(** [A[y0:y1, x0:x1] = V] for non-negative bounds.  The value must
    broadcast to the shape of the target slice, otherwise numpy raises
    [ValueError]. *)
Definition setitem (A : ndarray) (y0 y1 x0 x1 : nat) (V : ndarray)
  : outcome ndarray :=
  let oy := Nat.min y0 (shape0 A) in
  let ox := Nat.min x0 (shape1 A) in
  let th := Nat.min y1 (shape0 A) - oy in
  let tw := Nat.min x1 (shape1 A) - ox in
  if broadcastable (shape0 V) th && broadcastable (shape1 V) tw then
    Returned
      {| shape0 := shape0 A; shape1 := shape1 A;
         cell := fun i j =>
           if (oy <=? i) && (i <? oy + th) && (ox <=? j) && (j <? ox + tw)
           then cell V (if shape0 V =? 1 then 0 else i - oy)
                       (if shape1 V =? 1 then 0 else j - ox)
           else cell A i j |}
  else Raised ValueError.

(** [A.reshape(-1)]: the cells in row-major order. *)
Definition flatten (A : ndarray) : list Q :=
  flat_map (fun i => map (cell A i) (seq 0 (shape1 A))) (seq 0 (shape0 A)).

(** [np.sum] and [mean] of a one-dimensional array ([mean] divides the
    sum by the number of elements). *)
Fixpoint sum (l : list Q) : Q :=
  match l with
  | [] => 0%Q
  | x :: t => (x + sum t)%Q
  end.

Definition mean (l : list Q) : Q :=
  (sum l / inject_Z (Z.of_nat (length l)))%Q.

(** [a > b] on scalars. *)
Definition gtb (a b : Q) : bool := negb (Qle_bool a b).

Definition ltb (a b : Q) : bool := negb (Qle_bool b a).

(** [np.argmin]: the index of the first occurrence of the minimum.  numpy
    raises on an empty array; the encoder never passes one when its
    constants are consistent, and the model returns 0 there. *)
Fixpoint argmin_from (l : list Q) (i best : nat) (bestv : Q) : nat :=
  match l with
  | [] => best
  | x :: t =>
      if ltb x bestv then argmin_from t (S i) i x
      else argmin_from t (S i) best bestv
  end.

Definition argmin (l : list Q) : nat :=
  match l with
  | [] => 0
  | x :: t => argmin_from t 1 0 x
  end.

(** [np.clip(x, lo, hi)] is [minimum(maximum(x, lo), hi)]. *)
Definition clip (x lo hi : Q) : Q := Qmin (Qmax x lo) hi.

(** [astype(np.uint8)] on a float inside the range of the target type: the
    C conversion, which discards the fractional part. *)
Definition astype_uint8 (x : Q) : Z := Z.quot (Qnum x) (Zpos (Qden x)).

End Np.

(** ** Configuration *)

Record Config : Set := mk_config {
  IMAGE_SIZE : nat;
  RANGE_SIZE : nat;
  DOMAIN_SIZE : nat;
  SYMMETRY_COUNT : nat;
  ITERATIONS : nat
}.

Definition source_config : Config :=
  {| IMAGE_SIZE := 512; RANGE_SIZE := 4; DOMAIN_SIZE := 8;
     SYMMETRY_COUNT := 8; ITERATIONS := 8 |}.

(** One record of the codebook array [pairs]. *)
Record entry : Set := mk_entry {
  domain : Z;
  sym : Z;
  contrast : Q;
  offset : Q
}.

(** ** The encoder, [fractal_compress.py] *)

Module Compress.
Import Np.

Definition transform (arr : ndarray) (sym : Z) : ndarray :=
  let rotated := rot90 arr (sym mod 4) in
  if (sym >=? 4)%Z then flip1 rotated else rotated.

Definition downscale (arr : ndarray) : ndarray :=
  mul_scalar
    (add (add (add (stride2 arr 0 0) (stride2 arr 0 1)) (stride2 arr 1 0))
         (stride2 arr 1 1))
    (1 # 4).

(** [A.reshape(-1, k)] of the row-major data of [A]: row [i] holds the
    elements [i*k .. i*k + k - 1]. *)
Definition reshape_rows (k : nat) (data : list Q) : list (list Q) :=
  map (fun i => firstn k (skipn (i * k) data)) (seq 0 (length data / k)).

(** [np.einsum("ij,j->i", M, v)], one row at a time. *)
Definition dot (row v : list Q) : Q :=
  sum (map (fun p => (fst p * snd p)%Q) (combine row v)).

Definition centered (l : list Q) (m : Q) : list Q :=
  map (fun x => (x - m)%Q) l.

Definition energy (c : list Q) : Q := sum (map (fun x => (x * x)%Q) c).

(** The threshold [1e-6] of the two [np.where] guards, as the rational
    1/1000000. *)
Definition eps : Q := 1 # 1000000.

Section Encoder.
Variable cfg : Config.

Local Abbreviation N := (IMAGE_SIZE cfg).
Local Abbreviation r := (RANGE_SIZE cfg).
Local Abbreviation d := (DOMAIN_SIZE cfg).
Local Abbreviation S_ := (SYMMETRY_COUNT cfg).

Definition block_at (image : ndarray) (size y x : nat) : ndarray :=
  getitem image (Z.of_nat y) (Z.of_nat (y + size))
                (Z.of_nat x) (Z.of_nat (x + size)).

Definition extract_blocks (image : ndarray) (size : nat) : list ndarray :=
  flat_map
    (fun y => map (fun x => block_at image size y x) (range_step N size))
    (range_step N size).

(** [np.stack([downscale(transform(domain_blocks, sym)) for sym in
    range(SYMMETRY_COUNT)], axis=1)]: entry [dom][sym] is the variant
    [sym] of domain block [dom]. *)
Definition domain_variants (domain_blocks : list ndarray)
  : list (list ndarray) :=
  map (fun blk =>
         map (fun s => downscale (transform blk (Z.of_nat s))) (seq 0 S_))
      domain_blocks.

Definition variant_flat (domain_blocks : list ndarray) : list (list Q) :=
  reshape_rows (r * r)
    (flat_map (fun vs => flat_map flatten vs)
              (domain_variants domain_blocks)).

Definition variant_mean (vf : list (list Q)) : list Q := map mean vf.

Definition variant_centered (vf : list (list Q)) (vm : list Q)
  : list (list Q) :=
  map (fun p => centered (fst p) (snd p)) (combine vf vm).

Definition variant_energy (vc : list (list Q)) : list Q := map energy vc.

(** The table the search reads: built once, before the loop. *)
Record table : Type := mk_table {
  t_mean : list Q;
  t_centered : list (list Q);
  t_energy : list Q
}.

Definition build_table (domain_blocks : list ndarray) : table :=
  let vf := variant_flat domain_blocks in
  let vm := variant_mean vf in
  let vc := variant_centered vf vm in
  {| t_mean := vm; t_centered := vc; t_energy := variant_energy vc |}.

(** The arrays of one pass of the inner loop body, for the range block
    [target]. *)
Definition numerator (tb : table) (target_centered : list Q) : list Q :=
  map (fun row => dot row target_centered) (t_centered tb).

Definition contrast_all (tb : table) (num : list Q) : list Q :=
  map (fun p => if gtb (snd p) eps then (fst p / snd p)%Q else 0%Q)
      (combine num (t_energy tb)).

Definition errors_all (tb : table) (num : list Q) (target_energy : Q)
  : list Q :=
  map (fun e => Qmax e 0)
      (map (fun p => if gtb (snd p) eps
                     then (target_energy - (fst p * fst p) / snd p)%Q
                     else target_energy)
           (combine num (t_energy tb))).

Definition fit (tb : table) (block : ndarray) : entry :=
  let target := flatten block in
  let target_mean := mean target in
  let target_centered := centered target target_mean in
  let target_energy := energy target_centered in
  let num := numerator tb target_centered in
  let contrast := contrast_all tb num in
  let errors := errors_all tb num target_energy in
  let best := argmin errors in
  let mean_d := nth best (t_mean tb) 0%Q in
  let best_contrast := nth best contrast 0%Q in
  let best_offset := (target_mean - best_contrast * mean_d)%Q in
  {| domain := Z.of_nat (best / S_);
     sym := Z.of_nat (best mod S_);
     contrast := best_contrast;
     offset := best_offset |}.

(** [main]: the array [pairs] that is saved.  With [RANGE_SIZE] dividing
    [IMAGE_SIZE] the writes [pairs[base + jdx]] fill the indices
    [0 .. R-1] in raster order, one per loop pass. *)
Definition main (image : ndarray) : list entry :=
  let tb := build_table (extract_blocks image d) in
  flat_map
    (fun y => map (fun x => fit tb (block_at image r y x))
                  (range_step N r))
    (range_step N r).

End Encoder.

End Compress.

(** ** The decoder, [fractal_decompress.py] *)

Module Decompress.
Import Np.

Definition transform (arr : ndarray) (sym : Z) : ndarray :=
  let rotated := rot90 arr (sym mod 4) in
  if (sym >=? 4)%Z then flip1 rotated else rotated.

Definition downscale (arr : ndarray) : ndarray :=
  mul_scalar
    (add (add (add (stride2 arr 0 0) (stride2 arr 0 1)) (stride2 arr 1 0))
         (stride2 arr 1 1))
    (1 # 4).

Section Decoder.
Variable cfg : Config.

Local Abbreviation N := (IMAGE_SIZE cfg).
Local Abbreviation r := (RANGE_SIZE cfg).
Local Abbreviation d := (DOMAIN_SIZE cfg).

Definition range_blocks_per_side : nat := N / r.
Definition domain_blocks_per_side : nat := N / d.

(** The coordinates the loop body computes.  Python's [//] and [%] round
    towards minus infinity, as [Z.div] and [Z.modulo] do; they raise on a
    zero divisor, which [config_ok] excludes. *)
Definition ry (block_idx : nat) : nat :=
  (block_idx / range_blocks_per_side) * r.
Definition rx (block_idx : nat) : nat :=
  (block_idx mod range_blocks_per_side) * r.
Definition dy (domain_index : Z) : Z :=
  (domain_index / Z.of_nat domain_blocks_per_side * Z.of_nat d)%Z.
Definition dx (domain_index : Z) : Z :=
  (domain_index mod Z.of_nat domain_blocks_per_side * Z.of_nat d)%Z.

(** The right-hand side of the slice assignment, read from [image]. *)
Definition mapped_block (image : ndarray) (e : entry) : ndarray :=
  let domain_index := domain e in
  let domain_block :=
    getitem image (dy domain_index) (dy domain_index + Z.of_nat d)
                  (dx domain_index) (dx domain_index + Z.of_nat d) in
  let transformed := transform domain_block (sym e) in
  let downscaled := downscale transformed in
  add_scalar (scalar_mul (contrast e) downscaled) (offset e).

(** One pass of the loop body of [iterate]. *)
Definition iterate_step (image : ndarray) (e : entry) (block_idx : nat)
    (new_image : ndarray) : outcome ndarray :=
  setitem new_image (ry block_idx) (ry block_idx + r)
                    (rx block_idx) (rx block_idx + r)
          (mapped_block image e).

(** [for block_idx in range(pairs.shape[0])], from [block_idx] on. *)
Fixpoint iterate_loop (image : ndarray) (pairs : list entry)
    (block_idx : nat) (new_image : ndarray) : outcome ndarray :=
  match pairs with
  | [] => Returned new_image
  | e :: rest =>
      new_image' <- iterate_step image e block_idx new_image ;;
      iterate_loop image rest (S block_idx) new_image'
  end.

(** [iterate(image, pairs)]; [uninit] is the content of the buffer that
    [np.empty_like] hands out. *)
Definition iterate (image : ndarray) (pairs : list entry)
    (uninit : nat -> nat -> Q) : outcome ndarray :=
  iterate_loop image pairs 0 (empty_like image uninit).

(** [for _ in range(ITERATIONS): image = iterate(image, pairs)]; the
    buffer of pass [k] starts with the content [uninit k]. *)
Fixpoint iterations (count k : nat) (image : ndarray) (pairs : list entry)
    (uninit : nat -> nat -> nat -> Q) : outcome ndarray :=
  match count with
  | O => Returned image
  | S c =>
      image' <- iterate image pairs (uninit k) ;;
      iterations c (S k) image' pairs uninit
  end.

(** One sample of [np.clip(image, 0.0, 255.0).astype(np.uint8)]. *)
Definition to_sample (x : Q) : Z := astype_uint8 (clip x 0 255).

(** The 8-bit grid handed to [Image.fromarray]. *)
Record raster : Type := mk_raster {
  height : nat;
  width : nat;
  sample : nat -> nat -> Z
}.

Definition emit (image : ndarray) : raster :=
  {| height := shape0 image; width := shape1 image;
     sample := fun i j => to_sample (cell image i j) |}.

(** [main], from the loaded codebook [pairs] and the seed image that the
    random generator produced. *)
Definition main (pairs : list entry) (seed : ndarray)
    (uninit : nat -> nat -> nat -> Q) : outcome raster :=
  image <- iterations (ITERATIONS cfg) 0 seed pairs uninit ;;
  Returned (emit image).

End Decoder.

End Decompress.

(** ** The viewer, [fractal_decompress_interactive.py] *)

Module Interactive.
Import Np.

Definition transform (arr : ndarray) (sym : Z) : ndarray :=
  let rotated := rot90 arr (sym mod 4) in
  if (sym >=? 4)%Z then flip1 rotated else rotated.

Definition downscale (arr : ndarray) : ndarray :=
  mul_scalar
    (add (add (add (stride2 arr 0 0) (stride2 arr 0 1)) (stride2 arr 1 0))
         (stride2 arr 1 1))
    (1 # 4).

Section Viewer.
Variable cfg : Config.

Local Abbreviation N := (IMAGE_SIZE cfg).
Local Abbreviation r := (RANGE_SIZE cfg).
Local Abbreviation d := (DOMAIN_SIZE cfg).

(** One pass of the loop body of the viewer's own [iterate]. *)
Definition iterate_step (image : ndarray) (e : entry) (block_idx : nat)
    (new_image : ndarray) : outcome ndarray :=
  let range_blocks_per_side := N / r in
  let domain_blocks_per_side := Z.of_nat (N / d) in
  let ry := (block_idx / range_blocks_per_side) * r in
  let rx := (block_idx mod range_blocks_per_side) * r in
  let domain_index := domain e in
  let dy := (domain_index / domain_blocks_per_side * Z.of_nat d)%Z in
  let dx := (domain_index mod domain_blocks_per_side * Z.of_nat d)%Z in
  let domain_block :=
    getitem image dy (dy + Z.of_nat d) dx (dx + Z.of_nat d) in
  let transformed := transform domain_block (sym e) in
  let downscaled := downscale transformed in
  setitem new_image ry (ry + r) rx (rx + r)
          (add_scalar (scalar_mul (contrast e) downscaled) (offset e)).

Fixpoint iterate_loop (image : ndarray) (pairs : list entry)
    (block_idx : nat) (new_image : ndarray) : outcome ndarray :=
  match pairs with
  | [] => Returned new_image
  | e :: rest =>
      new_image' <- iterate_step image e block_idx new_image ;;
      iterate_loop image rest (S block_idx) new_image'
  end.

Definition iterate (image : ndarray) (pairs : list entry)
    (uninit : nat -> nat -> Q) : outcome ndarray :=
  iterate_loop image pairs 0 (empty_like image uninit).

(** [np.clip(image, 0.0, 255.0)], the data handed to [imshow] and
    [set_data]. *)
Definition clipped (image : ndarray) : ndarray :=
  {| shape0 := shape0 image; shape1 := shape1 image;
     cell := fun i j => clip (cell image i j) 0 255 |}.

(** [np.clip(image, 0.0, 255.0).astype(np.uint8)], the grid written by the
    key [s]. *)
Definition snapshot (image : ndarray) : Decompress.raster :=
  {| Decompress.height := shape0 image; Decompress.width := shape1 image;
     Decompress.sample := fun i j => astype_uint8 (clip (cell image i j) 0 255) |}.

(** The dictionary [iteration] together with what the window and the disk
    show: the data and the number in the title of the plot, the content of
    [reconstructed_iterative.png] once written, and the lines printed. *)
Record viewer : Type := mk_viewer {
  count : nat;
  image : ndarray;
  shown : ndarray;
  title : nat;
  saved : option Decompress.raster;
  printed : list string
}.

(** The state when [plt.show()] starts. *)
Definition start (seed : ndarray) : viewer :=
  {| count := 0; image := seed; shown := clipped seed; title := 0;
     saved := None; printed := [] |}.

(** What the callbacks receive: a click on the button, or a key press with
    [event.key] (which matplotlib may leave as [None]). *)
Inductive event : Type :=
| Clicked
| KeyPress (key : option string).

(** [do_iteration]: the buffer of the call made when [count] iterations are
    done starts with the content [uninit count].  When [iterate] raises,
    nothing has been assigned. *)
Definition do_iteration (pairs : list entry)
    (uninit : nat -> nat -> nat -> Q) (st : viewer) : outcome viewer :=
  image' <- iterate (image st) pairs (uninit (count st)) ;;
  Returned {| count := S (count st);
              image := image';
              shown := clipped image';
              title := S (count st);
              saved := saved st;
              printed := printed st |}.

Definition on_key (pairs : list entry) (uninit : nat -> nat -> nat -> Q)
    (st : viewer) (key : option string) : outcome viewer :=
  match key with
  | Some k =>
      if String.eqb k " " then do_iteration pairs uninit st
      else if String.eqb k "s" then
        Returned {| count := count st;
                    image := image st;
                    shown := shown st;
                    title := title st;
                    saved := Some (snapshot (image st));
                    printed := printed st ++
                               ["Saved reconstructed_iterative.png"%string] |}
      else Returned st
  | None => Returned st
  end.

Definition handle (pairs : list entry) (uninit : nat -> nat -> nat -> Q)
    (st : viewer) (ev : event) : outcome viewer :=
  match ev with
  | Clicked => do_iteration pairs uninit st
  | KeyPress key => on_key pairs uninit st key
  end.

(** The callbacks of a session, one after the other, up to the first one
    that raises; what the event loop does with an exception depends on the
    backend and is left out. *)
Fixpoint run (pairs : list entry) (uninit : nat -> nat -> nat -> Q)
    (st : viewer) (events : list event) : outcome viewer :=
  match events with
  | [] => Returned st
  | ev :: rest =>
      st' <- handle pairs uninit st ev ;;
      run pairs uninit st' rest
  end.

End Viewer.

End Interactive.

(** ** Vocabulary of the statements *)

Import Np.

(** An array of shape [(n, n)]. *)
Definition square (n : nat) (A : ndarray) : Prop :=
  shape0 A = n /\ shape1 A = n.

(** The constraints the programs assume of their constants: [DOMAIN_SIZE] is
    twice [RANGE_SIZE], both divide [IMAGE_SIZE], and there are eight
    symmetries. *)
Definition config_ok (cfg : Config) : Prop :=
  0 < RANGE_SIZE cfg /\
  DOMAIN_SIZE cfg = 2 * RANGE_SIZE cfg /\
  0 < IMAGE_SIZE cfg /\
  IMAGE_SIZE cfg mod DOMAIN_SIZE cfg = 0 /\
  SYMMETRY_COUNT cfg = 8.

(** Mean [m_v], centered energy [E_v] and cross-correlation [C_v] with the
    centered target [t'] of one flattened variant. *)
Definition m_of (row : list Q) : Q := mean row.
Definition E_of (row : list Q) : Q :=
  Compress.energy (Compress.centered row (mean row)).
Definition C_of (t' row : list Q) : Q :=
  Compress.dot (Compress.centered row (mean row)) t'.

(** The index (raster order) of the range block that holds pixel [(i, j)]. *)
Definition block_of (cfg : Config) (i j : nat) : nat :=
  i / RANGE_SIZE cfg * Decompress.range_blocks_per_side cfg + j / RANGE_SIZE cfg.

(** A codebook record whose domain index names one of the [D] domain
    blocks, and a codebook of exactly [R] such records. *)
Definition domain_ok (cfg : Config) (e : entry) : Prop :=
  (0 <= domain e <
   Z.of_nat (Decompress.domain_blocks_per_side cfg *
             Decompress.domain_blocks_per_side cfg))%Z.

Definition codebook_ok (cfg : Config) (pairs : list entry) : Prop :=
  length pairs =
    Decompress.range_blocks_per_side cfg * Decompress.range_blocks_per_side cfg /\
  Forall (domain_ok cfg) pairs.

(** Default record for [nth]. *)
Definition no_entry : entry := mk_entry 0 0 0 0.

(** A sample [n] is the pixel [x] rounded to the nearest integer when it lies
    at most one half away from it (whatever the rule for ties). *)
Definition nearest_integer (x : Q) (n : Z) : Prop :=
  (Qabs (x - inject_Z n) <= 1 # 2)%Q.

(** ** Sample inputs *)

(** A constant [n x n] tile. *)
Definition const_tile (n : nat) (c : Q) : ndarray :=
  {| shape0 := n; shape1 := n; cell := fun _ _ => c |}.

(** The block sizes of the source on an 8 x 8 and on a 16 x 16 image. *)
Definition config8 : Config :=
  {| IMAGE_SIZE := 8; RANGE_SIZE := 4; DOMAIN_SIZE := 8;
     SYMMETRY_COUNT := 8; ITERATIONS := 8 |}.

Definition config16 : Config :=
  {| IMAGE_SIZE := 16; RANGE_SIZE := 4; DOMAIN_SIZE := 8;
     SYMMETRY_COUNT := 8; ITERATIONS := 8 |}.

(** A flat image of intensity 20 with one bright pixel, 100, in a corner. *)
Definition bright_corner : ndarray :=
  {| shape0 := 8; shape1 := 8;
     cell := fun i j => match i, j with
                        | 0, 0 => 100%Q
                        | _, _ => 20%Q
                        end |}.

(** The codebook of [bright_corner]. *)
Definition bright_corner_book : list entry :=
  [ mk_entry 0 0 4 (-60); mk_entry 0 0 0 20;
    mk_entry 0 0 0 20; mk_entry 0 0 0 20 ].

(** A 16 x 16 image whose top-left domain block is all 128 and whose other
    pixels are all 200. *)
Definition two_tone : ndarray :=
  {| shape0 := 16; shape1 := 16;
     cell := fun i j => if (i <? 8) && (j <? 8) then 128%Q else 200%Q |}.

(** A ramp, for tiles that are not symmetric. *)
Definition ramp (n : nat) : ndarray :=
  {| shape0 := n; shape1 := n;
     cell := fun i j => inject_Z (Z.of_nat (i * n + j)) |}.

(** A codebook for [config8] whose contrasts are at most one half. *)
Definition half_book : list entry :=
  [ mk_entry 0 0 (1 # 2) 10; mk_entry 0 1 (- 1 # 2) 100;
    mk_entry 0 4 (1 # 4) 0; mk_entry 0 7 0 20 ].

(** A codebook for [source_config] in which every record copies the
    downsampled first domain block: contrast 1, offset 0. *)
Definition copy_book : list entry := repeat (mk_entry 0 0 1 0) (128 * 128).

(** Two records agree when their indices are equal and their contrast and
    offset are equal rationals. *)
Definition entry_eq (a b : entry) : Prop :=
  domain a = domain b /\ sym a = sym b /\
  (contrast a == contrast b)%Q /\ (offset a == offset b)%Q.

(** Two arrays of shape [(n, n)] that differ by at most [delta] in every
    cell. *)
Definition close (delta : Q) (n : nat) (A B : ndarray) : Prop :=
  square n A /\ square n B /\
  forall i j, i < n -> j < n -> (Qabs (cell A i j - cell B i j) <= delta)%Q.

(** [s] to the power [k]. *)
Fixpoint qpow (s : Q) (k : nat) : Q :=
  match k with
  | O => 1%Q
  | S k' => (s * qpow s k')%Q
  end.

(** Every contrast of the codebook is at most [s] in absolute value. *)
Definition contrast_bounded (s : Q) (pairs : list entry) : Prop :=
  Forall (fun e => (Qabs (contrast e) <= s)%Q) pairs.

(** The sum of [f 0 .. f (n-1)], the sum of all cells of an array, and an
    array with a function applied to every cell. *)
Definition sum_n (n : nat) (f : nat -> Q) : Q := sum (map f (seq 0 n)).

Definition total (A : ndarray) : Q := sum (flatten A).

Definition map_cells (g : Q -> Q) (A : ndarray) : ndarray :=
  {| shape0 := shape0 A; shape1 := shape1 A;
     cell := fun i j => g (cell A i j) |}.

(** The symmetry id that undoes [s]: the two quarter turns undo each other,
    every other isometry undoes itself. *)
Definition inverse_sym (s : Z) : Z :=
  if (s =? 1)%Z then 3%Z else if (s =? 3)%Z then 1%Z else s.

(** The squared error of the affine map [alpha * x + beta], applied to the
    pixels of a variant, against the pixels of a range block. *)
Definition residual (row target : list Q) (alpha beta : Q) : Q :=
  sum (map (fun p => ((snd p - (alpha * fst p + beta)) *
                      (snd p - (alpha * fst p + beta)))%Q)
           (combine row target)).

(** The events that make the viewer iterate, and their number. *)
Definition is_step (ev : Interactive.event) : bool :=
  match ev with
  | Interactive.Clicked => true
  | Interactive.KeyPress (Some k) => String.eqb k " "
  | Interactive.KeyPress None => false
  end.

Definition steps (events : list Interactive.event) : nat :=
  length (filter is_step events).

(** Every cell of an [n x n] array lies in [[lo, hi]]. *)
Definition within (lo hi : Q) (n : nat) (A : ndarray) : Prop :=
  square n A /\
  forall i j, i < n -> j < n -> (lo <= cell A i j <= hi)%Q.

(** The sum of the squared differences of two pixel lists. *)
Definition squared_distance (a b : list Q) : Q :=
  sum (map (fun p => ((fst p - snd p) * (fst p - snd p))%Q) (combine a b)).

(** The error the encoder records for the variant it selects for range
    block [k] of [image]: [errors[best]] of that pass of the loop. *)
Definition selected_error (cfg : Config) (image : ndarray) (k : nat) : Q :=
  let tb := Compress.build_table cfg
              (Compress.extract_blocks cfg image (DOMAIN_SIZE cfg)) in
  let block := Compress.block_at image (RANGE_SIZE cfg)
                 (Decompress.ry cfg k) (Decompress.rx cfg k) in
  let t' := Compress.centered (flatten block) (mean (flatten block)) in
  let errors :=
    Compress.errors_all tb (Compress.numerator tb t') (Compress.energy t') in
  nth (argmin errors) errors 0%Q.

(** What the window shows agrees with the dictionary. *)
Definition in_sync (st : Interactive.viewer) : Prop :=
  Interactive.title st = Interactive.count st /\
  Interactive.shown st = Interactive.clipped (Interactive.image st).

(** * Properties *)

(** ** The two copies of [transform] and [downscale] *)

(** C7: the encoder's and the decoder's [transform] and [downscale] are the
    same functions, so for every tile and every symmetry id the pipeline
    isometry-then-downsample yields the same array in both programs. *)
Theorem transform_downscale_shared :
  (forall arr s, Compress.transform arr s = Decompress.transform arr s) /\
  (forall arr, Compress.downscale arr = Decompress.downscale arr) /\
  (forall arr s,
      Compress.downscale (Compress.transform arr s) =
      Decompress.downscale (Decompress.transform arr s)).
Proof.
  repeat split; intros; reflexivity.
Qed.

(** ** Emission of the 8-bit samples *)

Lemma clip_bounds (x : Q) : (0 <= clip x 0 255 <= 255)%Q.
Proof.
  unfold clip. split.
  - apply Q.min_glb; [apply Q.le_max_r | discriminate].
  - apply Q.le_min_r.
Qed.

Lemma astype_uint8_floor (x : Q) :
  (0 <= x)%Q -> astype_uint8 x = Qfloor x.
Proof.
  destruct x as [n dn]. unfold Qle, astype_uint8, Qfloor. simpl.
  intros H. rewrite Z.mul_1_r in H.
  apply Z.quot_div_nonneg; lia.
Qed.

(** C5 (amended): every emitted sample is the pixel clamped to [0, 255] with
    its fractional part discarded: it is the floor of the clamped value,
    lies in [0, 255], and is not above the clamped value but less than one
    below it. *)
Theorem sample_truncates (image : ndarray) (i j : nat) :
  let x := clip (cell image i j) 0 255 in
  let n := Decompress.sample (Decompress.emit image) i j in
  n = Qfloor x /\ (0 <= n <= 255)%Z /\
  (inject_Z n <= x)%Q /\ (x < inject_Z n + 1)%Q.
Proof.
  intros x n. subst n. simpl. unfold Decompress.to_sample. fold x.
  destruct (clip_bounds (cell image i j)) as [H0 H255]. fold x in H0, H255.
  rewrite (astype_uint8_floor H0).
  split; [reflexivity|].
  split.
  - split.
    + change 0%Z with (Qfloor 0). apply Qfloor_resp_le; exact H0.
    + change 255%Z with (Qfloor 255). apply Qfloor_resp_le; exact H255.
  - split.
    + apply Qfloor_le.
    + pose proof (Qlt_floor x) as H.
      rewrite inject_Z_plus in H. exact H.
Qed.

(** C5 (as stated, refuted): the pixel 3/4 is emitted as 0, which is not the
    nearest integer. *)
Lemma sample_not_nearest :
  let image := {| shape0 := 1; shape1 := 1; cell := fun _ _ => 3 # 4 |} in
  Decompress.sample (Decompress.emit image) 0 0 = 0%Z /\
  ~ nearest_integer (clip (cell image 0 0) 0 255)
                    (Decompress.sample (Decompress.emit image) 0 0).
Proof.
  split; [reflexivity|].
  unfold nearest_integer. vm_compute. intros H. apply H. reflexivity.
Qed.

(** ** [np.argmin] *)

Lemma ltb_lt (a b : Q) : ltb a b = true <-> (a < b)%Q.
Proof.
  unfold ltb. rewrite negb_true_iff.
  split; intros H.
  - apply Qnot_le_lt. intros Hle. apply Qle_bool_iff in Hle. congruence.
  - destruct (Qle_bool b a) eqn:E; [|reflexivity].
    apply Qle_bool_iff in E. exfalso. exact (Qlt_not_le _ _ H E).
Qed.

Lemma ltb_ge (a b : Q) : ltb a b = false <-> (b <= a)%Q.
Proof.
  unfold ltb. rewrite negb_false_iff. apply Qle_bool_iff.
Qed.

Lemma gtb_lt (a b : Q) : gtb a b = true <-> (b < a)%Q.
Proof. exact (ltb_lt b a). Qed.

Lemma gtb_le (a b : Q) : gtb a b = false <-> (a <= b)%Q.
Proof. exact (ltb_ge b a). Qed.

(** The loop invariant of the scan: [best] is the first minimum of the
    prefix [pre] already seen. *)
Lemma argmin_from_first_min (l : list Q) :
  forall (pre : list Q) (best : nat),
    best < length pre ->
    (forall v, v < length pre -> (nth best pre 0 <= nth v pre 0)%Q) ->
    (forall v, v < best -> (nth best pre 0 < nth v pre 0)%Q) ->
    let res := argmin_from l (length pre) best (nth best pre 0%Q) in
    let L := pre ++ l in
    res < length L /\
    (forall v, v < length L -> (nth res L 0 <= nth v L 0)%Q) /\
    (forall v, v < res -> (nth res L 0 < nth v L 0)%Q).
Proof.
  induction l as [|x t IH]; intros pre best Hb Hmin Hfirst; cbn zeta.
  - simpl. rewrite app_nil_r. auto.
  - simpl argmin_from.
    assert (Hlen : length (pre ++ [x]) = S (length pre))
      by (rewrite length_app; simpl; lia).
    assert (Hx : nth (length pre) (pre ++ [x]) 0%Q = x)
      by (rewrite app_nth2, Nat.sub_diag by lia; reflexivity).
    replace (pre ++ x :: t) with ((pre ++ [x]) ++ t)
      by (rewrite <- app_assoc; reflexivity).
    destruct (ltb x (nth best pre 0%Q)) eqn:E.
    + apply ltb_lt in E.
      specialize (IH (pre ++ [x]) (length pre)).
      rewrite Hlen, Hx in IH. apply IH.
      * lia.
      * intros v Hv. destruct (Nat.eq_dec v (length pre)) as [->|Hne].
        -- rewrite Hx. apply Qle_refl.
        -- rewrite app_nth1 by lia. apply Qlt_le_weak.
           eapply Qlt_le_trans; [exact E | apply Hmin; lia].
      * intros v Hv. rewrite app_nth1 by lia.
        eapply Qlt_le_trans; [exact E | apply Hmin; lia].
    + apply ltb_ge in E.
      specialize (IH (pre ++ [x]) best).
      rewrite Hlen in IH. rewrite (app_nth1 pre [x] 0%Q Hb) in IH. apply IH.
      * lia.
      * intros v Hv. destruct (Nat.eq_dec v (length pre)) as [->|Hne].
        -- rewrite Hx. exact E.
        -- rewrite app_nth1 by lia. apply Hmin; lia.
      * intros v Hv. rewrite app_nth1 by lia. apply Hfirst; exact Hv.
Qed.

(** [np.argmin] returns a valid index holding a minimum, and every earlier
    element is strictly larger. *)
Lemma argmin_first_min (l : list Q) :
  l <> [] ->
  argmin l < length l /\
  (forall v, v < length l -> (nth (argmin l) l 0 <= nth v l 0)%Q) /\
  (forall v, v < argmin l -> (nth (argmin l) l 0 < nth v l 0)%Q).
Proof.
  destruct l as [|x t]; [congruence|]. intros _.
  apply (argmin_from_first_min t [x] (best := 0)).
  - simpl; lia.
  - intros v Hv. simpl in Hv. replace v with 0 by lia. apply Qle_refl.
  - intros v Hv. lia.
Qed.

(** Among equal errors the lowest index wins. *)
Lemma argmin_lowest_tie (l : list Q) (v : nat) :
  v < length l -> (nth v l 0 == nth (argmin l) l 0)%Q -> argmin l <= v.
Proof.
  intros Hv Heq.
  destruct (le_lt_dec (argmin l) v) as [H|H]; [exact H|].
  assert (Hl : l <> []) by (destruct l; simpl in Hv; [lia|congruence]).
  destruct (argmin_first_min Hl) as (_ & _ & Hfirst).
  specialize (Hfirst v H). rewrite Heq in Hfirst.
  exfalso. exact (Qlt_irrefl _ Hfirst).
Qed.

(** ** The precomputed table of the encoder *)

Lemma combine_map_self {A B : Type} (f : A -> B) (l : list A) :
  combine l (map f l) = map (fun x => (x, f x)) l.
Proof. induction l as [|x t IH]; simpl; [|rewrite IH]; reflexivity. Qed.

Lemma combine_map_map {A B C : Type} (f : A -> B) (g : A -> C) (l : list A) :
  combine (map f l) (map g l) = map (fun x => (f x, g x)) l.
Proof. induction l as [|x t IH]; simpl; [|rewrite IH]; reflexivity. Qed.

Lemma nth_map_in {A B : Type} (f : A -> B) (l : list A) (n : nat) (a : A) (b : B) :
  n < length l -> nth n (map f l) b = f (nth n l a).
Proof.
  intros H. rewrite (nth_indep _ b (f a)) by (rewrite length_map; exact H).
  apply map_nth.
Qed.

Section Table.
Variable cfg : Config.
Variable domain_blocks : list ndarray.

Local Abbreviation vf := (Compress.variant_flat cfg domain_blocks).
Local Abbreviation tb := (Compress.build_table cfg domain_blocks).

Lemma t_mean_map : Compress.t_mean tb = map m_of vf.
Proof. reflexivity. Qed.

Lemma t_centered_map :
  Compress.t_centered tb =
  map (fun row => Compress.centered row (mean row)) vf.
Proof.
  unfold Compress.build_table. simpl.
  unfold Compress.variant_centered, Compress.variant_mean.
  rewrite combine_map_self, map_map. reflexivity.
Qed.

Lemma t_energy_map : Compress.t_energy tb = map E_of vf.
Proof.
  change (Compress.t_energy tb)
    with (Compress.variant_energy (Compress.t_centered tb)).
  rewrite t_centered_map. unfold Compress.variant_energy.
  rewrite map_map. reflexivity.
Qed.

Lemma numerator_map (t' : list Q) :
  Compress.numerator tb t' = map (C_of t') vf.
Proof.
  unfold Compress.numerator. rewrite t_centered_map, map_map. reflexivity.
Qed.

Lemma contrast_all_map (t' : list Q) :
  Compress.contrast_all tb (Compress.numerator tb t') =
  map (fun row => if gtb (E_of row) Compress.eps
                  then (C_of t' row / E_of row)%Q else 0%Q) vf.
Proof.
  unfold Compress.contrast_all.
  rewrite numerator_map, t_energy_map, combine_map_map, map_map.
  reflexivity.
Qed.

Lemma errors_all_map (t' : list Q) (E_t : Q) :
  Compress.errors_all tb (Compress.numerator tb t') E_t =
  map (fun row =>
         Qmax (if gtb (E_of row) Compress.eps
               then (E_t - (C_of t' row * C_of t' row) / E_of row)%Q
               else E_t) 0) vf.
Proof.
  unfold Compress.errors_all.
  rewrite numerator_map, t_energy_map, combine_map_map, !map_map.
  reflexivity.
Qed.

Lemma errors_all_length (t' : list Q) (E_t : Q) :
  length (Compress.errors_all tb (Compress.numerator tb t') E_t) = length vf.
Proof. rewrite errors_all_map. apply length_map. Qed.

End Table.

Lemma sum_squares_nonneg (l : list Q) :
  (0 <= sum (map (fun x => x * x) l))%Q.
Proof.
  induction l as [|x t IH]; simpl.
  - apply Qle_refl.
  - assert (Hx : (0 <= x * x)%Q) by nra. lra.
Qed.

Lemma energy_nonneg (c : list Q) : (0 <= Compress.energy c)%Q.
Proof. apply sum_squares_nonneg. Qed.

(** ** Least-squares fit of one range block *)

(** C1: for every range block and every variant [v] of the precomputed
    table, with [E_v] the centered energy of the variant, [C_v] its
    cross-correlation with the centered range block and [E_t] the energy of
    the range block: the contrast is [C_v / E_v] when [E_v > 1e-6] and 0
    otherwise, the error is [max(0, E_t - alpha_v * C_v)] when [E_v > 1e-6]
    and [E_t] otherwise, and the emitted offset is
    [m_t - alpha_best * m_best] for the selected variant [best]. *)
Theorem fit_formulas (cfg : Config) (domain_blocks : list ndarray)
    (block : ndarray) (v : nat) :
  let vf := Compress.variant_flat cfg domain_blocks in
  let tb := Compress.build_table cfg domain_blocks in
  let m_t := mean (flatten block) in
  let t' := Compress.centered (flatten block) m_t in
  let E_t := Compress.energy t' in
  let num := Compress.numerator tb t' in
  let m x := m_of (nth x vf []) in
  let E x := E_of (nth x vf []) in
  let C x := C_of t' (nth x vf []) in
  let alpha x := nth x (Compress.contrast_all tb num) 0%Q in
  let err x := nth x (Compress.errors_all tb num E_t) 0%Q in
  let best := argmin (Compress.errors_all tb num E_t) in
  let e := Compress.fit cfg tb block in
  v < length vf ->
  (nth v (Compress.t_mean tb) 0%Q = m v /\
   nth v (Compress.t_energy tb) 0%Q = E v /\
   nth v num 0%Q = C v) /\
  ((Compress.eps < E v)%Q ->
     alpha v = (C v / E v)%Q /\ (err v == Qmax 0 (E_t - alpha v * C v))%Q) /\
  (~ (Compress.eps < E v)%Q -> alpha v = 0%Q /\ (err v == E_t)%Q) /\
  best < length vf /\
  contrast e = alpha best /\
  offset e = (m_t - alpha best * m best)%Q.
Proof.
  cbv zeta. intros Hv.
  unfold Compress.fit. simpl contrast. simpl offset.
  rewrite !contrast_all_map, !errors_all_map.
  rewrite t_mean_map, t_energy_map, numerator_map.
  set (vf := Compress.variant_flat cfg domain_blocks) in *.
  set (m_t := mean (flatten block)).
  set (t' := Compress.centered (flatten block) m_t).
  set (E_t := Compress.energy t').
  set (errf := fun row : list Q =>
         Qmax (if gtb (E_of row) Compress.eps
               then (E_t - C_of t' row * C_of t' row / E_of row)%Q
               else E_t) 0).
  set (best := argmin (map errf vf)).
  assert (Hnth : forall (g : list Q -> Q) x, x < length vf ->
             nth x (map g vf) 0%Q = g (nth x vf [])).
  { intros g x Hx. apply nth_map_in; exact Hx. }
  assert (Hbest : best < length vf).
  { unfold best. rewrite <- (length_map errf vf).
    apply argmin_first_min.
    intros Hnil. apply (f_equal (@length Q)) in Hnil.
    rewrite length_map in Hnil. simpl in Hnil. lia. }
  rewrite !Hnth by assumption. unfold errf.
  set (E := E_of (nth v vf [])). set (C := C_of t' (nth v vf [])).
  split; [|split; [|split; [|split; [|split]]]].
  - auto.
  - intros HE.
    assert (HE0 : ~ (E == 0)%Q).
    { intros H0. rewrite H0 in HE. unfold Compress.eps in HE.
      revert HE. apply Qle_not_lt. discriminate. }
    apply gtb_lt in HE. rewrite HE.
    split; [reflexivity|].
    rewrite Q.max_comm.
    apply Q.max_compat; [reflexivity|]. field. exact HE0.
  - intros HE.
    assert (HE' : gtb E Compress.eps = false).
    { destruct (gtb E Compress.eps) eqn:G; [|reflexivity].
      apply gtb_lt in G. contradiction. }
    rewrite HE'.
    split; [reflexivity|].
    apply Q.max_l. apply energy_nonneg.
  - exact Hbest.
  - reflexivity.
  - unfold Compress.variant_mean. fold m_of.
    rewrite Hnth by exact Hbest. reflexivity.
Qed.

(** ** Lists laid out in raster order *)

Lemma range_from_map (a k c : nat) :
  range_from a k c = map (fun i => a + i * k) (seq 0 c).
Proof.
  revert a. induction c as [|c IH]; intros a; simpl; [reflexivity|].
  rewrite Nat.add_0_r. f_equal.
  rewrite IH, <- seq_shift, map_map.
  apply map_ext. intros i. simpl. lia.
Qed.

Lemma range_step_multiple (q k : nat) :
  0 < k -> range_step (q * k) k = map (fun i => i * k) (seq 0 q).
Proof.
  intros Hk. unfold range_step. destruct k as [|k']; [lia|].
  replace ((q * S k' + S k' - 1) / S k') with q.
  - rewrite range_from_map. apply map_ext. intros i. reflexivity.
  - apply Nat.div_unique with (r := k'); lia.
Qed.

Lemma length_flat_map_uniform {A B : Type} (f : A -> list B) (l : list A) (k : nat) :
  (forall x, In x l -> length (f x) = k) ->
  length (flat_map f l) = length l * k.
Proof.
  induction l as [|x t IH]; intros H; simpl; [reflexivity|].
  rewrite length_app, IH by (intros; apply H; right; assumption).
  rewrite (H x) by (left; reflexivity). lia.
Qed.

Lemma nth_flat_map_uniform {A B : Type} (f : A -> list B) (l : list A)
    (k i j : nat) (a : A) (b : B) :
  (forall x, In x l -> length (f x) = k) ->
  i < length l -> j < k ->
  nth (i * k + j) (flat_map f l) b = nth j (f (nth i l a)) b.
Proof.
  revert i. induction l as [|x t IH]; intros i H Hi Hj; simpl in *; [lia|].
  assert (Hx : length (f x) = k) by (apply H; auto).
  destruct i as [|i].
  - simpl. rewrite app_nth1 by lia. reflexivity.
  - rewrite app_nth2 by (rewrite Hx; simpl; lia).
    replace (S i * k + j - length (f x)) with (i * k + j)
      by (rewrite Hx; simpl; lia).
    apply IH; auto; lia.
Qed.

Lemma nth_map_seq {B : Type} (f : nat -> B) (n i : nat) (b : B) :
  i < n -> nth i (map f (seq 0 n)) b = f i.
Proof.
  intros H. rewrite (nth_map_in _ _ 0) by (rewrite length_seq; exact H).
  rewrite seq_nth by exact H. reflexivity.
Qed.

Lemma firstn_skipn_concat {A : Type} (rows : list (list A)) (k i : nat) :
  Forall (fun row => length row = k) rows ->
  i < length rows ->
  firstn k (skipn (i * k) (concat rows)) = nth i rows [].
Proof.
  intros H. revert i. induction H as [|row rows Hrow Hrows IH]; intros i Hi.
  - simpl in Hi. lia.
  - simpl concat. destruct i as [|i].
    + simpl. rewrite firstn_app, Hrow, Nat.sub_diag. simpl.
      rewrite app_nil_r. apply firstn_all2. lia.
    + replace (S i * k) with (length row + i * k) by (simpl; lia).
      rewrite skipn_app.
      rewrite skipn_all2 by lia.
      replace (length row + i * k - length row) with (i * k) by lia.
      simpl. apply IH. simpl in Hi. lia.
Qed.

Lemma length_concat_uniform {A : Type} (rows : list (list A)) (k : nat) :
  Forall (fun row => length row = k) rows ->
  length (concat rows) = length rows * k.
Proof.
  induction 1 as [|row rows Hrow Hrows IH]; simpl; [reflexivity|].
  rewrite length_app, IH, Hrow. reflexivity.
Qed.

(** Reshaping the concatenation of rows of length [k] gives the rows back. *)
Lemma reshape_rows_concat (rows : list (list Q)) (k : nat) :
  0 < k ->
  Forall (fun row => length row = k) rows ->
  Compress.reshape_rows k (concat rows) = rows.
Proof.
  intros Hk H. unfold Compress.reshape_rows.
  rewrite (length_concat_uniform H), Nat.div_mul by lia.
  apply nth_ext with (d := []) (d' := []).
  - rewrite length_map, length_seq. reflexivity.
  - rewrite length_map, length_seq. intros i Hi.
    rewrite (nth_map_in _ _ 0) by (rewrite length_seq; exact Hi).
    rewrite seq_nth by exact Hi. simpl.
    apply firstn_skipn_concat; assumption.
Qed.

(** ** Shapes and cells of the array primitives *)

Lemma clip_index_of_nat (y n : nat) : clip_index (Z.of_nat y) n = Nat.min y n.
Proof.
  unfold clip_index.
  destruct (Z.ltb_spec (Z.of_nat y) 0); [lia|].
  rewrite Nat2Z.id. reflexivity.
Qed.

Lemma block_at_shape0 (image : ndarray) (size y x : nat) :
  y + size <= shape0 image -> shape0 (Compress.block_at image size y x) = size.
Proof.
  intros H. unfold Compress.block_at. simpl.
  unfold slice_len. rewrite !clip_index_of_nat. lia.
Qed.

Lemma block_at_shape1 (image : ndarray) (size y x : nat) :
  x + size <= shape1 image -> shape1 (Compress.block_at image size y x) = size.
Proof.
  intros H. unfold Compress.block_at. simpl.
  unfold slice_len. rewrite !clip_index_of_nat. lia.
Qed.

Lemma block_at_cell (image : ndarray) (size y x i j : nat) :
  y <= shape0 image -> x <= shape1 image ->
  cell (Compress.block_at image size y x) i j = cell image (y + i) (x + j).
Proof.
  intros Hy Hx. unfold Compress.block_at. simpl.
  unfold slice_start. rewrite !clip_index_of_nat.
  rewrite !Nat.min_l by assumption. reflexivity.
Qed.

Lemma block_at_square (image : ndarray) (n size y x : nat) :
  square n image -> y + size <= n -> x + size <= n ->
  square size (Compress.block_at image size y x).
Proof.
  intros [H0 H1] Hy Hx. split.
  - apply block_at_shape0. lia.
  - apply block_at_shape1. lia.
Qed.

(** A relation between two arrays that the three elementary moves keep is
    kept by [transform], whatever the symmetry id. *)
Lemma transform_preserves2 (R : ndarray -> ndarray -> Prop) :
  (forall A B, R A B -> R (flip0 A) (flip0 B)) ->
  (forall A B, R A B -> R (flip1 A) (flip1 B)) ->
  (forall A B, R A B -> R (transpose A) (transpose B)) ->
  forall A B s, R A B ->
    R (Compress.transform A s) (Compress.transform B s).
Proof.
  intros H0 H1 Ht A B s HR.
  assert (Hrot : forall k, R (rot90 A k) (rot90 B k)).
  { intros k. unfold rot90.
    destruct (k mod 4 =? 0)%Z; [exact HR|].
    destruct (k mod 4 =? 2)%Z; [auto|].
    destruct (k mod 4 =? 1)%Z; auto. }
  unfold Compress.transform.
  destruct (s >=? 4)%Z; auto.
Qed.

Lemma transform_preserves (P : ndarray -> Prop) :
  (forall A, P A -> P (flip0 A)) ->
  (forall A, P A -> P (flip1 A)) ->
  (forall A, P A -> P (transpose A)) ->
  forall A s, P A -> P (Compress.transform A s).
Proof.
  intros H0 H1 Ht A s HP.
  apply (transform_preserves2 (fun A _ => P A)) with (B := A); auto.
Qed.

Lemma transform_square (n : nat) (A : ndarray) (s : Z) :
  square n A -> square n (Compress.transform A s).
Proof.
  apply transform_preserves; unfold square; simpl; intros B [H0 H1]; auto.
Qed.

Lemma downscale_shape0 (A : ndarray) (m : nat) :
  shape0 A = 2 * m -> shape0 (Compress.downscale A) = m.
Proof.
  intros H.
  change (shape0 (Compress.downscale A)) with ((shape0 A + 1 - 0) / 2).
  rewrite H. symmetry. apply Nat.div_unique with (r := 1); lia.
Qed.

Lemma downscale_shape1 (A : ndarray) (m : nat) :
  shape1 A = 2 * m -> shape1 (Compress.downscale A) = m.
Proof.
  intros H.
  change (shape1 (Compress.downscale A)) with ((shape1 A + 1 - 0) / 2).
  rewrite H. symmetry. apply Nat.div_unique with (r := 1); lia.
Qed.

Lemma downscale_square (m : nat) (A : ndarray) :
  square (2 * m) A -> square m (Compress.downscale A).
Proof.
  intros [H0 H1]. split; [apply downscale_shape0 | apply downscale_shape1]; assumption.
Qed.

Lemma downscale_cell (A : ndarray) (i j : nat) :
  cell (Compress.downscale A) i j =
  ((cell A (2 * i) (2 * j) + cell A (2 * i) (1 + 2 * j) +
    cell A (1 + 2 * i) (2 * j) + cell A (1 + 2 * i) (1 + 2 * j)) * (1 # 4))%Q.
Proof. reflexivity. Qed.

Lemma flatten_length (A : ndarray) :
  length (flatten A) = shape0 A * shape1 A.
Proof.
  unfold flatten.
  rewrite length_flat_map_uniform with (k := shape1 A).
  - rewrite length_seq. reflexivity.
  - intros i _. rewrite length_map, length_seq. reflexivity.
Qed.

(** ** Raster enumeration of tiles and variants *)

Section Raster.
Context {B : Type}.
Variable g : nat -> nat -> B.
Variables q k : nat.
Hypothesis Hk : 0 < k.

Local Abbreviation tiles :=
  (flat_map (fun y => map (fun x => g y x) (range_step (q * k) k))
            (range_step (q * k) k)).

Lemma raster_length : length tiles = q * q.
Proof.
  rewrite length_flat_map_uniform with (k := q).
  - rewrite range_step_multiple, length_map, length_seq by exact Hk.
    reflexivity.
  - intros y _.
    rewrite length_map, range_step_multiple, length_map, length_seq
      by exact Hk.
    reflexivity.
Qed.

Lemma raster_nth (i j : nat) (b : B) :
  i < q -> j < q -> nth (i * q + j) tiles b = g (i * k) (j * k).
Proof.
  intros Hi Hj.
  rewrite nth_flat_map_uniform with (a := 0).
  - rewrite range_step_multiple by exact Hk.
    rewrite map_map, !nth_map_seq by assumption. reflexivity.
  - intros y _.
    rewrite length_map, range_step_multiple, length_map, length_seq
      by exact Hk.
    reflexivity.
  - rewrite range_step_multiple, length_map, length_seq by exact Hk.
    exact Hi.
  - exact Hj.
Qed.

Lemma raster_nth_linear (n : nat) (b : B) :
  n < q * q -> nth n tiles b = g (n / q * k) (n mod q * k).
Proof.
  intros Hn.
  assert (Hq : q <> 0) by (intros ->; simpl in Hn; lia).
  rewrite (Nat.div_mod_eq n q) at 1.
  rewrite (Nat.mul_comm q (n / q)).
  apply raster_nth.
  - apply Nat.Div0.div_lt_upper_bound. lia.
  - apply Nat.mod_upper_bound. exact Hq.
Qed.

Lemma raster_In (t : B) :
  In t tiles -> exists i j, i < q /\ j < q /\ t = g (i * k) (j * k).
Proof.
  intros H. apply in_flat_map in H. destruct H as (y & Hy & H).
  apply in_map_iff in H. destruct H as (x & <- & Hx).
  rewrite range_step_multiple in Hy, Hx by exact Hk.
  apply in_map_iff in Hy. destruct Hy as (i & <- & Hi).
  apply in_map_iff in Hx. destruct Hx as (j & <- & Hj).
  apply in_seq in Hi. apply in_seq in Hj.
  exists i, j. repeat split; lia.
Qed.

End Raster.

Section Enumeration.
Variable cfg : Config.
Hypothesis Hcfg : config_ok cfg.

Local Abbreviation N := (IMAGE_SIZE cfg).
Local Abbreviation r := (RANGE_SIZE cfg).
Local Abbreviation d := (DOMAIN_SIZE cfg).
Local Abbreviation S_ := (SYMMETRY_COUNT cfg).

Lemma config_r_pos : 0 < r.
Proof. apply Hcfg. Qed.

Lemma config_d_pos : 0 < d.
Proof. destruct Hcfg as (H1 & H2 & _). lia. Qed.

Lemma config_N_d : N = N / d * d.
Proof.
  destruct Hcfg as (H1 & H2 & H3 & H4 & H5).
  pose proof (Nat.div_mod_eq N d). lia.
Qed.

Lemma config_rbps : N / r = 2 * (N / d).
Proof.
  destruct Hcfg as (H1 & H2 & H3 & H4 & H5).
  pose proof config_N_d as HN.
  symmetry. apply Nat.div_unique with (r := 0); [lia|].
  rewrite H2 in HN at 2. lia.
Qed.

Lemma config_N_r : N = N / r * r.
Proof.
  destruct Hcfg as (H1 & H2 & H3 & H4 & H5).
  pose proof config_N_d as HN. rewrite config_rbps.
  rewrite H2 in HN at 2. lia.
Qed.

Lemma config_dbps_pos : 0 < N / d.
Proof.
  destruct Hcfg as (H1 & H2 & H3 & H4 & H5).
  pose proof config_N_d as HN.
  destruct (N / d); [lia|lia].
Qed.

End Enumeration.

Section EncoderTable.
Variable cfg : Config.
Hypothesis Hcfg : config_ok cfg.
Variable image : ndarray.
Hypothesis Himage : square (IMAGE_SIZE cfg) image.

Local Abbreviation N := (IMAGE_SIZE cfg).
Local Abbreviation r := (RANGE_SIZE cfg).
Local Abbreviation d := (DOMAIN_SIZE cfg).
Local Abbreviation S_ := (SYMMETRY_COUNT cfg).
Local Abbreviation blocks := (Compress.extract_blocks cfg image d).

Lemma tile_inside (q k i : nat) : N = q * k -> i < q -> i * k + k <= N.
Proof. intros -> Hi. nia. Qed.

Lemma extract_blocks_raster (size q : nat) :
  N = q * size ->
  Compress.extract_blocks cfg image size =
  flat_map
    (fun y => map (fun x => Compress.block_at image size y x)
                  (range_step (q * size) size))
    (range_step (q * size) size).
Proof. intros H. unfold Compress.extract_blocks. rewrite <- H. reflexivity. Qed.

Lemma main_raster :
  Compress.main cfg image =
  flat_map
    (fun y => map (fun x => Compress.fit cfg (Compress.build_table cfg blocks)
                              (Compress.block_at image r y x))
                  (range_step (N / r * r) r))
    (range_step (N / r * r) r).
Proof.
  unfold Compress.main. rewrite <- (config_N_r Hcfg). reflexivity.
Qed.

Lemma domain_blocks_length : length blocks = N / d * (N / d).
Proof.
  rewrite (extract_blocks_raster _ _ (config_N_d Hcfg)).
  apply raster_length. apply (config_d_pos Hcfg).
Qed.

Lemma domain_blocks_nth (dom : nat) (b : ndarray) :
  dom < N / d * (N / d) ->
  nth dom blocks b =
  Compress.block_at image d (dom / (N / d) * d) (dom mod (N / d) * d).
Proof.
  rewrite (extract_blocks_raster _ _ (config_N_d Hcfg)).
  apply (raster_nth_linear (fun y x => Compress.block_at image d y x)).
  apply (config_d_pos Hcfg).
Qed.

Lemma domain_blocks_square (blk : ndarray) :
  In blk blocks -> square d blk.
Proof.
  rewrite (extract_blocks_raster _ _ (config_N_d Hcfg)).
  intros H. apply raster_In in H; [|apply (config_d_pos Hcfg)].
  destruct H as (i & j & Hi & Hj & ->).
  pose proof (config_N_d Hcfg) as HN.
  apply block_at_square with (n := N); [exact Himage| |];
    apply tile_inside with (q := N / d); assumption.
Qed.

Lemma variant_length (blk : ndarray) (s : Z) :
  square d blk ->
  length (flatten (Compress.downscale (Compress.transform blk s))) = r * r.
Proof.
  intros Hb. destruct Hcfg as (_ & Hd & _).
  rewrite Hd in Hb.
  destruct (downscale_square _ (transform_square s Hb)) as [H0 H1].
  rewrite flatten_length, H0, H1. reflexivity.
Qed.

(** Row [dom * S + s] of the flattened table is variant [s] of domain
    block [dom]: domain index outer, symmetry id inner. *)
Lemma variant_flat_rows :
  Compress.variant_flat cfg blocks =
  flat_map
    (fun blk =>
       map (fun s => flatten
                       (Compress.downscale
                          (Compress.transform blk (Z.of_nat s))))
           (seq 0 S_))
    blocks.
Proof.
  unfold Compress.variant_flat, Compress.domain_variants.
  set (h := fun blk s => Compress.downscale
                           (Compress.transform blk (Z.of_nat s))).
  assert (Hcat : forall l : list ndarray,
    flat_map (fun vs => flat_map flatten vs)
             (map (fun blk => map (h blk) (seq 0 S_)) l) =
    concat (flat_map (fun blk => map (fun s => flatten (h blk s)) (seq 0 S_))
                     l)).
  { induction l as [|blk t IH]; [reflexivity|].
    simpl. rewrite IH, concat_app. f_equal.
    rewrite flat_map_concat_map, map_map. reflexivity. }
  rewrite Hcat. apply reshape_rows_concat.
  - pose proof (config_r_pos Hcfg). nia.
  - apply Forall_forall. intros row Hrow.
    apply in_flat_map in Hrow. destruct Hrow as (blk & Hblk & Hrow).
    apply in_map_iff in Hrow. destruct Hrow as (s & <- & _).
    apply variant_length. apply domain_blocks_square. exact Hblk.
Qed.

Lemma variant_flat_length :
  length (Compress.variant_flat cfg blocks) = N / d * (N / d) * S_.
Proof.
  rewrite variant_flat_rows.
  rewrite length_flat_map_uniform with (k := S_).
  - rewrite domain_blocks_length. reflexivity.
  - intros blk _. rewrite length_map, length_seq. reflexivity.
Qed.

Lemma variant_flat_nth (dom s : nat) :
  dom < N / d * (N / d) -> s < S_ ->
  nth (dom * S_ + s) (Compress.variant_flat cfg blocks) [] =
  flatten
    (Compress.downscale
       (Compress.transform
          (Compress.block_at image d (dom / (N / d) * d)
                                     (dom mod (N / d) * d))
          (Z.of_nat s))).
Proof.
  intros Hdom Hs. rewrite variant_flat_rows.
  rewrite nth_flat_map_uniform with (a := image).
  - rewrite nth_map_seq by exact Hs.
    rewrite domain_blocks_nth by exact Hdom. reflexivity.
  - intros blk _. rewrite length_map, length_seq. reflexivity.
  - rewrite domain_blocks_length. exact Hdom.
  - exact Hs.
Qed.

Lemma main_length :
  length (Compress.main cfg image) = N / r * (N / r).
Proof.
  rewrite main_raster.
  apply raster_length. apply (config_r_pos Hcfg).
Qed.

Lemma main_nth (k : nat) (e : entry) :
  k < N / r * (N / r) ->
  nth k (Compress.main cfg image) e =
  Compress.fit cfg (Compress.build_table cfg blocks)
    (Compress.block_at image r (k / (N / r) * r) (k mod (N / r) * r)).
Proof.
  rewrite main_raster.
  apply (raster_nth_linear
           (fun y x => Compress.fit cfg (Compress.build_table cfg blocks)
                         (Compress.block_at image r y x))).
  apply (config_r_pos Hcfg).
Qed.

End EncoderTable.

(** ** Selection of the best variant *)

(** C3: for every range block [k] (raster order) the errors range over all
    [D * S] variants, variant [dom * S + s] being symmetry [s] of domain
    block [dom]; the encoder picks an index [v] of minimal error, the lowest
    one among equal errors, and emits [domain = v / S], [sym = v mod S]. *)
Theorem best_variant_selected (cfg : Config) (image : ndarray) (k : nat) :
  let N := IMAGE_SIZE cfg in
  let r := RANGE_SIZE cfg in
  let d := DOMAIN_SIZE cfg in
  let S_ := SYMMETRY_COUNT cfg in
  let D := N / d * (N / d) in
  let blocks := Compress.extract_blocks cfg image d in
  let tb := Compress.build_table cfg blocks in
  let block := Compress.block_at image r (k / (N / r) * r) (k mod (N / r) * r) in
  let t' := Compress.centered (flatten block) (mean (flatten block)) in
  let errors :=
    Compress.errors_all tb (Compress.numerator tb t') (Compress.energy t') in
  let e := nth k (Compress.main cfg image) (mk_entry 0 0 0 0) in
  config_ok cfg -> square N image -> k < N / r * (N / r) ->
  length blocks = D /\
  length errors = D * S_ /\
  (forall dom s, dom < D -> s < S_ ->
     nth (dom * S_ + s) (Compress.variant_flat cfg blocks) [] =
     flatten
       (Compress.downscale
          (Compress.transform
             (Compress.block_at image d (dom / (N / d) * d)
                                        (dom mod (N / d) * d))
             (Z.of_nat s)))) /\
  exists v,
    v < D * S_ /\
    (forall u, u < D * S_ -> (nth v errors 0 <= nth u errors 0)%Q) /\
    (forall u, u < D * S_ -> (nth u errors 0 == nth v errors 0)%Q -> v <= u) /\
    domain e = Z.of_nat (v / S_) /\
    sym e = Z.of_nat (v mod S_).
Proof.
  intros N r d S_ D blocks tb block t' errors e Hcfg Himage Hk.
  assert (Hlen : length errors = D * S_).
  { unfold errors, tb. rewrite errors_all_length.
    apply variant_flat_length; assumption. }
  assert (Hne : errors <> []).
  { intros Hnil. rewrite Hnil in Hlen. simpl in Hlen.
    pose proof (config_dbps_pos Hcfg) as HD.
    assert (HS : 0 < S_)
      by (destruct Hcfg as (_ & _ & _ & _ & HS); unfold S_; lia).
    assert (0 < D * S_); [|lia].
    repeat apply Nat.mul_pos_pos; assumption. }
  destruct (argmin_first_min Hne) as (Hlt & Hmin & _).
  split; [apply domain_blocks_length; assumption|].
  split; [exact Hlen|].
  split; [intros dom s Hdom Hs; apply variant_flat_nth; assumption|].
  exists (argmin errors).
  rewrite <- Hlen.
  split; [exact Hlt|].
  split; [exact Hmin|].
  split; [intros u Hu Heq; apply argmin_lowest_tie; assumption|].
  unfold e. rewrite main_nth by assumption.
  split; reflexivity.
Qed.

(** ** Addressing of range blocks in the decoder *)

Lemma div_interval (i a k : nat) :
  0 < k -> (a * k <= i < a * k + k <-> i / k = a).
Proof.
  intros Hk. split.
  - intros [H1 H2]. symmetry.
    apply Nat.div_unique with (r := i - a * k); lia.
  - intros <-. pose proof (Nat.div_mod_eq i k) as H.
    pose proof (Nat.mod_upper_bound i k ltac:(lia)). nia.
Qed.

Lemma div_mul_add (a c q : nat) : c < q -> (a * q + c) / q = a.
Proof.
  intros H. symmetry. apply Nat.div_unique with (r := c); lia.
Qed.

Lemma mod_mul_add (a c q : nat) : c < q -> (a * q + c) mod q = c.
Proof.
  intros H. symmetry. apply Nat.mod_unique with (q := a); lia.
Qed.

Section RangeAddressing.
Variable cfg : Config.
Hypothesis Hcfg : config_ok cfg.

Local Abbreviation N := (IMAGE_SIZE cfg).
Local Abbreviation r := (RANGE_SIZE cfg).
Local Abbreviation q := (Decompress.range_blocks_per_side cfg).
Local Abbreviation ry := (Decompress.ry cfg).
Local Abbreviation rx := (Decompress.rx cfg).

Lemma rbps_pos : 0 < q.
Proof.
  unfold Decompress.range_blocks_per_side.
  rewrite (config_rbps Hcfg). pose proof (config_dbps_pos Hcfg). lia.
Qed.

Lemma N_rbps : N = q * r.
Proof. apply (config_N_r Hcfg). Qed.

Lemma pixel_block_lt (i j : nat) :
  i < N -> j < N -> block_of cfg i j < q * q.
Proof.
  intros Hi Hj. unfold block_of. fold q.
  pose proof N_rbps as HN. pose proof (config_r_pos Hcfg) as Hr.
  assert (i / r < q) by (apply Nat.Div0.div_lt_upper_bound; lia).
  assert (j / r < q) by (apply Nat.Div0.div_lt_upper_bound; lia).
  nia.
Qed.

(** Range block [k] covers exactly the pixels whose block index is [k]. *)
Lemma in_block_iff (k i j : nat) :
  k < q * q -> i < N -> j < N ->
  (ry k <= i < ry k + r /\ rx k <= j < rx k + r) <-> block_of cfg i j = k.
Proof.
  intros Hk Hi Hj.
  pose proof N_rbps as HN. pose proof (config_r_pos Hcfg) as Hr.
  pose proof rbps_pos as Hq.
  unfold Decompress.ry, Decompress.rx, block_of. fold q.
  rewrite !div_interval by exact Hr.
  assert (Hjq : j / r < q) by (apply Nat.Div0.div_lt_upper_bound; lia).
  split.
  - intros [-> ->]. pose proof (Nat.div_mod_eq k q). lia.
  - intros <-. rewrite div_mul_add, mod_mul_add by exact Hjq. auto.
Qed.

Lemma range_block_inside (k : nat) :
  k < q * q -> ry k + r <= N /\ rx k + r <= N.
Proof.
  intros Hk. pose proof N_rbps as HN. pose proof rbps_pos as Hq.
  unfold Decompress.ry, Decompress.rx. fold q.
  assert (k / q < q) by (apply Nat.Div0.div_lt_upper_bound; lia).
  assert (k mod q < q) by (apply Nat.mod_upper_bound; lia).
  nia.
Qed.

(** From record [R] on, the target rows lie below the image. *)
Lemma range_block_outside (k : nat) : q * q <= k -> N <= ry k.
Proof.
  intros Hk. pose proof N_rbps as HN. pose proof rbps_pos as Hq.
  unfold Decompress.ry. fold q.
  assert (q <= k / q) by (apply Nat.div_le_lower_bound; lia).
  nia.
Qed.

End RangeAddressing.

(** ** One pass of the decoder loop *)

Section DecoderStep.
Variable cfg : Config.
Hypothesis Hcfg : config_ok cfg.

Local Abbreviation N := (IMAGE_SIZE cfg).
Local Abbreviation r := (RANGE_SIZE cfg).
Local Abbreviation d := (DOMAIN_SIZE cfg).
Local Abbreviation p := (Decompress.domain_blocks_per_side cfg).
Local Abbreviation q := (Decompress.range_blocks_per_side cfg).
Local Abbreviation ry := (Decompress.ry cfg).
Local Abbreviation rx := (Decompress.rx cfg).

(** The decoder reads the tile that the encoder numbered [domain e]. *)
Lemma decoder_domain_block (image : ndarray) (e : entry) :
  domain_ok cfg e ->
  let n := Z.to_nat (domain e) in
  getitem image (Decompress.dy cfg (domain e))
                (Decompress.dy cfg (domain e) + Z.of_nat d)
                (Decompress.dx cfg (domain e))
                (Decompress.dx cfg (domain e) + Z.of_nat d) =
  Compress.block_at image d (n / p * d) (n mod p * d).
Proof.
  intros He n. unfold domain_ok in He.
  assert (Hn : domain e = Z.of_nat n) by (unfold n; lia).
  unfold Decompress.dy, Decompress.dx, Compress.block_at.
  rewrite Hn.
  rewrite <- Nat2Z.inj_div, <- Nat2Z.inj_mod, <- !Nat2Z.inj_mul,
          <- !Nat2Z.inj_add.
  reflexivity.
Qed.

Lemma domain_block_inside (n : nat) :
  n < p * p -> n / p * d + d <= N /\ n mod p * d + d <= N.
Proof.
  intros Hn. pose proof (config_N_d Hcfg) as HN.
  pose proof (config_dbps_pos Hcfg) as Hp.
  fold p in HN, Hp.
  assert (n / p < p) by (apply Nat.Div0.div_lt_upper_bound; lia).
  assert (n mod p < p) by (apply Nat.mod_upper_bound; lia).
  nia.
Qed.

Lemma mapped_block_square (image : ndarray) (e : entry) :
  square N image -> domain_ok cfg e ->
  square r (Decompress.mapped_block cfg image e).
Proof.
  intros Himage He. unfold Decompress.mapped_block.
  rewrite (decoder_domain_block image He).
  set (n := Z.to_nat (domain e)).
  assert (Hn : n < p * p) by (unfold domain_ok in He; unfold n; lia).
  destruct (domain_block_inside Hn) as [Hy Hx].
  pose proof (block_at_square _ _ _ Himage Hy Hx) as Hb.
  destruct Hcfg as (_ & Hd & _).
  assert (Hb' : square (2 * r)
                  (Compress.block_at image d (n / p * d) (n mod p * d)))
    by (rewrite <- Hd; exact Hb).
  apply (transform_square (sym e)) in Hb'.
  apply downscale_square in Hb'.
  exact Hb'.
Qed.

(** A slice assignment of a value of the target's shape, inside the
    array, succeeds and overwrites exactly the target cells. *)
Lemma setitem_inside (A V : ndarray) (y x h w : nat) :
  shape0 V = h -> shape1 V = w ->
  y + h <= shape0 A -> x + w <= shape1 A ->
  exists A',
    setitem A y (y + h) x (x + w) V = Returned A' /\
    shape0 A' = shape0 A /\ shape1 A' = shape1 A /\
    forall i j,
      cell A' i j =
      if (y <=? i) && (i <? y + h) && (x <=? j) && (j <? x + w)
      then cell V (i - y) (j - x) else cell A i j.
Proof.
  intros H0 H1 Hy Hx. unfold setitem.
  rewrite (Nat.min_l y), (Nat.min_l (y + h)) by lia.
  rewrite (Nat.min_l x), (Nat.min_l (x + w)) by lia.
  replace (y + h - y) with h by lia.
  replace (x + w - x) with w by lia.
  unfold broadcastable. rewrite H0, H1, !Nat.eqb_refl. simpl.
  eexists. split; [reflexivity|]. simpl.
  split; [reflexivity|]. split; [reflexivity|].
  intros i j.
  destruct ((y <=? i) && (i <? y + h) && (x <=? j) && (j <? x + w)) eqn:E;
    [|reflexivity].
  apply andb_prop in E. destruct E as [E Ej2].
  apply andb_prop in E. destruct E as [E Ej1].
  apply andb_prop in E. destruct E as [Ei1 Ei2].
  apply Nat.leb_le in Ei1, Ej1. apply Nat.ltb_lt in Ei2, Ej2.
  f_equal.
  - destruct (Nat.eqb_spec h 1); [lia|reflexivity].
  - destruct (Nat.eqb_spec w 1); [lia|reflexivity].
Qed.

(** A value with at least two rows does not broadcast to an empty
    target. *)
Lemma setitem_below (A V : ndarray) (y x h w : nat) :
  shape0 A <= y -> 2 <= shape0 V ->
  setitem A y (y + h) x (x + w) V = Raised ValueError.
Proof.
  intros Hy HV. unfold setitem.
  rewrite (Nat.min_r y), (Nat.min_r (y + h)) by lia.
  rewrite Nat.sub_diag. unfold broadcastable.
  destruct (Nat.eqb_spec (shape0 V) 0); [lia|].
  destruct (Nat.eqb_spec (shape0 V) 1); [lia|].
  reflexivity.
Qed.

End DecoderStep.

(** ** The decoder loop *)

Section DecoderLoop.
Variable cfg : Config.
Hypothesis Hcfg : config_ok cfg.
Variable image : ndarray.
Hypothesis Himage : square (IMAGE_SIZE cfg) image.

Local Abbreviation N := (IMAGE_SIZE cfg).
Local Abbreviation r := (RANGE_SIZE cfg).
Local Abbreviation q := (Decompress.range_blocks_per_side cfg).
Local Abbreviation ry := (Decompress.ry cfg).
Local Abbreviation rx := (Decompress.rx cfg).

Lemma block_offset (k i j : nat) :
  block_of cfg i j = k -> j < N ->
  i - ry k = i mod r /\ j - rx k = j mod r.
Proof.
  intros <- Hj.
  pose proof (N_rbps Hcfg) as HN. pose proof (config_r_pos Hcfg) as Hr.
  assert (Hjq : j / r < q) by (apply Nat.Div0.div_lt_upper_bound; lia).
  unfold Decompress.ry, Decompress.rx, block_of.
  rewrite div_mul_add, mod_mul_add by exact Hjq.
  pose proof (Nat.div_mod_eq i r). pose proof (Nat.div_mod_eq j r). lia.
Qed.

(** Starting at record number [k0] with buffer [nm], the loop returns a
    buffer in which the blocks [k0 .. k0 + len - 1] hold the mapped domain
    blocks of [image] and every other pixel is the one of [nm]. *)
Lemma iterate_loop_writes (pairs : list entry) :
  forall (k0 : nat) (nm : ndarray),
    Forall (domain_ok cfg) pairs ->
    square N nm ->
    k0 + length pairs <= q * q ->
    exists nm',
      Decompress.iterate_loop cfg image pairs k0 nm = Returned nm' /\
      square N nm' /\
      forall i j, i < N -> j < N ->
        cell nm' i j =
        if (k0 <=? block_of cfg i j) &&
           (block_of cfg i j <? k0 + length pairs)
        then cell (Decompress.mapped_block cfg image
                     (nth (block_of cfg i j - k0) pairs no_entry))
                  (i mod r) (j mod r)
        else cell nm i j.
Proof.
  induction pairs as [|e rest IH]; intros k0 nm Hok Hnm Hlen.
  - exists nm. split; [reflexivity|]. split; [exact Hnm|].
    intros i j _ _. simpl length.
    destruct (Nat.leb_spec k0 (block_of cfg i j));
      destruct (Nat.ltb_spec (block_of cfg i j) (k0 + 0));
      simpl; try reflexivity; lia.
  - simpl length in *. inversion Hok as [|? ? He Hrest]; subst.
    assert (Hk0 : k0 < q * q) by lia.
    destruct (range_block_inside Hcfg Hk0) as [Hy Hx].
    destruct (mapped_block_square Hcfg Himage He) as [HV0 HV1].
    destruct Hnm as [Hn0 Hn1].
    destruct (setitem_inside nm (Decompress.mapped_block cfg image e)
                (ry k0) (rx k0) HV0 HV1)
      as (nm1 & Hset & Hs0 & Hs1 & Hcell); [lia|lia|].
    destruct (IH (S k0) nm1 Hrest) as (nm' & Hloop & Hnm' & Hcells).
    { split; congruence. }
    { lia. }
    exists nm'. split.
    { simpl. unfold Decompress.iterate_step. rewrite Hset. exact Hloop. }
    split; [exact Hnm'|].
    intros i j Hi Hj. rewrite (Hcells i j Hi Hj), Hcell.
    pose proof (in_block_iff Hcfg Hk0 Hi Hj) as Hin.
    destruct (Nat.eq_dec (block_of cfg i j) k0) as [Hb|Hb].
    + destruct (block_offset i Hb Hj) as [Ho1 Ho2].
      apply Hin in Hb as Hb'. destruct Hb' as [[Hi1 Hi2] [Hj1 Hj2]].
      rewrite Hb, Nat.sub_diag, Ho1, Ho2.
      destruct (Nat.leb_spec (S k0) k0); [lia|].
      destruct (Nat.leb_spec k0 k0); [|lia].
      destruct (Nat.ltb_spec k0 (k0 + S (length rest))); [|lia].
      destruct (Nat.leb_spec (ry k0) i); [|lia].
      destruct (Nat.ltb_spec i (ry k0 + r)); [|lia].
      destruct (Nat.leb_spec (rx k0) j); [|lia].
      destruct (Nat.ltb_spec j (rx k0 + r)); [|lia].
      reflexivity.
    + assert (Hout : (ry k0 <=? i) && (i <? ry k0 + r) &&
                     (rx k0 <=? j) && (j <? rx k0 + r) = false).
      { destruct ((ry k0 <=? i) && (i <? ry k0 + r) &&
                  (rx k0 <=? j) && (j <? rx k0 + r)) eqn:E; [|reflexivity].
        exfalso. apply Hb. apply Hin.
        apply andb_prop in E. destruct E as [E Ej2].
        apply andb_prop in E. destruct E as [E Ej1].
        apply andb_prop in E. destruct E as [Ei1 Ei2].
        apply Nat.leb_le in Ei1, Ej1. apply Nat.ltb_lt in Ei2, Ej2.
        lia. }
      rewrite Hout.
      replace (S k0 + length rest) with (k0 + S (length rest)) by lia.
      destruct (Nat.leb_spec (S k0) (block_of cfg i j));
        destruct (Nat.leb_spec k0 (block_of cfg i j)); try lia;
        simpl; [|reflexivity].
      destruct (Nat.ltb_spec (block_of cfg i j) (k0 + S (length rest)));
        [|reflexivity].
      replace (block_of cfg i j - k0) with (S (block_of cfg i j - S k0))
        by lia.
      reflexivity.
Qed.

End DecoderLoop.

(** ** One iteration of the decoder *)

Section DecoderIterate.
Variable cfg : Config.
Hypothesis Hcfg : config_ok cfg.

Local Abbreviation N := (IMAGE_SIZE cfg).
Local Abbreviation r := (RANGE_SIZE cfg).
Local Abbreviation d := (DOMAIN_SIZE cfg).
Local Abbreviation q := (Decompress.range_blocks_per_side cfg).
Local Abbreviation ry := (Decompress.ry cfg).
Local Abbreviation rx := (Decompress.rx cfg).

(** With a codebook of [R] valid records an iteration returns, and every
    pixel of the result is the mapped pixel of its range block's record. *)
Lemma iterate_pixels (image : ndarray) (pairs : list entry)
    (uninit : nat -> nat -> Q) :
  square N image -> codebook_ok cfg pairs ->
  exists image',
    Decompress.iterate cfg image pairs uninit = Returned image' /\
    square N image' /\
    forall i j, i < N -> j < N ->
      cell image' i j =
      cell (Decompress.mapped_block cfg image
              (nth (block_of cfg i j) pairs no_entry))
           (i mod r) (j mod r).
Proof.
  intros Himage [Hlen Hok].
  destruct (iterate_loop_writes Hcfg Himage 0
              (nm := empty_like image uninit) Hok)
    as (image' & Hrun & Hsq & Hcells).
  - exact Himage.
  - lia.
  - exists image'. split; [exact Hrun|]. split; [exact Hsq|].
    intros i j Hi Hj. rewrite (Hcells i j Hi Hj).
    pose proof (pixel_block_lt Hcfg Hi Hj) as Hb.
    rewrite Nat.sub_0_r. simpl.
    destruct (Nat.ltb_spec (block_of cfg i j) (length pairs)); [reflexivity|lia].
Qed.

(** The pixel at offset [(y, x)] of range block [k]. *)
Lemma block_pixel (k y x : nat) :
  k < q * q -> y < r -> x < r ->
  ry k + y < N /\ rx k + x < N /\
  block_of cfg (ry k + y) (rx k + x) = k /\
  (ry k + y) mod r = y /\ (rx k + x) mod r = x.
Proof.
  intros Hk Hy Hx.
  destruct (range_block_inside Hcfg Hk) as [H1 H2].
  assert (Hi : ry k + y < N) by lia.
  assert (Hj : rx k + x < N) by lia.
  assert (Hb : block_of cfg (ry k + y) (rx k + x) = k)
    by (apply (in_block_iff Hcfg Hk Hi Hj); lia).
  destruct (block_offset Hcfg (ry k + y) Hb Hj) as [Ho1 Ho2].
  repeat split; try assumption; lia.
Qed.

End DecoderIterate.

(** C2: for a codebook of [R] valid records and an [N x N] estimate, one
    iteration returns a new [N x N] image whose range block [k] is
    [contrast_k * downscale(transform(domain block of the old estimate,
    sym_k)) + offset_k]; the result is read from the old estimate only and
    does not depend on the initial content of the buffer being written. *)
Theorem iterate_maps_blocks (cfg : Config) (image : ndarray)
    (pairs : list entry) (uninit : nat -> nat -> Q) :
  let N := IMAGE_SIZE cfg in
  let r := RANGE_SIZE cfg in
  let d := Z.of_nat (DOMAIN_SIZE cfg) in
  config_ok cfg -> square N image -> codebook_ok cfg pairs ->
  exists image',
    Decompress.iterate cfg image pairs uninit = Returned image' /\
    square N image' /\
    (forall k y x, k < length pairs -> y < r -> x < r ->
       let e := nth k pairs no_entry in
       let dy := Decompress.dy cfg (domain e) in
       let dx := Decompress.dx cfg (domain e) in
       let domain_block := getitem image dy (dy + d) dx (dx + d) in
       cell image' (Decompress.ry cfg k + y) (Decompress.rx cfg k + x) =
       (contrast e *
        cell (Decompress.downscale (Decompress.transform domain_block (sym e)))
             y x
        + offset e)%Q) /\
    (forall uninit',
       exists image'',
         Decompress.iterate cfg image pairs uninit' = Returned image'' /\
         square N image'' /\
         forall i j, i < N -> j < N -> cell image'' i j = cell image' i j).
Proof.
  intros N r d Hcfg Himage Hbook.
  destruct (iterate_pixels Hcfg uninit Himage Hbook)
    as (image' & Hrun & Hsq & Hcells).
  exists image'. split; [exact Hrun|]. split; [exact Hsq|]. split.
  - intros k y x Hk Hy Hx e dy dx domain_block.
    destruct Hbook as [Hlen _]. rewrite Hlen in Hk.
    destruct (block_pixel Hcfg Hk Hy Hx) as (Hi & Hj & Hb & Hmy & Hmx).
    rewrite (Hcells _ _ Hi Hj), Hb, Hmy, Hmx. reflexivity.
  - intros uninit'.
    destruct (iterate_pixels Hcfg uninit' Himage Hbook)
      as (image'' & Hrun' & Hsq' & Hcells').
    exists image''. split; [exact Hrun'|]. split; [exact Hsq'|].
    intros i j Hi Hj.
    rewrite (Hcells i j Hi Hj), (Hcells' i j Hi Hj). reflexivity.
Qed.

(** ** The codebook the encoder emits *)

Section EncoderOutput.
Variable cfg : Config.
Hypothesis Hcfg : config_ok cfg.
Variable image : ndarray.
Hypothesis Himage : square (IMAGE_SIZE cfg) image.

Local Abbreviation N := (IMAGE_SIZE cfg).
Local Abbreviation r := (RANGE_SIZE cfg).
Local Abbreviation d := (DOMAIN_SIZE cfg).
Local Abbreviation S_ := (SYMMETRY_COUNT cfg).
Local Abbreviation blocks := (Compress.extract_blocks cfg image d).
Local Abbreviation tb := (Compress.build_table cfg blocks).

Lemma variant_count_pos : 0 < N / d * (N / d) * S_.
Proof.
  pose proof (config_dbps_pos Hcfg) as HD.
  assert (HS : 0 < S_) by (destruct Hcfg as (_ & _ & _ & _ & HS); lia).
  repeat apply Nat.mul_pos_pos; assumption.
Qed.

Lemma fit_best_lt (t' : list Q) (E_t : Q) :
  argmin (Compress.errors_all tb (Compress.numerator tb t') E_t)
  < N / d * (N / d) * S_.
Proof.
  set (errors := Compress.errors_all tb (Compress.numerator tb t') E_t).
  assert (Hlen : length errors = N / d * (N / d) * S_).
  { unfold errors. rewrite errors_all_length.
    apply variant_flat_length; assumption. }
  rewrite <- Hlen. apply argmin_first_min.
  intros Hnil. rewrite Hnil in Hlen. simpl in Hlen.
  pose proof variant_count_pos. lia.
Qed.

Lemma fit_indices (block : ndarray) :
  let e := Compress.fit cfg tb block in
  (0 <= domain e < Z.of_nat (N / d * (N / d)))%Z /\
  (0 <= sym e < 8)%Z.
Proof.
  intros e. unfold e, Compress.fit. simpl domain. simpl sym.
  set (best := argmin _).
  assert (Hbest : best < N / d * (N / d) * S_) by apply fit_best_lt.
  assert (HS : S_ = 8) by (destruct Hcfg as (_ & _ & _ & _ & HS); exact HS).
  rewrite HS in *.
  assert (best / 8 < N / d * (N / d))
    by (apply Nat.Div0.div_lt_upper_bound; lia).
  assert (best mod 8 < 8) by (apply Nat.mod_upper_bound; lia).
  lia.
Qed.

Lemma main_codebook_ok : codebook_ok cfg (Compress.main cfg image).
Proof.
  split.
  - apply main_length; assumption.
  - rewrite main_raster by assumption.
    apply Forall_forall. intros e He.
    apply raster_In in He; [|apply (config_r_pos Hcfg)].
    destruct He as (i & j & _ & _ & ->).
    apply fit_indices.
Qed.

End EncoderOutput.

(** C9: every record the encoder emits has [0 <= domain < (N/d)^2] and
    [0 <= sym < 8]; for such a record the decoder's [(dy, dx)] address a
    full [d x d] block inside any [N x N] estimate, the write of range block
    [k] stays inside the output, and the whole iteration over the encoder's
    codebook returns without an exception. *)
Theorem emitted_indices_in_bounds (cfg : Config) (image estimate : ndarray)
    (uninit : nat -> nat -> Q) (k : nat) :
  let N := IMAGE_SIZE cfg in
  let r := RANGE_SIZE cfg in
  let d := DOMAIN_SIZE cfg in
  let pairs := Compress.main cfg image in
  let e := nth k pairs no_entry in
  let dy := Decompress.dy cfg (domain e) in
  let dx := Decompress.dx cfg (domain e) in
  config_ok cfg -> square N image -> square N estimate -> k < length pairs ->
  (0 <= domain e < Z.of_nat (N / d * (N / d)))%Z /\
  (0 <= sym e < 8)%Z /\
  (0 <= dy /\ dy + Z.of_nat d <= Z.of_nat N)%Z /\
  (0 <= dx /\ dx + Z.of_nat d <= Z.of_nat N)%Z /\
  square d (getitem estimate dy (dy + Z.of_nat d) dx (dx + Z.of_nat d)) /\
  Decompress.ry cfg k + r <= N /\
  Decompress.rx cfg k + r <= N /\
  exists estimate',
    Decompress.iterate cfg estimate pairs uninit = Returned estimate' /\
    square N estimate'.
Proof.
  intros N r d pairs e dy dx. subst N r d.
  intros Hcfg Himage Hest Hk.
  pose proof (main_codebook_ok Hcfg Himage) as Hbook.
  fold pairs in Hbook.
  assert (Hlen : length pairs =
                 IMAGE_SIZE cfg / RANGE_SIZE cfg *
                 (IMAGE_SIZE cfg / RANGE_SIZE cfg))
    by (apply main_length; assumption).
  assert (He : (0 <= domain e <
                Z.of_nat (IMAGE_SIZE cfg / DOMAIN_SIZE cfg *
                          (IMAGE_SIZE cfg / DOMAIN_SIZE cfg)))%Z /\
               (0 <= sym e < 8)%Z).
  { unfold e, pairs. rewrite main_nth by (try assumption; lia).
    apply fit_indices; assumption. }
  destruct He as [Hdom Hsym].
  assert (Hdok : domain_ok cfg e) by exact Hdom.
  set (n := Z.to_nat (domain e)).
  assert (Hn : n < IMAGE_SIZE cfg / DOMAIN_SIZE cfg *
                   (IMAGE_SIZE cfg / DOMAIN_SIZE cfg)) by (unfold n; lia).
  destruct (domain_block_inside Hcfg Hn) as [Hy Hx].
  unfold Decompress.domain_blocks_per_side in Hy, Hx.
  assert (Hdy : dy = Z.of_nat (n / (IMAGE_SIZE cfg / DOMAIN_SIZE cfg) *
                               DOMAIN_SIZE cfg)).
  { unfold dy, Decompress.dy, Decompress.domain_blocks_per_side.
    replace (domain e) with (Z.of_nat n) by (unfold n; lia).
    rewrite <- Nat2Z.inj_div, <- Nat2Z.inj_mul. reflexivity. }
  assert (Hdx : dx = Z.of_nat (n mod (IMAGE_SIZE cfg / DOMAIN_SIZE cfg) *
                               DOMAIN_SIZE cfg)).
  { unfold dx, Decompress.dx, Decompress.domain_blocks_per_side.
    replace (domain e) with (Z.of_nat n) by (unfold n; lia).
    rewrite <- Nat2Z.inj_mod, <- Nat2Z.inj_mul. reflexivity. }
  split; [exact Hdom|]. split; [exact Hsym|].
  split; [rewrite Hdy; lia|].
  split; [rewrite Hdx; lia|].
  split.
  { unfold dy, dx. rewrite (decoder_domain_block estimate Hdok).
    apply block_at_square with (n := IMAGE_SIZE cfg); assumption. }
  assert (Hkq : k < Decompress.range_blocks_per_side cfg *
                    Decompress.range_blocks_per_side cfg)
    by (unfold Decompress.range_blocks_per_side; lia).
  destruct (range_block_inside Hcfg Hkq) as [Hry Hrx].
  split; [exact Hry|]. split; [exact Hrx|].
  destruct (iterate_pixels Hcfg uninit Hest Hbook) as (est' & Hrun & Hsq & _).
  exists est'. split; assumption.
Qed.

(** ** Codebooks with the wrong number of records *)

Section RecordCount.
Variable cfg : Config.
Hypothesis Hcfg : config_ok cfg.
Variable pairs : list entry.
Hypothesis Hpairs : Forall (domain_ok cfg) pairs.

Local Abbreviation N := (IMAGE_SIZE cfg).
Local Abbreviation r := (RANGE_SIZE cfg).
Local Abbreviation q := (Decompress.range_blocks_per_side cfg).

Lemma iterate_loop_app (image : ndarray) (l1 l2 : list entry) :
  forall (k0 : nat) (nm : ndarray),
    Decompress.iterate_loop cfg image (l1 ++ l2) k0 nm =
    (nm' <- Decompress.iterate_loop cfg image l1 k0 nm ;;
     Decompress.iterate_loop cfg image l2 (k0 + length l1) nm').
Proof.
  induction l1 as [|e t IH]; intros k0 nm; simpl.
  - rewrite Nat.add_0_r. reflexivity.
  - destruct (Decompress.iterate_step cfg image e k0 nm) as [nm1|err];
      simpl; [|reflexivity].
    rewrite IH. replace (S k0 + length t) with (k0 + S (length t)) by lia.
    reflexivity.
Qed.

(** Too few records: the iteration returns; the blocks without a record
    keep the initial content of the buffer. *)
Lemma iterate_short (image : ndarray) (uninit : nat -> nat -> Q) :
  square N image -> length pairs <= q * q ->
  exists image',
    Decompress.iterate cfg image pairs uninit = Returned image' /\
    square N image' /\
    forall i j, i < N -> j < N ->
      cell image' i j =
      if block_of cfg i j <? length pairs
      then cell (Decompress.mapped_block cfg image
                   (nth (block_of cfg i j) pairs no_entry))
                (i mod r) (j mod r)
      else uninit i j.
Proof.
  intros Himage Hlen.
  destruct (iterate_loop_writes Hcfg Himage 0
              (nm := empty_like image uninit) Hpairs)
    as (image' & Hrun & Hsq & Hcells).
  - exact Himage.
  - lia.
  - exists image'. split; [exact Hrun|]. split; [exact Hsq|].
    intros i j Hi Hj. rewrite (Hcells i j Hi Hj).
    rewrite Nat.sub_0_r. reflexivity.
Qed.

(** Too many records: record number [R] targets rows below the image and
    the assignment raises. *)
Lemma iterate_long (image : ndarray) (uninit : nat -> nat -> Q) :
  square N image -> 2 <= r -> q * q < length pairs ->
  Decompress.iterate cfg image pairs uninit = Raised ValueError.
Proof.
  intros Himage Hr Hlen.
  rewrite <- (firstn_skipn (q * q) pairs) in Hpairs |- *.
  apply Forall_app in Hpairs. destruct Hpairs as [H1 H2].
  assert (Hl1 : length (firstn (q * q) pairs) = q * q)
    by (rewrite length_firstn; lia).
  destruct (skipn (q * q) pairs) as [|e rest] eqn:Hskip.
  { apply (f_equal (@length entry)) in Hskip.
    rewrite length_skipn in Hskip. simpl in Hskip. lia. }
  unfold Decompress.iterate. rewrite iterate_loop_app.
  destruct (iterate_loop_writes Hcfg Himage 0
              (nm := empty_like image uninit) H1)
    as (nm' & Hrun & [Hs0 Hs1] & _).
  - exact Himage.
  - lia.
  - rewrite Hrun, Hl1. simpl.
    unfold Decompress.iterate_step.
    inversion H2 as [|? ? He _]; subst.
    destruct (mapped_block_square Hcfg Himage He) as [HV0 _].
    rewrite setitem_below; [reflexivity| |lia].
    rewrite Hs0. apply (range_block_outside Hcfg). lia.
Qed.

Lemma iterations_short (uninit : nat -> nat -> nat -> Q) (count : nat) :
  length pairs <= q * q ->
  forall (k : nat) (seed : ndarray),
    square N seed ->
    exists image,
      Decompress.iterations cfg count k seed pairs uninit = Returned image /\
      square N image /\
      (0 < count ->
       forall i j, i < N -> j < N -> length pairs <= block_of cfg i j ->
         cell image i j = uninit (k + count - 1) i j).
Proof.
  intros Hlen. induction count as [|c IH]; intros k seed Hseed.
  - exists seed. split; [reflexivity|]. split; [exact Hseed|]. lia.
  - destruct (iterate_short (uninit k) Hseed Hlen)
      as (image1 & Hrun & Hsq & Hcells).
    destruct (IH (S k) image1 Hsq) as (image & Hrest & Hsq' & Hkeep).
    exists image. split; [simpl; rewrite Hrun; exact Hrest|].
    split; [exact Hsq'|].
    intros _ i j Hi Hj Hb.
    destruct c as [|c'].
    + simpl in Hrest. injection Hrest as <-.
      rewrite (Hcells i j Hi Hj).
      destruct (Nat.ltb_spec (block_of cfg i j) (length pairs)); [lia|].
      f_equal. lia.
    + rewrite (Hkeep ltac:(lia) i j Hi Hj Hb). f_equal. lia.
Qed.

Lemma main_short (seed : ndarray) (uninit : nat -> nat -> nat -> Q) :
  square N seed -> length pairs <= q * q -> 0 < ITERATIONS cfg ->
  exists out,
    Decompress.main cfg pairs seed uninit = Returned out /\
    forall i j, i < N -> j < N -> length pairs <= block_of cfg i j ->
      Decompress.sample out i j =
      Decompress.to_sample (uninit (ITERATIONS cfg - 1) i j).
Proof.
  intros Hseed Hlen Hit.
  destruct (iterations_short uninit (ITERATIONS cfg) Hlen 0 Hseed)
    as (image & Hrun & _ & Hkeep).
  exists (Decompress.emit image).
  split; [unfold Decompress.main; rewrite Hrun; reflexivity|].
  intros i j Hi Hj Hb. simpl.
  rewrite (Hkeep Hit i j Hi Hj Hb). reflexivity.
Qed.

Lemma main_long (seed : ndarray) (uninit : nat -> nat -> nat -> Q) :
  square N seed -> 2 <= r -> q * q < length pairs -> 0 < ITERATIONS cfg ->
  Decompress.main cfg pairs seed uninit = Raised ValueError.
Proof.
  intros Hseed Hr Hlen Hit. unfold Decompress.main.
  destruct (ITERATIONS cfg) as [|c]; [lia|].
  simpl. rewrite (iterate_long (uninit 0) Hseed Hr Hlen). reflexivity.
Qed.

End RecordCount.

(** C4 (amended): the decoder does not check the record count.  For records
    with valid domain indices, [RANGE_SIZE >= 2] and at least one
    iteration: with more than [(N/r)^2] records decoding raises numpy's
    [ValueError] in the first iteration; with fewer records decoding
    returns normally, and every pixel of a range block that has no record
    is the initial content of the buffer of the last iteration. *)
Theorem record_count_unchecked (cfg : Config) (pairs : list entry)
    (seed : ndarray) (uninit : nat -> nat -> nat -> Q) :
  let N := IMAGE_SIZE cfg in
  let R := Decompress.range_blocks_per_side cfg *
           Decompress.range_blocks_per_side cfg in
  config_ok cfg -> 2 <= RANGE_SIZE cfg -> 0 < ITERATIONS cfg ->
  square N seed -> Forall (domain_ok cfg) pairs ->
  (R < length pairs ->
     Decompress.main cfg pairs seed uninit = Raised ValueError) /\
  (length pairs < R ->
     exists out,
       Decompress.main cfg pairs seed uninit = Returned out /\
       forall i j, i < N -> j < N -> length pairs <= block_of cfg i j ->
         Decompress.sample out i j =
         Decompress.to_sample (uninit (ITERATIONS cfg - 1) i j)).
Proof.
  intros N R Hcfg Hr Hit Hseed Hpairs. split; intros Hlen.
  - apply main_long; assumption.
  - apply main_short; try assumption. unfold R in Hlen. lia.
Qed.

Lemma source_config_ok : config_ok source_config.
Proof. unfold config_ok. simpl. repeat split; try lia. Qed.

(** C4 (as stated, refuted): with the constants of the source, a codebook
    of one record instead of 16384 is not rejected; decoding returns and
    the last pixel of the output is whatever the fresh buffer held (here
    the value 77). *)
Lemma short_codebook_not_rejected :
  let pairs := [mk_entry 0 0 0 0] in
  let seed := {| shape0 := 512; shape1 := 512; cell := fun _ _ => 0%Q |} in
  let uninit := fun (_ _ _ : nat) => 77%Q in
  length pairs <>
    Decompress.range_blocks_per_side source_config *
    Decompress.range_blocks_per_side source_config /\
  exists out,
    Decompress.main source_config pairs seed uninit = Returned out /\
    Decompress.sample out 511 511 = 77%Z.
Proof.
  intros pairs seed uninit. split.
  - vm_compute. discriminate.
  - assert (Hp : Forall (domain_ok source_config) pairs).
    { constructor; [|constructor].
      unfold domain_ok. vm_compute. split; [discriminate|reflexivity]. }
    destruct (main_short source_config_ok Hp (seed := seed) uninit)
      as (out & Hrun & Hkeep).
    + split; reflexivity.
    + apply Nat.leb_le. vm_compute. reflexivity.
    + simpl. lia.
    + exists out. split; [exact Hrun|].
      rewrite Hkeep; [reflexivity | simpl; lia | simpl; lia |].
      apply Nat.leb_le. vm_compute. reflexivity.
Qed.

(** ** Degenerate domain blocks *)

(** C8: fitting a constant 4 x 4 block of 200 against the variants of a
    constant 8 x 8 block of 128 gives contrast 0, offset 200 and error 0 for
    all eight variants, and variant 0 is the one emitted; the same record is
    emitted by [main] for an all-200 range block of an image whose first
    domain block is all 128; and in general, among variants of equal error
    the encoder selects the lowest index. *)
Theorem degenerate_block_fit :
  (let tb := Compress.build_table source_config [const_tile 8 128] in
   let block := const_tile 4 200 in
   let t' := Compress.centered (flatten block) (mean (flatten block)) in
   let errors :=
     Compress.errors_all tb (Compress.numerator tb t') (Compress.energy t') in
   let e := Compress.fit source_config tb block in
   length errors = 8 /\
   (forall v, v < 8 -> (nth v errors 0 == 0)%Q) /\
   argmin errors = 0 /\
   domain e = 0%Z /\ sym e = 0%Z /\
   contrast e = 0%Q /\ (offset e == 200)%Q) /\
  entry_eq (nth 2 (Compress.main config16 two_tone) no_entry)
           (mk_entry 0 0 0 200) /\
  (forall (cfg : Config) (tb : Compress.table) (block : ndarray) (v : nat),
     let t' := Compress.centered (flatten block) (mean (flatten block)) in
     let errors :=
       Compress.errors_all tb (Compress.numerator tb t') (Compress.energy t') in
     let e := Compress.fit cfg tb block in
     v < length errors ->
     (nth v errors 0 == nth (argmin errors) errors 0)%Q ->
     argmin errors <= v /\
     domain e = Z.of_nat (argmin errors / SYMMETRY_COUNT cfg) /\
     sym e = Z.of_nat (argmin errors mod SYMMETRY_COUNT cfg)).
Proof.
  split; [|split].
  - cbv zeta. split; [reflexivity|]. split.
    + intros v Hv.
      do 8 (destruct v as [|v]; [vm_compute; reflexivity|]). lia.
    + repeat split; vm_compute; reflexivity.
  - unfold entry_eq. repeat split; vm_compute; reflexivity.
  - intros cfg tb block v t' errors e Hv Heq.
    split; [apply argmin_lowest_tie; assumption|].
    split; reflexivity.
Qed.

(** ** Contraction of the decoder map *)

Section Contraction.
Variable delta : Q.

Lemma close_flip0 (n : nat) (A B : ndarray) :
  close delta n A B -> close delta n (flip0 A) (flip0 B).
Proof.
  intros ([A0 A1] & [B0 B1] & H).
  split; [split; assumption|]. split; [split; assumption|].
  intros i j Hi Hj. simpl. rewrite A0, B0. apply H; lia.
Qed.

Lemma close_flip1 (n : nat) (A B : ndarray) :
  close delta n A B -> close delta n (flip1 A) (flip1 B).
Proof.
  intros ([A0 A1] & [B0 B1] & H).
  split; [split; assumption|]. split; [split; assumption|].
  intros i j Hi Hj. simpl. rewrite A1, B1. apply H; lia.
Qed.

Lemma close_transpose (n : nat) (A B : ndarray) :
  close delta n A B -> close delta n (transpose A) (transpose B).
Proof.
  intros ([A0 A1] & [B0 B1] & H).
  split; [split; assumption|]. split; [split; assumption|].
  intros i j Hi Hj. simpl. apply H; lia.
Qed.

Lemma close_transform (n : nat) (A B : ndarray) (s : Z) :
  close delta n A B ->
  close delta n (Compress.transform A s) (Compress.transform B s).
Proof.
  apply (transform_preserves2 (close delta n));
    auto using close_flip0, close_flip1, close_transpose.
Qed.

Lemma close_downscale (m : nat) (A B : ndarray) :
  close delta (2 * m) A B ->
  close delta m (Compress.downscale A) (Compress.downscale B).
Proof.
  intros (HA & HB & H).
  split; [apply downscale_square; exact HA|].
  split; [apply downscale_square; exact HB|].
  intros i j Hi Hj. rewrite !downscale_cell.
  pose proof (H (2 * i) (2 * j) ltac:(lia) ltac:(lia)) as H1.
  pose proof (H (2 * i) (1 + 2 * j) ltac:(lia) ltac:(lia)) as H2.
  pose proof (H (1 + 2 * i) (2 * j) ltac:(lia) ltac:(lia)) as H3.
  pose proof (H (1 + 2 * i) (1 + 2 * j) ltac:(lia) ltac:(lia)) as H4.
  apply Qabs_Qle_condition in H1, H2, H3, H4.
  apply Qabs_Qle_condition. lra.
Qed.

Lemma close_block_at (n size y x : nat) (A B : ndarray) :
  close delta n A B -> y + size <= n -> x + size <= n ->
  close delta size (Compress.block_at A size y x)
                   (Compress.block_at B size y x).
Proof.
  intros (HA & HB & H) Hy Hx.
  split; [apply block_at_square with (n := n); assumption|].
  split; [apply block_at_square with (n := n); assumption|].
  intros i j Hi Hj.
  destruct HA as [A0 A1]. destruct HB as [B0 B1].
  rewrite !block_at_cell by lia. apply H; lia.
Qed.

End Contraction.

Section ContractionDecoder.
Variable cfg : Config.
Hypothesis Hcfg : config_ok cfg.
Variable pairs : list entry.
Hypothesis Hbook : codebook_ok cfg pairs.
Variable s : Q.
Hypothesis Hs : contrast_bounded s pairs.

Local Abbreviation N := (IMAGE_SIZE cfg).
Local Abbreviation r := (RANGE_SIZE cfg).
Local Abbreviation d := (DOMAIN_SIZE cfg).
Local Abbreviation p := (Decompress.domain_blocks_per_side cfg).

Lemma affine_close (c o x y delta : Q) :
  (Qabs c <= s)%Q -> (Qabs (x - y) <= delta)%Q ->
  (Qabs ((c * x + o) - (c * y + o)) <= s * delta)%Q.
Proof.
  intros Hc Hxy.
  assert (E : ((c * x + o) - (c * y + o) == c * (x - y))%Q) by ring.
  rewrite E, Qabs_Qmult.
  apply Qmult_le_compat_nonneg; split;
    auto using Qabs_nonneg.
Qed.

Lemma mapped_block_close (delta : Q) (A B : ndarray) (e : entry) :
  close delta N A B -> domain_ok cfg e -> (Qabs (contrast e) <= s)%Q ->
  close (s * delta) r (Decompress.mapped_block cfg A e)
                      (Decompress.mapped_block cfg B e).
Proof.
  intros HAB He Hc.
  pose proof HAB as (HA & HB & _).
  split; [apply mapped_block_square; assumption|].
  split; [apply mapped_block_square; assumption|].
  intros i j Hi Hj. unfold Decompress.mapped_block.
  rewrite !(decoder_domain_block _ He).
  set (n := Z.to_nat (domain e)).
  assert (Hn : n < p * p) by (unfold domain_ok in He; unfold n; lia).
  destruct (domain_block_inside Hcfg Hn) as [Hy Hx].
  pose proof (close_block_at _ _ _ HAB Hy Hx) as Hblk.
  assert (Hd : d = 2 * r) by (destruct Hcfg as (_ & Hd & _); exact Hd).
  assert (Hblk' : close delta (2 * r)
                    (Compress.block_at A d (n / p * d) (n mod p * d))
                    (Compress.block_at B d (n / p * d) (n mod p * d)))
    by (rewrite <- Hd; exact Hblk).
  apply (close_transform (sym e)) in Hblk'.
  apply close_downscale in Hblk'.
  destruct Hblk' as (_ & _ & Hcells).
  unfold add_scalar, scalar_mul. cbn [cell].
  apply affine_close; [exact Hc|].
  apply (Hcells i j Hi Hj).
Qed.

(** One iteration shrinks the distance of two estimates by the factor
    [s]. *)
Lemma iterate_close (delta : Q) (A B : ndarray)
    (uA uB : nat -> nat -> Q) :
  close delta N A B ->
  exists A' B',
    Decompress.iterate cfg A pairs uA = Returned A' /\
    Decompress.iterate cfg B pairs uB = Returned B' /\
    close (s * delta) N A' B'.
Proof.
  intros HAB. pose proof HAB as (HA & HB & _).
  destruct (iterate_pixels Hcfg uA HA Hbook) as (A' & HrunA & HsqA & HcA).
  destruct (iterate_pixels Hcfg uB HB Hbook) as (B' & HrunB & HsqB & HcB).
  exists A', B'. split; [exact HrunA|]. split; [exact HrunB|].
  split; [exact HsqA|]. split; [exact HsqB|].
  intros i j Hi Hj. rewrite (HcA i j Hi Hj), (HcB i j Hi Hj).
  pose proof (pixel_block_lt Hcfg Hi Hj) as Hb.
  destruct Hbook as [Hlen Hok]. rewrite <- Hlen in Hb.
  set (e := nth (block_of cfg i j) pairs no_entry).
  assert (Hin : In e pairs) by (apply nth_In; exact Hb).
  assert (He : domain_ok cfg e)
    by (apply (proj1 (Forall_forall _ _) Hok); exact Hin).
  assert (Hc : (Qabs (contrast e) <= s)%Q)
    by (apply (proj1 (Forall_forall _ _) Hs e); exact Hin).
  destruct (mapped_block_close HAB He Hc) as (_ & _ & Hcells).
  pose proof (config_r_pos Hcfg) as Hr.
  apply Hcells; apply Nat.mod_upper_bound; lia.
Qed.

Lemma iterations_close (count : nat) :
  forall (k : nat) (delta : Q) (A B : ndarray)
         (uA uB : nat -> nat -> nat -> Q),
    close delta N A B ->
    exists A' B',
      Decompress.iterations cfg count k A pairs uA = Returned A' /\
      Decompress.iterations cfg count k B pairs uB = Returned B' /\
      close (qpow s count * delta) N A' B'.
Proof.
  induction count as [|c IH]; intros k delta A B uA uB HAB.
  - exists A, B. split; [reflexivity|]. split; [reflexivity|].
    destruct HAB as (HA & HB & H).
    split; [exact HA|]. split; [exact HB|].
    intros i j Hi Hj. simpl. rewrite Qmult_1_l. apply H; assumption.
  - destruct (iterate_close (uA k) (uB k) HAB) as (A1 & B1 & HrA & HrB & H1).
    destruct (IH (S k) _ A1 B1 uA uB H1) as (A' & B' & HA' & HB' & H').
    exists A', B'.
    split; [simpl; rewrite HrA; exact HA'|].
    split; [simpl; rewrite HrB; exact HB'|].
    destruct H' as (HsA & HsB & H).
    split; [exact HsA|]. split; [exact HsB|].
    intros i j Hi Hj.
    assert (E : (qpow s (S c) * delta == qpow s c * (s * delta))%Q)
      by (simpl; ring).
    rewrite E. apply H; assumption.
Qed.

End ContractionDecoder.

Lemma qpow_nonneg (s : Q) (k : nat) : (0 <= s)%Q -> (0 <= qpow s k)%Q.
Proof.
  intros Hs. induction k as [|k IH]; simpl.
  - discriminate.
  - apply Qmult_le_0_compat; assumption.
Qed.

Lemma qpow_le (s t : Q) (k : nat) :
  (0 <= s)%Q -> (s <= t)%Q -> (qpow s k <= qpow t k)%Q.
Proof.
  intros Hs Hst. induction k as [|k IH]; simpl.
  - apply Qle_refl.
  - apply Qmult_le_compat_nonneg; split;
      auto using qpow_nonneg.
Qed.

(** C6 (amended): for a codebook of [R] valid records whose contrasts are
    all at most [s] in absolute value, decoding from two [N x N] seeds that
    differ by at most [delta] per pixel returns, after [count] iterations,
    two estimates that differ by at most [s^count * delta] per pixel; with
    [s <= 1/2], seeds within 255 of each other (such as all-zero and
    all-255) and 8 iterations the difference is below 1 everywhere. *)
Theorem contractive_codebook_seed_independent (cfg : Config)
    (pairs : list entry) (s delta : Q) (seedA seedB : ndarray)
    (uA uB : nat -> nat -> nat -> Q) (count : nat) :
  let N := IMAGE_SIZE cfg in
  config_ok cfg -> codebook_ok cfg pairs -> contrast_bounded s pairs ->
  close delta N seedA seedB ->
  exists a b,
    Decompress.iterations cfg count 0 seedA pairs uA = Returned a /\
    Decompress.iterations cfg count 0 seedB pairs uB = Returned b /\
    close (qpow s count * delta) N a b /\
    ((s <= 1 # 2)%Q -> (delta <= 255)%Q -> count = 8 ->
     forall i j, i < N -> j < N -> (Qabs (cell a i j - cell b i j) < 1)%Q).
Proof.
  intros N Hcfg Hbook Hs Hseeds.
  destruct (iterations_close Hcfg Hbook Hs count 0 uA uB Hseeds)
    as (a & b & Ha & Hb & Hclose).
  exists a, b. split; [exact Ha|]. split; [exact Hb|]. split; [exact Hclose|].
  intros Hhalf Hdelta -> i j Hi Hj.
  destruct Hclose as (_ & _ & Hcells).
  eapply Qle_lt_trans; [apply Hcells; assumption|].
  assert (Hs0 : (0 <= s)%Q).
  { destruct Hbook as [Hlen _].
    pose proof (rbps_pos Hcfg) as Hq.
    destruct pairs as [|e rest].
    - simpl in Hlen.
      assert (0 < Decompress.range_blocks_per_side cfg *
                  Decompress.range_blocks_per_side cfg)
        by (apply Nat.mul_pos_pos; assumption).
      lia.
    - inversion Hs as [|? ? He _]; subst.
      eapply Qle_trans; [apply Qabs_nonneg | exact He]. }
  assert (Hd0 : (0 <= delta)%Q).
  { destruct Hseeds as (_ & _ & H0).
    eapply Qle_trans; [apply Qabs_nonneg | apply (H0 i j Hi Hj)]. }
  apply Qle_lt_trans with (y := (qpow (1 # 2) 8 * 255)%Q).
  - apply Qmult_le_compat_nonneg; split;
      auto using qpow_nonneg, qpow_le.
  - reflexivity.
Qed.

(** ** Codebooks that keep constant images *)

Section ConstantOrbit.
Variable cfg : Config.
Hypothesis Hcfg : config_ok cfg.
Variable pairs : list entry.
Hypothesis Hbook : codebook_ok cfg pairs.
Hypothesis Hcopy :
  Forall (fun e => (contrast e == 1)%Q /\ (offset e == 0)%Q) pairs.
Variable c : Q.

Local Abbreviation N := (IMAGE_SIZE cfg).
Local Abbreviation r := (RANGE_SIZE cfg).

Lemma mapped_block_constant (e : entry) (i j : nat) :
  cell (Decompress.mapped_block cfg (const_tile N c) e) i j =
  (contrast e * ((c + c + c + c) * (1 # 4)) + offset e)%Q.
Proof.
  unfold Decompress.mapped_block, add_scalar, scalar_mul. cbn [cell].
  change (Decompress.downscale ?X) with (Compress.downscale X).
  change (Decompress.transform ?X ?k) with (Compress.transform X k).
  rewrite downscale_cell.
  assert (H : forall a b,
             cell (Compress.transform
                     (getitem (const_tile N c)
                        (Decompress.dy cfg (domain e))
                        (Decompress.dy cfg (domain e) + Z.of_nat (DOMAIN_SIZE cfg))
                        (Decompress.dx cfg (domain e))
                        (Decompress.dx cfg (domain e) + Z.of_nat (DOMAIN_SIZE cfg)))
                     (sym e)) a b = c).
  { apply (transform_preserves (fun X => forall a b, cell X a b = c));
      intros; cbn [cell flip0 flip1 transpose getitem const_tile]; auto. }
  rewrite !H. reflexivity.
Qed.

Lemma iterate_constant (X : ndarray) (u : nat -> nat -> Q) :
  close 0 N X (const_tile N c) ->
  exists X',
    Decompress.iterate cfg X pairs u = Returned X' /\
    close 0 N X' (const_tile N c).
Proof.
  intros HX. pose proof HX as (HsqX & Hsqc & _).
  destruct (iterate_pixels Hcfg u HsqX Hbook) as (X' & Hrun & Hsq & Hcells).
  exists X'. split; [exact Hrun|].
  split; [exact Hsq|]. split; [exact Hsqc|].
  intros i j Hi Hj. rewrite (Hcells i j Hi Hj).
  pose proof (pixel_block_lt Hcfg Hi Hj) as Hb.
  destruct Hbook as [Hlen Hok]. rewrite <- Hlen in Hb.
  set (e := nth (block_of cfg i j) pairs no_entry).
  assert (Hin : In e pairs) by (apply nth_In; exact Hb).
  assert (He : domain_ok cfg e)
    by (apply (proj1 (Forall_forall _ _) Hok); exact Hin).
  destruct (proj1 (Forall_forall _ _) Hcopy e Hin) as [Hc Ho].
  pose proof (config_r_pos Hcfg) as Hr.
  assert (Hle : (Qabs (contrast e) <= Qabs (contrast e))%Q)
    by apply Qle_refl.
  destruct (@mapped_block_close cfg Hcfg (Qabs (contrast e)) 0 X
              (const_tile N c) e HX He Hle)
    as (_ & _ & Hclose).
  specialize (Hclose (i mod r) (j mod r)
                (Nat.mod_upper_bound i r ltac:(lia))
                (Nat.mod_upper_bound j r ltac:(lia))).
  rewrite mapped_block_constant in Hclose.
  rewrite Qmult_0_r in Hclose.
  apply Qabs_Qle_condition in Hclose.
  apply Qabs_Qle_condition. cbn [cell const_tile].
  rewrite Hc, Ho in Hclose. lra.
Qed.

Lemma iterations_constant (u : nat -> nat -> nat -> Q) (count : nat) :
  forall (k : nat) (X : ndarray),
    close 0 N X (const_tile N c) ->
    exists X',
      Decompress.iterations cfg count k X pairs u = Returned X' /\
      close 0 N X' (const_tile N c).
Proof.
  induction count as [|n IH]; intros k X HX.
  - exists X. split; [reflexivity|exact HX].
  - destruct (iterate_constant (u k) HX) as (X1 & Hrun & H1).
    destruct (IH (S k) X1 H1) as (X' & Hrest & H').
    exists X'. split; [simpl; rewrite Hrun; exact Hrest|exact H'].
Qed.

End ConstantOrbit.

Lemma copy_book_ok : codebook_ok source_config copy_book.
Proof.
  split.
  - unfold copy_book. rewrite repeat_length. reflexivity.
  - apply Forall_forall. intros e He. apply repeat_spec in He. subst e.
    unfold domain_ok. vm_compute. split; [discriminate|reflexivity].
Qed.

Lemma copy_book_copies :
  Forall (fun e => (contrast e == 1)%Q /\ (offset e == 0)%Q) copy_book.
Proof.
  apply Forall_forall. intros e He. apply repeat_spec in He. subst e.
  split; reflexivity.
Qed.

Lemma const_tile_close (n : nat) (c : Q) :
  close 0 n (const_tile n c) (const_tile n c).
Proof.
  split; [split; reflexivity|]. split; [split; reflexivity|].
  intros i j _ _. cbn [cell const_tile].
  apply Qabs_Qle_condition. lra.
Qed.

(** C6 (as stated, refuted): the image [bright_corner] is encoded to a
    codebook of four valid records, one of contrast 4; decoding it for 8
    iterations from the all-zero and from the all-255 seed gives two
    estimates whose first pixels differ by 16320.  With the constants of
    the source, the codebook of 16384 valid records of contrast 1 and
    offset 0 keeps both seeds: after 8 iterations the estimates still
    differ by 255. *)
Lemma seeds_do_not_converge :
  (let run := fun seed =>
     Decompress.iterations config8 8 0 seed bright_corner_book
                           (fun _ _ _ => 0%Q) in
   Forall2 entry_eq (Compress.main config8 bright_corner) bright_corner_book /\
   codebook_ok config8 bright_corner_book /\
   match run (const_tile 8 0), run (const_tile 8 255) with
   | Returned a, Returned b =>
       Qred (cell b 0 0 - cell a 0 0) = 16320%Q /\
       ~ (Qabs (cell b 0 0 - cell a 0 0) < 1)%Q
   | _, _ => False
   end) /\
  (let run := fun seed =>
     Decompress.iterations source_config 8 0 seed copy_book
                           (fun _ _ _ => 0%Q) in
   codebook_ok source_config copy_book /\
   exists a b,
     run (const_tile 512 0) = Returned a /\
     run (const_tile 512 255) = Returned b /\
     (cell b 0 0 - cell a 0 0 == 255)%Q /\
     ~ (Qabs (cell b 0 0 - cell a 0 0) < 1)%Q).
Proof.
  cbv zeta. split; [split; [|split]|split].
  - vm_compute.
    repeat (constructor; [repeat split; reflexivity|]). constructor.
  - split; [reflexivity|].
    repeat (constructor; [vm_compute; split; [discriminate|reflexivity]|]).
    constructor.
  - vm_compute. split; [reflexivity|discriminate].
  - exact copy_book_ok.
  - destruct (iterations_constant source_config_ok copy_book_ok
                copy_book_copies (fun _ _ _ => 0%Q) 8 0
                (const_tile_close 512 0))
      as (a & Ha & _ & _ & Hca).
    destruct (iterations_constant source_config_ok copy_book_ok
                copy_book_copies (fun _ _ _ => 0%Q) 8 0
                (const_tile_close 512 255))
      as (b & Hb & _ & _ & Hcb).
    exists a, b. split; [exact Ha|]. split; [exact Hb|].
    specialize (Hca 0 0 ltac:(simpl; lia) ltac:(simpl; lia)).
    specialize (Hcb 0 0 ltac:(simpl; lia) ltac:(simpl; lia)).
    cbn [cell const_tile] in Hca, Hcb.
    apply Qabs_Qle_condition in Hca, Hcb.
    assert (E : (cell b 0 0 - cell a 0 0 == 255)%Q) by lra.
    split; [exact E|].
    rewrite E. vm_compute. discriminate.
Qed.

(** ** Sums over the cells of an array *)

Lemma sum_app (l1 l2 : list Q) : (sum (l1 ++ l2) == sum l1 + sum l2)%Q.
Proof.
  induction l1 as [|x t IH]; simpl; [ring|]. rewrite IH. ring.
Qed.

Lemma sum_n_S (n : nat) (f : nat -> Q) : (sum_n (S n) f == sum_n n f + f n)%Q.
Proof.
  unfold sum_n. rewrite seq_S, map_app, sum_app. simpl. ring.
Qed.

Lemma sum_n_first (n : nat) (f : nat -> Q) :
  (sum_n (S n) f == f 0%nat + sum_n n (fun i => f (S i)))%Q.
Proof.
  unfold sum_n. simpl. rewrite <- seq_shift, map_map. reflexivity.
Qed.

Lemma sum_n_ext (n : nat) (f g : nat -> Q) :
  (forall i, i < n -> (f i == g i)%Q) -> (sum_n n f == sum_n n g)%Q.
Proof.
  induction n as [|n IH]; intros H; [reflexivity|].
  rewrite !sum_n_S, IH, (H n) by auto with arith. reflexivity.
Qed.

Lemma sum_n_zero (n : nat) : (sum_n n (fun _ => 0) == 0)%Q.
Proof.
  induction n as [|n IH]; [reflexivity|]. rewrite sum_n_S, IH. ring.
Qed.

Lemma sum_n_plus (n : nat) (f g : nat -> Q) :
  (sum_n n (fun i => f i + g i) == sum_n n f + sum_n n g)%Q.
Proof.
  induction n as [|n IH]; [unfold sum_n; simpl; ring|].
  rewrite !sum_n_S, IH. ring.
Qed.

Lemma sum_n_scale (n : nat) (f : nat -> Q) (c : Q) :
  (sum_n n (fun i => f i * c) == sum_n n f * c)%Q.
Proof.
  induction n as [|n IH]; [unfold sum_n; simpl; ring|].
  rewrite !sum_n_S, IH. ring.
Qed.

Lemma sum_n_rev (n : nat) :
  forall f : nat -> Q, (sum_n n (fun i => f (n - 1 - i)%nat) == sum_n n f)%Q.
Proof.
  induction n as [|n IH]; intros f; [reflexivity|].
  rewrite sum_n_S, sum_n_first.
  replace (S n - 1 - n) with 0 by lia.
  rewrite <- (IH (fun i => f (S i))).
  rewrite (sum_n_ext (fun i => f (S n - 1 - i))
                     (fun i => f (S (n - 1 - i)))).
  - ring.
  - intros i Hi. replace (S n - 1 - i) with (S (n - 1 - i)) by lia.
    reflexivity.
Qed.

Lemma sum_n_exchange (h w : nat) (f : nat -> nat -> Q) :
  (sum_n h (fun i => sum_n w (fun j => f i j)) ==
   sum_n w (fun j => sum_n h (fun i => f i j)))%Q.
Proof.
  induction h as [|h IH].
  - unfold sum_n at 1. simpl. symmetry. apply sum_n_zero.
  - rewrite sum_n_S, IH, <- sum_n_plus.
    apply sum_n_ext. intros j _. rewrite sum_n_S. reflexivity.
Qed.

Lemma sum_n_even (m : nat) (f : nat -> Q) :
  (sum_n (2 * m) f ==
   sum_n m (fun i => f (2 * i)%nat + f (1 + 2 * i)%nat))%Q.
Proof.
  induction m as [|m IH]; [reflexivity|].
  replace (2 * S m) with (S (S (2 * m))) by lia.
  rewrite !sum_n_S, IH.
  replace (1 + 2 * m) with (S (2 * m)) by lia. ring.
Qed.

Lemma sum_flat_map {A : Type} (g : A -> list Q) (l : list A) :
  (sum (flat_map g l) == sum (map (fun x => sum (g x)) l))%Q.
Proof.
  induction l as [|x t IH]; simpl; [reflexivity|].
  rewrite sum_app, IH. reflexivity.
Qed.

Lemma total_sum_n (A : ndarray) :
  (total A ==
   sum_n (shape0 A) (fun i => sum_n (shape1 A) (fun j => cell A i j)))%Q.
Proof. unfold total, flatten. apply sum_flat_map. Qed.

Lemma total_flip0 (A : ndarray) : (total (flip0 A) == total A)%Q.
Proof.
  rewrite !total_sum_n. simpl.
  apply (sum_n_rev (shape0 A)
           (fun i => sum_n (shape1 A) (fun j => cell A i j))).
Qed.

Lemma total_flip1 (A : ndarray) : (total (flip1 A) == total A)%Q.
Proof.
  rewrite !total_sum_n. simpl.
  apply sum_n_ext. intros i _.
  apply (sum_n_rev (shape1 A) (fun j => cell A i j)).
Qed.

Lemma total_transpose (A : ndarray) : (total (transpose A) == total A)%Q.
Proof. rewrite !total_sum_n. simpl. apply sum_n_exchange. Qed.

(** The isometries permute the cells: the sum of all cells is kept. *)
Lemma total_transform (A : ndarray) (s : Z) :
  (total (Compress.transform A s) == total A)%Q.
Proof.
  apply (transform_preserves (fun B => (total B == total A)%Q)).
  - intros B H. rewrite total_flip0. exact H.
  - intros B H. rewrite total_flip1. exact H.
  - intros B H. rewrite total_transpose. exact H.
  - reflexivity.
Qed.

(** The box filter averages disjoint 2 x 2 groups: the sum of all cells is
    divided by four. *)
Lemma total_downscale (A : ndarray) (m0 m1 : nat) :
  shape0 A = 2 * m0 -> shape1 A = 2 * m1 ->
  (total (Compress.downscale A) == total A * (1 # 4))%Q.
Proof.
  intros H0 H1. rewrite !total_sum_n.
  rewrite (downscale_shape0 A _ H0), (downscale_shape1 A _ H1), H0, H1.
  rewrite sum_n_even, <- sum_n_scale.
  apply sum_n_ext. intros i _.
  rewrite !sum_n_even, <- sum_n_plus, <- sum_n_scale.
  apply sum_n_ext. intros j _.
  rewrite downscale_cell. ring.
Qed.

Lemma total_ext (A B : ndarray) :
  shape0 A = shape0 B -> shape1 A = shape1 B ->
  (forall i j, i < shape0 A -> j < shape1 A -> (cell A i j == cell B i j)%Q) ->
  (total A == total B)%Q.
Proof.
  intros H0 H1 H. rewrite !total_sum_n, <- H0, <- H1.
  apply sum_n_ext. intros i Hi. apply sum_n_ext. intros j Hj.
  apply H; assumption.
Qed.

Lemma flatten_map_cells (g : Q -> Q) (A : ndarray) :
  flatten (map_cells g A) = map g (flatten A).
Proof.
  unfold flatten. simpl.
  induction (seq 0 (shape0 A)) as [|i t IH]; simpl; [reflexivity|].
  rewrite map_app, map_map, IH. reflexivity.
Qed.

Lemma transform_map_cells (g : Q -> Q) (A : ndarray) (s : Z) :
  Compress.transform (map_cells g A) s = map_cells g (Compress.transform A s).
Proof.
  apply (transform_preserves2 (fun X Y => X = map_cells g Y));
    try reflexivity; intros X Y ->; reflexivity.
Qed.

(** ** Mean and energy of the variants of a tile *)

Lemma mean_total (A : ndarray) :
  mean (flatten A) =
  (total A / inject_Z (Z.of_nat (shape0 A * shape1 A)))%Q.
Proof. unfold mean. rewrite flatten_length. reflexivity. Qed.

Lemma mean_downscale (m : nat) (A : ndarray) :
  0 < m -> square (2 * m) A ->
  (mean (flatten (Compress.downscale A)) == mean (flatten A))%Q.
Proof.
  intros Hm HA. pose proof HA as [H0 H1].
  destruct (downscale_square m HA) as [D0 D1].
  rewrite !mean_total, D0, D1, H0, H1.
  rewrite (total_downscale A _ _ H0 H1).
  replace (2 * m * (2 * m)) with (4 * (m * m)) by lia.
  rewrite !Nat2Z.inj_mul, !inject_Z_mult.
  change (inject_Z (Z.of_nat 4)) with 4%Q.
  field. intros H. unfold Qeq in H. simpl in H. lia.
Qed.

Lemma mean_transform (n : nat) (A : ndarray) (s : Z) :
  square n A ->
  (mean (flatten (Compress.transform A s)) == mean (flatten A))%Q.
Proof.
  intros HA. pose proof HA as [H0 H1].
  destruct (transform_square s HA) as [T0 T1].
  rewrite !mean_total, T0, T1, H0, H1, total_transform. reflexivity.
Qed.

Lemma mean_variant (m : nat) (A : ndarray) (s : Z) :
  0 < m -> square (2 * m) A ->
  (mean (flatten (Compress.downscale (Compress.transform A s))) ==
   mean (flatten A))%Q.
Proof.
  intros Hm HA.
  rewrite (mean_downscale Hm (transform_square s HA)).
  apply mean_transform with (n := 2 * m). exact HA.
Qed.

(** Downsampling commutes with the isometries of an even-sided square: the
    2 x 2 groups are moved as wholes. *)
Lemma downscale_transform_commute (m : nat) (A : ndarray) (s : Z) :
  square (2 * m) A ->
  forall i j, i < m -> j < m ->
    (cell (Compress.downscale (Compress.transform A s)) i j ==
     cell (Compress.transform (Compress.downscale A) s) i j)%Q.
Proof.
  intros HA.
  set (R := fun X Y : ndarray =>
              square (2 * m) X /\ square m Y /\
              forall i j, i < m -> j < m ->
                (cell (Compress.downscale X) i j == cell Y i j)%Q).
  assert (HR : R (Compress.transform A s)
                 (Compress.transform (Compress.downscale A) s)).
  { apply (transform_preserves2 R).
    - intros X Y ([X0 X1] & [Y0 Y1] & H).
      split; [split; assumption|]. split; [split; assumption|].
      intros i j Hi Hj. rewrite downscale_cell. cbn [cell flip0].
      rewrite X0, Y0, <- (H (m - 1 - i) j) by lia.
      rewrite downscale_cell.
      replace (2 * m - 1 - 2 * i) with (1 + 2 * (m - 1 - i)) by lia.
      replace (2 * m - 1 - (1 + 2 * i)) with (2 * (m - 1 - i)) by lia.
      ring.
    - intros X Y ([X0 X1] & [Y0 Y1] & H).
      split; [split; assumption|]. split; [split; assumption|].
      intros i j Hi Hj. rewrite downscale_cell. cbn [cell flip1].
      rewrite X1, Y1, <- (H i (m - 1 - j)) by lia.
      rewrite downscale_cell.
      replace (2 * m - 1 - 2 * j) with (1 + 2 * (m - 1 - j)) by lia.
      replace (2 * m - 1 - (1 + 2 * j)) with (2 * (m - 1 - j)) by lia.
      ring.
    - intros X Y ([X0 X1] & [Y0 Y1] & H).
      split; [split; assumption|]. split; [split; assumption|].
      intros i j Hi Hj. rewrite downscale_cell. cbn [cell transpose].
      rewrite <- (H j i) by lia.
      rewrite downscale_cell. ring.
    - split; [exact HA|]. split; [apply downscale_square; exact HA|].
      intros i j _ _. reflexivity. }
  apply HR.
Qed.

Lemma E_of_flatten (B : ndarray) :
  E_of (flatten B) =
  total (map_cells (fun x => (x - mean (flatten B)) * (x - mean (flatten B)))%Q
                   B).
Proof.
  unfold E_of, Compress.energy, Compress.centered, total.
  rewrite map_map, flatten_map_cells. reflexivity.
Qed.

Lemma energy_variant (m : nat) (A : ndarray) (s : Z) :
  0 < m -> square (2 * m) A ->
  (E_of (flatten (Compress.downscale (Compress.transform A s))) ==
   E_of (flatten (Compress.downscale A)))%Q.
Proof.
  intros Hm HA.
  set (mu := mean (flatten (Compress.downscale A))).
  set (g := fun x : Q => ((x - mu) * (x - mu))%Q).
  assert (Hmu : (mean (flatten (Compress.downscale (Compress.transform A s)))
                 == mu)%Q).
  { unfold mu. rewrite (mean_variant s Hm HA), (mean_downscale Hm HA).
    reflexivity. }
  destruct (downscale_square m (transform_square s HA)) as [V0 V1].
  destruct (transform_square s (downscale_square m HA)) as [W0 W1].
  rewrite !E_of_flatten. fold mu. fold g.
  transitivity (total (map_cells g (Compress.transform
                                      (Compress.downscale A) s))).
  - apply total_ext.
    + cbn [shape0 map_cells]. congruence.
    + cbn [shape1 map_cells]. congruence.
    + cbn [shape0 shape1 cell map_cells]. intros i j Hi Hj.
      rewrite V0 in Hi. rewrite V1 in Hj.
      rewrite (downscale_transform_commute s HA Hi Hj), Hmu.
      reflexivity.
  - rewrite <- transform_map_cells. apply total_transform.
Qed.

(** C10: for a square tile of even side and every symmetry id in [0, 8),
    the mean of the downsampled transformed tile is the mean of the tile;
    hence the eight variants of a domain block share one mean, and they
    share one centered energy, that of the downsampled block. *)
Theorem variants_share_mean (tile : ndarray) (n : nat) (s : Z) :
  square n tile -> Nat.even n = true -> 0 < n -> (0 <= s < 8)%Z ->
  let variant := fun k => flatten (Compress.downscale
                                     (Compress.transform tile k)) in
  (mean (variant s) == mean (flatten tile))%Q /\
  (forall s', (0 <= s' < 8)%Z -> (mean (variant s) == mean (variant s'))%Q) /\
  (E_of (variant s) == E_of (flatten (Compress.downscale tile)))%Q /\
  (forall s', (0 <= s' < 8)%Z -> (E_of (variant s) == E_of (variant s'))%Q).
Proof.
  intros Htile Heven Hn _ variant.
  apply Nat.even_spec in Heven. destruct Heven as [m ->].
  assert (Hm : 0 < m) by lia.
  unfold variant.
  split; [exact (mean_variant s Hm Htile)|].
  split.
  { intros s' _.
    rewrite (mean_variant s Hm Htile), (mean_variant s' Hm Htile).
    reflexivity. }
  split; [exact (energy_variant s Hm Htile)|].
  intros s' _.
  rewrite (energy_variant s Hm Htile), (energy_variant s' Hm Htile).
  reflexivity.
Qed.

(** * Instances on the sample inputs *)

Lemma config8_ok : config_ok config8.
Proof. unfold config_ok. simpl. repeat split; lia. Defined.

Lemma bright_corner_square : square 8 bright_corner.
Proof. split; reflexivity. Defined.

Lemma bright_corner_book_ok : codebook_ok config8 bright_corner_book.
Proof.
  split; [reflexivity|].
  repeat (constructor; [vm_compute; split; [discriminate|reflexivity]|]).
  constructor.
Defined.

(** The fit of the first range block of [bright_corner] against variant 0 of
    its only domain block, whose energy exceeds the threshold. *)
Lemma fit_formulas_witness :
  let blocks := [bright_corner] in
  let vf := Compress.variant_flat config8 blocks in
  let tb := Compress.build_table config8 blocks in
  let block := Compress.block_at bright_corner 4 0 0 in
  let t' := Compress.centered (flatten block) (mean (flatten block)) in
  0 < length vf /\
  (Compress.eps < E_of (nth 0 vf []))%Q /\
  nth 0 (Compress.contrast_all tb (Compress.numerator tb t')) 0%Q =
  (C_of t' (nth 0 vf []) / E_of (nth 0 vf []))%Q.
Proof.
  intros blocks vf tb block t'.
  assert (Hv : 0 < length vf) by (vm_compute; lia).
  assert (HE : (Compress.eps < E_of (nth 0 vf []))%Q)
    by (vm_compute; reflexivity).
  split; [exact Hv|]. split; [exact HE|].
  exact (proj1 (proj1 (proj2 (@fit_formulas config8 blocks block 0 Hv)) HE)).
Defined.

Lemma iterate_maps_blocks_witness :
  config_ok config8 /\ square 8 bright_corner /\
  codebook_ok config8 bright_corner_book /\
  exists image',
    Decompress.iterate config8 bright_corner bright_corner_book
                       (fun _ _ => 0%Q) = Returned image' /\
    square 8 image'.
Proof.
  split; [exact config8_ok|]. split; [exact bright_corner_square|].
  split; [exact bright_corner_book_ok|].
  destruct (@iterate_maps_blocks config8 bright_corner bright_corner_book
              (fun _ _ => 0%Q) config8_ok bright_corner_square
              bright_corner_book_ok)
    as (image' & Hrun & Hsq & _).
  exists image'. split; assumption.
Defined.

Lemma best_variant_selected_witness :
  config_ok config8 /\ square 8 bright_corner /\ 0 < 8 / 4 * (8 / 4) /\
  length (Compress.extract_blocks config8 bright_corner 8) = 8 / 8 * (8 / 8).
Proof.
  assert (Hk : 0 < 8 / 4 * (8 / 4)) by (vm_compute; lia).
  split; [exact config8_ok|]. split; [exact bright_corner_square|].
  split; [exact Hk|].
  exact (proj1 (@best_variant_selected config8 bright_corner 0 config8_ok
                  bright_corner_square Hk)).
Defined.

Lemma record_count_unchecked_witness :
  let short := firstn 3 bright_corner_book in
  let long := bright_corner_book ++ [no_entry] in
  let uninit := fun _ _ _ : nat => 0%Q in
  config_ok config8 /\ 2 <= RANGE_SIZE config8 /\ 0 < ITERATIONS config8 /\
  square 8 bright_corner /\
  Forall (domain_ok config8) short /\ Forall (domain_ok config8) long /\
  length short < 4 /\ 4 < length long /\
  Decompress.main config8 long bright_corner uninit = Raised ValueError /\
  exists out,
    Decompress.main config8 short bright_corner uninit = Returned out.
Proof.
  intros short long uninit.
  assert (Hr : 2 <= RANGE_SIZE config8) by (simpl; lia).
  assert (Hit : 0 < ITERATIONS config8) by (simpl; lia).
  assert (Hshort : Forall (domain_ok config8) short).
  { repeat (constructor; [vm_compute; split; [discriminate|reflexivity]|]).
    constructor. }
  assert (Hlong : Forall (domain_ok config8) long).
  { repeat (constructor; [vm_compute; split; [discriminate|reflexivity]|]).
    constructor. }
  assert (Hs : length short < 4) by (simpl; lia).
  assert (Hl : 4 < length long) by (simpl; lia).
  split; [exact config8_ok|]. split; [exact Hr|]. split; [exact Hit|].
  split; [exact bright_corner_square|].
  split; [exact Hshort|]. split; [exact Hlong|].
  split; [exact Hs|]. split; [exact Hl|].
  split.
  - exact (proj1 (@record_count_unchecked config8 long bright_corner uninit
                    config8_ok Hr Hit
                    bright_corner_square Hlong) Hl).
  - destruct (proj2 (@record_count_unchecked config8 short bright_corner uninit
                       config8_ok Hr Hit
                       bright_corner_square Hshort) Hs)
      as (out & Hrun & _).
    exists out. exact Hrun.
Defined.

Lemma contractive_codebook_seed_independent_witness :
  let uninit := fun _ _ _ : nat => 0%Q in
  config_ok config8 /\ codebook_ok config8 half_book /\
  contrast_bounded (1 # 2) half_book /\
  close 255 8 (const_tile 8 0) (const_tile 8 255) /\
  exists a b,
    Decompress.iterations config8 8 0 (const_tile 8 0) half_book uninit
      = Returned a /\
    Decompress.iterations config8 8 0 (const_tile 8 255) half_book uninit
      = Returned b /\
    forall i j, i < 8 -> j < 8 -> (Qabs (cell a i j - cell b i j) < 1)%Q.
Proof.
  intros uninit.
  assert (Hbook : codebook_ok config8 half_book).
  { split; [reflexivity|].
    repeat (constructor; [vm_compute; split; [discriminate|reflexivity]|]).
    constructor. }
  assert (Hs : contrast_bounded (1 # 2) half_book).
  { repeat (constructor; [vm_compute; discriminate|]). constructor. }
  assert (Hseeds : close 255 8 (const_tile 8 0) (const_tile 8 255)).
  { split; [split; reflexivity|]. split; [split; reflexivity|].
    intros i j _ _. vm_compute. discriminate. }
  split; [exact config8_ok|]. split; [exact Hbook|]. split; [exact Hs|].
  split; [exact Hseeds|].
  destruct (@contractive_codebook_seed_independent config8 half_book
              (1 # 2) 255 (const_tile 8 0) (const_tile 8 255) uninit uninit 8
              config8_ok Hbook Hs Hseeds)
    as (a & b & Ha & Hb & _ & Hlt).
  exists a, b. split; [exact Ha|]. split; [exact Hb|].
  apply Hlt; [apply Qle_refl | apply Qle_refl | reflexivity].
Defined.

Lemma degenerate_block_fit_witness :
  let tb := Compress.build_table source_config [const_tile 8 128] in
  let block := const_tile 4 200 in
  let t' := Compress.centered (flatten block) (mean (flatten block)) in
  let errors :=
    Compress.errors_all tb (Compress.numerator tb t') (Compress.energy t') in
  3 < length errors /\
  (nth 3 errors 0 == nth (argmin errors) errors 0)%Q /\
  argmin errors <= 3.
Proof.
  intros tb block t' errors.
  assert (Hv : 3 < length errors) by (vm_compute; lia).
  assert (Heq : (nth 3 errors 0 == nth (argmin errors) errors 0)%Q)
    by (vm_compute; reflexivity).
  split; [exact Hv|]. split; [exact Heq|].
  exact (proj1 (proj2 (proj2 degenerate_block_fit)
                  source_config tb block 3 Hv Heq)).
Defined.

Lemma emitted_indices_in_bounds_witness :
  let pairs := Compress.main config8 bright_corner in
  config_ok config8 /\ square 8 bright_corner /\
  square 8 (const_tile 8 0) /\ 0 < length pairs /\
  (0 <= sym (nth 0 pairs no_entry) < 8)%Z.
Proof.
  intros pairs.
  assert (Hk : 0 < length pairs) by (vm_compute; lia).
  assert (Hest : square 8 (const_tile 8 0)) by (split; reflexivity).
  split; [exact config8_ok|]. split; [exact bright_corner_square|].
  split; [exact Hest|]. split; [exact Hk|].
  exact (proj1 (proj2 (@emitted_indices_in_bounds config8 bright_corner
                         (const_tile 8 0) (fun _ _ => 0%Q) 0 config8_ok
                         bright_corner_square Hest Hk))).
Defined.

Lemma variants_share_mean_witness :
  square 4 (ramp 4) /\ Nat.even 4 = true /\ 0 < 4 /\ (0 <= 5 < 8)%Z /\
  (mean (flatten (Compress.downscale (Compress.transform (ramp 4) 5))) ==
   mean (flatten (ramp 4)))%Q.
Proof.
  assert (Hsq : square 4 (ramp 4)) by (split; reflexivity).
  assert (Hn : 0 < 4) by lia.
  assert (Hs : (0 <= 5 < 8)%Z) by lia.
  split; [exact Hsq|]. split; [reflexivity|]. split; [exact Hn|].
  split; [exact Hs|].
  exact (proj1 (@variants_share_mean (ramp 4) 4 5 Hsq eq_refl Hn Hs)).
Defined.

(** * Further properties of the code *)

(** ** [extract_blocks] *)

(** X1: when [size] divides [IMAGE_SIZE], [extract_blocks] returns
    [(N/size)^2] tiles of shape [size x size] in raster order, and the tiles
    cover the image exactly once: cell [(y, x)] of tile [t] is the pixel
    [(t / q * size + y, t mod q * size + x)], and a pixel [(i, j)] is that
    cell exactly for [t = i / size * q + j / size], [y = i mod size],
    [x = j mod size]. *)
Theorem extract_blocks_partition (cfg : Config) (image : ndarray)
    (size q : nat) :
  let N := IMAGE_SIZE cfg in
  let blocks := Compress.extract_blocks cfg image size in
  0 < size -> N = q * size -> square N image ->
  length blocks = q * q /\
  (forall t y x, t < q * q -> y < size -> x < size ->
     square size (nth t blocks image) /\
     cell (nth t blocks image) y x =
     cell image (t / q * size + y) (t mod q * size + x)) /\
  (forall i j t y x,
     i < N -> j < N -> t < q * q -> y < size -> x < size ->
     (t / q * size + y = i /\ t mod q * size + x = j <->
      t = i / size * q + j / size /\ y = i mod size /\ x = j mod size)).
Proof.
  intros N blocks Hsize HN Himage. subst N blocks.
  rewrite (extract_blocks_raster cfg image size q HN).
  split; [apply raster_length; exact Hsize|]. split.
  - intros t y x Ht Hy Hx.
    rewrite (@raster_nth_linear _
               (fun y x => Compress.block_at image size y x) q size Hsize
               t image Ht).
    assert (Hq : 0 < q) by (destruct q; simpl in Ht; lia).
    assert (Ht1 : t / q < q) by (apply Nat.Div0.div_lt_upper_bound; lia).
    assert (Ht2 : t mod q < q) by (apply Nat.mod_upper_bound; lia).
    assert (H1 : t / q * size + size <= IMAGE_SIZE cfg) by nia.
    assert (H2 : t mod q * size + size <= IMAGE_SIZE cfg) by nia.
    split.
    + apply block_at_square with (n := IMAGE_SIZE cfg); assumption.
    + destruct Himage as [H0 H1'].
      apply block_at_cell; lia.
  - intros i j t y x Hi Hj Ht Hy Hx.
    assert (Hq : 0 < q) by (destruct q; simpl in Ht; lia).
    assert (Hjq : j / size < q)
      by (apply Nat.Div0.div_lt_upper_bound; lia).
    split.
    + intros [<- <-].
      rewrite !(Nat.add_comm _ y), !(Nat.add_comm _ x).
      rewrite !Nat.div_add, !Nat.Div0.mod_add by lia.
      rewrite (Nat.div_small y size), (Nat.div_small x size),
              (Nat.mod_small y size), (Nat.mod_small x size) by assumption.
      simpl. pose proof (Nat.div_mod_eq t q). lia.
    + intros (-> & -> & ->).
      rewrite div_mul_add, mod_mul_add by exact Hjq.
      pose proof (Nat.div_mod_eq i size). pose proof (Nat.div_mod_eq j size).
      lia.
Qed.

Lemma extract_blocks_partition_witness :
  0 < 4 /\ IMAGE_SIZE config8 = 2 * 4 /\ square 8 bright_corner /\
  length (Compress.extract_blocks config8 bright_corner 4) = 2 * 2.
Proof.
  assert (H4 : 0 < 4) by lia.
  assert (HN : IMAGE_SIZE config8 = 2 * 4) by reflexivity.
  split; [exact H4|]. split; [exact HN|]. split; [exact bright_corner_square|].
  exact (proj1 (@extract_blocks_partition config8 bright_corner 4 2 H4 HN
                  bright_corner_square)).
Defined.

(** ** The eight isometries *)

(** X2: on a square tile every symmetry id in [0, 8) is undone by a
    symmetry id of the same set: applying [transform] with [s] and then with
    [inverse_sym s] gives back a tile of the same shape with the same
    cells. *)
Theorem transform_inverse (A : ndarray) (n : nat) (s : Z) :
  square n A -> (0 <= s < 8)%Z ->
  (0 <= inverse_sym s < 8)%Z /\
  square n (Compress.transform (Compress.transform A s) (inverse_sym s)) /\
  forall i j, i < n -> j < n ->
    cell (Compress.transform (Compress.transform A s) (inverse_sym s)) i j =
    cell A i j.
Proof.
  intros HA Hs.
  split.
  { unfold inverse_sym.
    destruct (s =? 1)%Z; [lia|]. destruct (s =? 3)%Z; lia. }
  split; [apply transform_square, transform_square; exact HA|].
  destruct HA as [H0 H1]. intros i j Hi Hj.
  assert (Hcases : (s = 0 \/ s = 1 \/ s = 2 \/ s = 3 \/
                    s = 4 \/ s = 5 \/ s = 6 \/ s = 7)%Z) by lia.
  destruct Hcases as [-> | [-> | [-> | [-> | [-> | [-> | [-> | ->]]]]]]];
    cbn [inverse_sym Z.eqb Pos.eqb];
    unfold Compress.transform, rot90;
    cbn [Z.modulo Z.div_eucl Z.pos_div_eucl Z.geb Z.compare Pos.compare
         Pos.compare_cont Z.eqb Pos.eqb Z.leb Z.ltb Z.add Z.mul Z.sub
         Z.opp Z.succ_double Z.pred_double Z.double Pos.add Pos.mul
         Pos.succ Z.pos_sub Pos.pred_double fst snd];
    cbn [cell shape0 shape1 flip0 flip1 transpose];
    rewrite ?H0, ?H1; f_equal; lia.
Qed.

Lemma transform_inverse_witness :
  square 4 (ramp 4) /\ (0 <= 5 < 8)%Z /\
  cell (Compress.transform (Compress.transform (ramp 4) 5) (inverse_sym 5))
       1 2 = cell (ramp 4) 1 2.
Proof.
  assert (Hsq : square 4 (ramp 4)) by (split; reflexivity).
  assert (Hs : (0 <= 5 < 8)%Z) by lia.
  split; [exact Hsq|]. split; [exact Hs|].
  apply (proj2 (proj2 (@transform_inverse (ramp 4) 4 5 Hsq Hs))); lia.
Defined.

(** ** The error the encoder records is the squared error of the fit *)

Lemma square_nonneg (x : Q) : (0 <= x * x)%Q.
Proof. nra. Qed.

Lemma residual_nonneg (x t : list Q) (alpha beta : Q) :
  (0 <= residual x t alpha beta)%Q.
Proof.
  unfold residual. induction (combine x t) as [|p l IH]; simpl.
  - apply Qle_refl.
  - set (u := (snd p - (alpha * fst p + beta))%Q).
    assert (Hu : (0 <= u * u)%Q) by nra. lra.
Qed.

(** Expansion of the squared error around arbitrary centres [mx], [mt]. *)
Lemma residual_expand (alpha beta mx mt : Q) (x : list Q) :
  forall t : list Q,
    length x = length t ->
    let g := (mt - alpha * mx - beta)%Q in
    let x' := Compress.centered x mx in
    let t' := Compress.centered t mt in
    (residual x t alpha beta ==
     Compress.energy t' - 2 * alpha * Compress.dot x' t'
     + alpha * alpha * Compress.energy x'
     + 2 * g * (sum t' - alpha * sum x')
     + inject_Z (Z.of_nat (length x)) * (g * g))%Q.
Proof.
  induction x as [|a x IH]; intros [|b t] Hlen; simpl in Hlen; try lia.
  - cbn. ring.
  - specialize (IH t ltac:(lia)). cbv zeta in IH |- *.
    unfold residual, Compress.energy, Compress.dot, Compress.centered in *.
    cbn [map combine sum fst snd length] in *.
    rewrite Nat2Z.inj_succ, <- Z.add_1_r, inject_Z_plus.
    rewrite IH. change (inject_Z 1) with 1%Q. ring.
Qed.

Lemma sum_centered (l : list Q) (m : Q) :
  (sum (Compress.centered l m) ==
   sum l - inject_Z (Z.of_nat (length l)) * m)%Q.
Proof.
  unfold Compress.centered. induction l as [|a l IH].
  - cbn. ring.
  - cbn [map sum length].
    rewrite Nat2Z.inj_succ, <- Z.add_1_r, inject_Z_plus, IH.
    change (inject_Z 1) with 1%Q. ring.
Qed.

Lemma count_nonzero (l : list Q) :
  l <> [] -> ~ (inject_Z (Z.of_nat (length l)) == 0)%Q.
Proof.
  intros Hl H. destruct l as [|a l]; [congruence|].
  unfold Qeq in H. simpl in H. lia.
Qed.

(** Centering by the mean leaves a list that sums to zero. *)
Lemma sum_centered_mean (l : list Q) :
  l <> [] -> (sum (Compress.centered l (mean l)) == 0)%Q.
Proof.
  intros Hl. rewrite sum_centered. unfold mean.
  field. apply count_nonzero. exact Hl.
Qed.

(** With the offset [mt - alpha * mx] the squared error is the quadratic
    [E_t - 2 alpha C + alpha^2 E]. *)
Lemma residual_centered (alpha mx mt : Q) (x t : list Q) :
  length x = length t ->
  (residual x t alpha (mt - alpha * mx) ==
   Compress.energy (Compress.centered t mt)
   - 2 * alpha * Compress.dot (Compress.centered x mx) (Compress.centered t mt)
   + alpha * alpha * Compress.energy (Compress.centered x mx))%Q.
Proof.
  intros Hlen.
  rewrite (residual_expand alpha (mt - alpha * mx) mx mt x t Hlen).
  cbv zeta. ring.
Qed.

Section FitError.
Variable cfg : Config.
Variable domain_blocks : list ndarray.
Variable block : ndarray.

Local Abbreviation vf := (Compress.variant_flat cfg domain_blocks).
Local Abbreviation tb := (Compress.build_table cfg domain_blocks).
Local Abbreviation t := (flatten block).
Local Abbreviation m_t := (mean (flatten block)).
Local Abbreviation t' := (Compress.centered (flatten block) (mean (flatten block))).
Local Abbreviation E_t := (Compress.energy t').
Local Abbreviation num := (Compress.numerator tb t').
Local Abbreviation contrasts := (Compress.contrast_all tb num).
Local Abbreviation errors := (Compress.errors_all tb num E_t).

Lemma contrast_nth (v : nat) :
  v < length vf ->
  nth v contrasts 0%Q =
  (if gtb (E_of (nth v vf [])) Compress.eps
   then C_of t' (nth v vf []) / E_of (nth v vf []) else 0)%Q.
Proof.
  intros Hv. rewrite contrast_all_map.
  rewrite (nth_map_in _ vf [] 0%Q Hv). reflexivity.
Qed.

Lemma error_nth (v : nat) :
  v < length vf ->
  nth v errors 0%Q =
  Qmax (if gtb (E_of (nth v vf [])) Compress.eps
        then (E_t - C_of t' (nth v vf []) * C_of t' (nth v vf [])
                    / E_of (nth v vf []))%Q
        else E_t) 0.
Proof.
  intros Hv. rewrite errors_all_map.
  rewrite (nth_map_in _ vf [] 0%Q Hv). reflexivity.
Qed.

Lemma eps_pos_nonzero (E : Q) : (Compress.eps < E)%Q -> ~ (E == 0)%Q.
Proof.
  intros HE H0. rewrite H0 in HE.
  revert HE. apply Qle_not_lt. discriminate.
Qed.

(** The recorded error of variant [v] is the squared error of the affine
    map fitted for it. *)
Lemma error_is_residual (v : nat) :
  v < length vf ->
  length (nth v vf []) = length t ->
  (nth v errors 0 ==
   residual (nth v vf []) t (nth v contrasts 0)
            (m_t - nth v contrasts 0 * m_of (nth v vf [])))%Q.
Proof.
  intros Hv Hlen.
  rewrite (error_nth Hv), (contrast_nth Hv).
  set (row := nth v vf []) in *.
  pose proof (residual_nonneg row t) as Hnn.
  destruct (gtb (E_of row) Compress.eps) eqn:G.
  - apply gtb_lt in G. pose proof (eps_pos_nonzero G) as HE0.
    specialize (Hnn (C_of t' row / E_of row)%Q
                    (m_t - C_of t' row / E_of row * m_of row)%Q).
    unfold m_of in *. rewrite residual_centered in Hnn |- * by exact Hlen.
    fold (E_of row) (C_of t' row) in Hnn |- *.
    assert (E : (E_t - C_of t' row * C_of t' row / E_of row ==
                 E_t - 2 * (C_of t' row / E_of row) * C_of t' row
                 + C_of t' row / E_of row * (C_of t' row / E_of row)
                   * E_of row)%Q) by (field; exact HE0).
    rewrite <- E in Hnn |- *. apply Q.max_l. exact Hnn.
  - specialize (Hnn 0%Q (m_t - 0 * m_of row)%Q).
    unfold m_of in *. rewrite residual_centered in Hnn |- * by exact Hlen.
    fold (E_of row) (C_of t' row) in Hnn |- *.
    assert (E : (E_t == E_t - 2 * 0 * C_of t' row + 0 * 0 * E_of row)%Q)
      by ring.
    rewrite <- E in Hnn |- *. apply Q.max_l. exact Hnn.
Qed.

End FitError.

(** X3: for every variant [v] whose row has as many pixels as the range
    block, the error the encoder computes for it equals the sum of the
    squared differences between the range block and the variant mapped with
    the fitted contrast and offset; in particular the recorded error of the
    emitted record is the squared error of the emitted affine map. *)
Theorem recorded_error_is_squared_error (cfg : Config)
    (domain_blocks : list ndarray) (block : ndarray) (v : nat) :
  let vf := Compress.variant_flat cfg domain_blocks in
  let tb := Compress.build_table cfg domain_blocks in
  let t := flatten block in
  let t' := Compress.centered t (mean t) in
  let num := Compress.numerator tb t' in
  let contrasts := Compress.contrast_all tb num in
  let errors := Compress.errors_all tb num (Compress.energy t') in
  let best := argmin errors in
  let e := Compress.fit cfg tb block in
  v < length vf ->
  Forall (fun row => length row = length t) vf ->
  (nth v errors 0 ==
   residual (nth v vf []) t (nth v contrasts 0)
            (mean t - nth v contrasts 0 * mean (nth v vf [])))%Q /\
  (nth best errors 0 ==
   residual (nth best vf []) t (contrast e) (offset e))%Q.
Proof.
  intros vf tb t t' num contrasts errors best e Hv Hrows.
  assert (Hrow : forall u, u < length vf -> length (nth u vf []) = length t).
  { intros u Hu. apply (proj1 (Forall_forall _ _) Hrows).
    apply nth_In. exact Hu. }
  assert (Hbest : best < length vf).
  { unfold best, errors, num, tb, vf.
    rewrite <- (errors_all_length cfg domain_blocks t' (Compress.energy t')).
    apply argmin_first_min.
    intros Hnil. apply (f_equal (@length Q)) in Hnil.
    rewrite errors_all_length in Hnil. simpl in Hnil. fold vf in Hnil. lia. }
  split.
  - apply (error_is_residual cfg domain_blocks block Hv (Hrow v Hv)).
  - pose proof (error_is_residual cfg domain_blocks block Hbest
                  (Hrow best Hbest)) as H.
    change (nth best errors 0 ==
            residual (nth best vf []) t (nth best contrasts 0)
              (mean t - nth best contrasts 0
                        * nth best (Compress.t_mean tb) 0))%Q.
    replace (nth best (Compress.t_mean tb) 0%Q) with (m_of (nth best vf [])).
    + exact H.
    + unfold tb. rewrite t_mean_map. symmetry.
      apply (nth_map_in _ vf [] 0%Q Hbest).
Qed.

Lemma bright_rows_length :
  Forall (fun row => length row =
                     length (flatten (Compress.block_at bright_corner 4 0 0)))
         (Compress.variant_flat config8 [bright_corner]).
Proof. vm_compute. repeat constructor. Defined.

Lemma recorded_error_is_squared_error_witness :
  let blocks := [bright_corner] in
  let block := Compress.block_at bright_corner 4 0 0 in
  let vf := Compress.variant_flat config8 blocks in
  let tb := Compress.build_table config8 blocks in
  let t := flatten block in
  let t' := Compress.centered t (mean t) in
  let errors :=
    Compress.errors_all tb (Compress.numerator tb t') (Compress.energy t') in
  let e := Compress.fit config8 tb block in
  0 < length vf /\
  Forall (fun row => length row = length t) vf /\
  (nth (argmin errors) errors 0 ==
   residual (nth (argmin errors) vf []) t (contrast e) (offset e))%Q.
Proof.
  intros blocks block vf tb t t' errors e.
  assert (Hv : 0 < length vf) by (vm_compute; lia).
  split; [exact Hv|]. split; [exact bright_rows_length|].
  exact (proj2 (@recorded_error_is_squared_error config8 blocks block 0 Hv
                  bright_rows_length)).
Defined.

(** X4: for a variant whose centered energy exceeds the threshold, no
    contrast and offset whatsoever give a smaller squared error than the one
    the encoder records: the fit is the least-squares optimum. *)
Theorem fit_is_least_squares (cfg : Config) (domain_blocks : list ndarray)
    (block : ndarray) (v : nat) (alpha beta : Q) :
  let vf := Compress.variant_flat cfg domain_blocks in
  let tb := Compress.build_table cfg domain_blocks in
  let t := flatten block in
  let t' := Compress.centered t (mean t) in
  let errors :=
    Compress.errors_all tb (Compress.numerator tb t') (Compress.energy t') in
  v < length vf ->
  length (nth v vf []) = length t ->
  t <> [] ->
  (Compress.eps < E_of (nth v vf []))%Q ->
  (nth v errors 0 <= residual (nth v vf []) t alpha beta)%Q.
Proof.
  cbv zeta. intros Hv Hlen Ht HE.
  rewrite (error_nth cfg domain_blocks block Hv).
  set (vf := Compress.variant_flat cfg domain_blocks) in *.
  set (t := flatten block) in *.
  set (row := nth v vf []) in *.
  pose proof (eps_pos_nonzero HE) as HE0.
  assert (HEpos : (0 < E_of row)%Q).
  { eapply Qlt_trans; [|exact HE]. reflexivity. }
  apply gtb_lt in HE. rewrite HE.
  assert (Hrow : row <> []).
  { intros Hnil. rewrite Hnil in Hlen. destruct t; simpl in Hlen; congruence. }
  rewrite (residual_expand alpha beta (mean row) (mean t) row t Hlen).
  cbv zeta.
  rewrite (sum_centered_mean Ht), (sum_centered_mean Hrow).
  set (t' := Compress.centered t (mean t)) in *.
  fold (E_of row) (C_of t' row).
  set (E := E_of row) in *. set (C := C_of t' row).
  set (E_t := Compress.energy t').
  set (g := (mean t - alpha * mean row - beta)%Q).
  set (n := inject_Z (Z.of_nat (length row))).
  set (c := (C / E)%Q).
  assert (HC : (C == c * E)%Q) by (unfold c; field; exact HE0).
  assert (Hn : (0 <= n)%Q).
  { unfold n. change 0%Q with (inject_Z 0).
    rewrite <- Zle_Qle. lia. }
  assert (H1 : (0 <= E * ((alpha - c) * (alpha - c)))%Q).
  { apply Qmult_le_0_compat;
      [apply Qlt_le_weak; exact HEpos|apply square_nonneg]. }
  assert (H2 : (0 <= n * (g * g))%Q).
  { apply Qmult_le_0_compat; [exact Hn|apply square_nonneg]. }
  assert (Hmain : (E_t - C * C / E <=
                   E_t - 2 * alpha * C + alpha * alpha * E
                   + 2 * g * (0 - alpha * 0) + n * (g * g))%Q).
  { assert (Hq : (C * C / E == c * (c * E))%Q)
      by (unfold c; field; exact HE0).
    rewrite Hq, HC. nra. }
  apply Q.max_lub; [exact Hmain|].
  eapply Qle_trans; [|exact Hmain].
  assert (Hq : (C * C / E == c * (c * E))%Q) by (unfold c; field; exact HE0).
  pose proof (energy_nonneg t') as Het. fold E_t in Het.
  assert (Hres : (0 <= residual row t c (mean t - c * mean row))%Q)
    by apply residual_nonneg.
  rewrite (residual_centered c (mean row) (mean t) row t Hlen) in Hres.
  fold t' in Hres. fold (E_of row) (C_of t' row) in Hres.
  fold E C E_t in Hres.
  rewrite Hq. rewrite HC in Hres. nra.
Qed.

Lemma fit_is_least_squares_witness :
  let blocks := [bright_corner] in
  let block := Compress.block_at bright_corner 4 0 0 in
  let vf := Compress.variant_flat config8 blocks in
  let tb := Compress.build_table config8 blocks in
  let t := flatten block in
  let t' := Compress.centered t (mean t) in
  let errors :=
    Compress.errors_all tb (Compress.numerator tb t') (Compress.energy t') in
  0 < length vf /\ length (nth 0 vf []) = length t /\ t <> [] /\
  (Compress.eps < E_of (nth 0 vf []))%Q /\
  (nth 0 errors 0 <= residual (nth 0 vf []) t 1 0)%Q.
Proof.
  intros blocks block vf tb t t' errors.
  assert (Hv : 0 < length vf) by (vm_compute; lia).
  assert (Hlen : length (nth 0 vf []) = length t) by reflexivity.
  assert (Ht : t <> []) by (vm_compute; discriminate).
  assert (HE : (Compress.eps < E_of (nth 0 vf []))%Q)
    by (vm_compute; reflexivity).
  split; [exact Hv|]. split; [exact Hlen|]. split; [exact Ht|].
  split; [exact HE|].
  exact (@fit_is_least_squares config8 blocks block 0 1 0 Hv Hlen Ht HE).
Defined.

(** X5: every recorded error lies between 0 and the centered energy of the
    range block, so the selected variant is never worse than approximating
    the block by its mean. *)
Theorem error_between_zero_and_energy (cfg : Config)
    (domain_blocks : list ndarray) (block : ndarray) (v : nat) :
  let vf := Compress.variant_flat cfg domain_blocks in
  let tb := Compress.build_table cfg domain_blocks in
  let t' := Compress.centered (flatten block) (mean (flatten block)) in
  let errors :=
    Compress.errors_all tb (Compress.numerator tb t') (Compress.energy t') in
  v < length vf ->
  (0 <= nth v errors 0 <= Compress.energy t')%Q /\
  (0 <= nth (argmin errors) errors 0 <= Compress.energy t')%Q.
Proof.
  cbv zeta. intros Hv.
  assert (Hall : forall u, u < length (Compress.variant_flat cfg domain_blocks) ->
            (0 <= nth u (Compress.errors_all
                           (Compress.build_table cfg domain_blocks)
                           (Compress.numerator
                              (Compress.build_table cfg domain_blocks)
                              (Compress.centered (flatten block)
                                                 (mean (flatten block))))
                           (Compress.energy
                              (Compress.centered (flatten block)
                                                 (mean (flatten block)))))
                        0
             <= Compress.energy
                  (Compress.centered (flatten block) (mean (flatten block))))%Q).
  { intros u Hu. rewrite (error_nth cfg domain_blocks block Hu).
    set (row := nth u _ []).
    set (t' := Compress.centered (flatten block) (mean (flatten block))).
    pose proof (energy_nonneg t') as Het.
    split; [apply Q.le_max_r|].
    apply Q.max_lub; [|exact Het].
    destruct (gtb (E_of row) Compress.eps) eqn:G; [|apply Qle_refl].
    apply gtb_lt in G.
    assert (HEpos : (0 < E_of row)%Q)
      by (eapply Qlt_trans; [|exact G]; reflexivity).
    assert (Hq : (0 <= C_of t' row * C_of t' row / E_of row)%Q).
    { apply Qmult_le_0_compat; [apply square_nonneg|].
      apply Qinv_le_0_compat. apply Qlt_le_weak. exact HEpos. }
    lra. }
  split; [apply Hall; exact Hv|].
  apply Hall.
  rewrite <- (errors_all_length cfg domain_blocks
                (Compress.centered (flatten block) (mean (flatten block)))
                (Compress.energy
                   (Compress.centered (flatten block) (mean (flatten block))))).
  apply argmin_first_min.
  intros Hnil. apply (f_equal (@length Q)) in Hnil.
  rewrite errors_all_length in Hnil. simpl in Hnil. lia.
Qed.

Lemma error_between_zero_and_energy_witness :
  let blocks := [bright_corner] in
  let block := Compress.block_at bright_corner 4 0 0 in
  let tb := Compress.build_table config8 blocks in
  let t' := Compress.centered (flatten block) (mean (flatten block)) in
  let errors :=
    Compress.errors_all tb (Compress.numerator tb t') (Compress.energy t') in
  3 < length (Compress.variant_flat config8 blocks) /\
  (0 <= nth 3 errors 0 <= Compress.energy t')%Q.
Proof.
  intros blocks block tb t' errors.
  assert (Hv : 3 < length (Compress.variant_flat config8 blocks))
    by (vm_compute; lia).
  split; [exact Hv|].
  exact (proj1 (@error_between_zero_and_energy config8 blocks block 3 Hv)).
Defined.

(** ** Flat range blocks *)

Lemma sum_all_equal (l : list Q) (c : Q) :
  Forall (fun x => (x == c)%Q) l ->
  (sum l == inject_Z (Z.of_nat (length l)) * c)%Q.
Proof.
  induction 1 as [|a l Ha Hl IH].
  - cbn. ring.
  - cbn [sum length].
    rewrite Nat2Z.inj_succ, <- Z.add_1_r, inject_Z_plus, IH, Ha.
    change (inject_Z 1) with 1%Q. ring.
Qed.

Lemma mean_all_equal (l : list Q) (c : Q) :
  l <> [] -> Forall (fun x => (x == c)%Q) l -> (mean l == c)%Q.
Proof.
  intros Hl H. unfold mean. rewrite (sum_all_equal H).
  field. apply count_nonzero. exact Hl.
Qed.

Lemma centered_all_equal (l : list Q) (c m : Q) :
  (m == c)%Q -> Forall (fun x => (x == c)%Q) l ->
  Forall (fun x => (x == 0)%Q) (Compress.centered l m).
Proof.
  intros Hm H. unfold Compress.centered.
  induction H as [|a l Ha Hl IH]; simpl; constructor.
  - rewrite Ha, Hm. ring.
  - exact IH.
Qed.

Lemma energy_zeros (l : list Q) :
  Forall (fun x => (x == 0)%Q) l -> (Compress.energy l == 0)%Q.
Proof.
  unfold Compress.energy.
  induction 1 as [|a l Ha Hl IH]; simpl; [reflexivity|].
  rewrite IH, Ha. ring.
Qed.

Lemma dot_zeros (z : list Q) :
  Forall (fun x => (x == 0)%Q) z ->
  forall x : list Q, (Compress.dot x z == 0)%Q.
Proof.
  unfold Compress.dot.
  induction 1 as [|a z Ha Hz IH]; intros [|b x]; simpl; try reflexivity.
  rewrite IH, Ha. ring.
Qed.

(** X6: a range block whose pixels all equal [c] is encoded, whatever the
    (non-empty) table of variants, as variant 0 with contrast 0 and offset
    [c], and every variant has error 0 for it. *)
Theorem flat_block_record (cfg : Config) (domain_blocks : list ndarray)
    (block : ndarray) (c : Q) :
  let vf := Compress.variant_flat cfg domain_blocks in
  let tb := Compress.build_table cfg domain_blocks in
  let t := flatten block in
  let t' := Compress.centered t (mean t) in
  let errors :=
    Compress.errors_all tb (Compress.numerator tb t') (Compress.energy t') in
  let e := Compress.fit cfg tb block in
  vf <> [] -> t <> [] -> Forall (fun x => (x == c)%Q) t ->
  (forall v, v < length vf -> (nth v errors 0 == 0)%Q) /\
  domain e = 0%Z /\ sym e = 0%Z /\
  (contrast e == 0)%Q /\ (offset e == c)%Q.
Proof.
  cbv zeta. intros Hvf Ht Hc.
  set (vf := Compress.variant_flat cfg domain_blocks) in *.
  pose proof (mean_all_equal Ht Hc) as Hmean.
  pose proof (centered_all_equal Hmean Hc) as Hz.
  pose proof (energy_zeros Hz) as HEt.
  assert (HC : forall row,
             (C_of (Compress.centered (flatten block) (mean (flatten block)))
                   row == 0)%Q).
  { intros row. unfold C_of. apply dot_zeros. exact Hz. }
  assert (Herr : forall v, v < length vf ->
            (nth v (Compress.errors_all
                      (Compress.build_table cfg domain_blocks)
                      (Compress.numerator
                         (Compress.build_table cfg domain_blocks)
                         (Compress.centered (flatten block)
                                            (mean (flatten block))))
                      (Compress.energy
                         (Compress.centered (flatten block)
                                            (mean (flatten block)))))
                 0 == 0)%Q).
  { intros v Hv. rewrite (error_nth cfg domain_blocks block Hv). fold vf.
    destruct (gtb (E_of (nth v vf [])) Compress.eps).
    - rewrite HEt, (HC (nth v vf [])).
      unfold Qdiv. rewrite !Qmult_0_l. reflexivity.
    - rewrite HEt. reflexivity. }
  set (t' := Compress.centered (flatten block) (mean (flatten block))) in *.
  set (tb := Compress.build_table cfg domain_blocks) in *.
  set (errors := Compress.errors_all tb (Compress.numerator tb t')
                                     (Compress.energy t')) in *.
  assert (Hlen : length errors = length vf)
    by apply errors_all_length.
  assert (Hpos : 0 < length vf) by (destruct vf; simpl; [congruence|lia]).
  assert (Hne : errors <> []).
  { intros Hnil. rewrite Hnil in Hlen. simpl in Hlen. lia. }
  assert (Hbest : argmin errors = 0).
  { destruct (argmin_first_min Hne) as (Hlt & _ & _).
    assert (H0 : argmin errors <= 0); [|lia].
    apply argmin_lowest_tie; [lia|].
    rewrite (Herr 0 Hpos), (Herr (argmin errors)) by lia. reflexivity. }
  split; [exact Herr|].
  unfold Compress.fit. cbn [domain sym contrast offset].
  fold t' tb errors. rewrite Hbest.
  rewrite Nat.Div0.div_0_l, Nat.Div0.mod_0_l.
  assert (Hcon : (nth 0 (Compress.contrast_all tb (Compress.numerator tb t'))
                      0 == 0)%Q).
  { unfold tb, t'. rewrite (contrast_nth cfg domain_blocks block Hpos).
    fold vf t'.
    destruct (gtb (E_of (nth 0 vf [])) Compress.eps); [|reflexivity].
    rewrite (HC (nth 0 vf [])). unfold Qdiv. apply Qmult_0_l. }
  split; [reflexivity|]. split; [reflexivity|]. split; [exact Hcon|].
  rewrite Hcon, Hmean. ring.
Qed.

Lemma flat_block_record_witness :
  let blocks := [bright_corner] in
  let block := const_tile 4 200 in
  Compress.variant_flat config8 blocks <> [] /\ flatten block <> [] /\
  Forall (fun x => (x == 200)%Q) (flatten block) /\
  (offset (Compress.fit config8 (Compress.build_table config8 blocks) block)
   == 200)%Q.
Proof.
  intros blocks block.
  assert (Hvf : Compress.variant_flat config8 blocks <> [])
    by (vm_compute; discriminate).
  assert (Ht : flatten block <> []) by (vm_compute; discriminate).
  assert (Hc : Forall (fun x => (x == 200)%Q) (flatten block))
    by (vm_compute; repeat constructor).
  split; [exact Hvf|]. split; [exact Ht|]. split; [exact Hc|].
  exact (proj2 (proj2 (proj2 (proj2
           (@flat_block_record config8 blocks block 200 Hvf Ht Hc))))).
Defined.

(** ** One decoding step applied to the encoded image *)

Lemma flatten_ext (A B : ndarray) :
  shape0 A = shape0 B -> shape1 A = shape1 B ->
  (forall i j, i < shape0 A -> j < shape1 A -> cell A i j = cell B i j) ->
  flatten A = flatten B.
Proof.
  intros H0 H1 H. unfold flatten. rewrite <- H0, <- H1.
  assert (Hrows : forall i, In i (seq 0 (shape0 A)) ->
            map (cell A i) (seq 0 (shape1 A)) =
            map (cell B i) (seq 0 (shape1 A))).
  { intros i Hi. apply in_seq in Hi. apply map_ext_in.
    intros j Hj. apply in_seq in Hj. apply H; lia. }
  induction (seq 0 (shape0 A)) as [|i l IH]; simpl; [reflexivity|].
  rewrite Hrows by (left; reflexivity).
  rewrite IH by (intros i' Hi'; apply Hrows; right; exact Hi').
  reflexivity.
Qed.

Lemma squared_distance_affine (alpha beta : Q) (x : list Q) :
  forall t : list Q,
    squared_distance t (map (fun u => (alpha * u + beta)%Q) x) =
    residual x t alpha beta.
Proof.
  unfold squared_distance, residual.
  induction x as [|a x IH]; intros [|b t]; simpl; try reflexivity.
  rewrite IH. reflexivity.
Qed.

Lemma fit_error_is_residual (cfg : Config) (domain_blocks : list ndarray)
    (block : ndarray) :
  let vf := Compress.variant_flat cfg domain_blocks in
  let tb := Compress.build_table cfg domain_blocks in
  let t := flatten block in
  let t' := Compress.centered t (mean t) in
  let errors :=
    Compress.errors_all tb (Compress.numerator tb t') (Compress.energy t') in
  let best := argmin errors in
  let e := Compress.fit cfg tb block in
  best < length vf ->
  length (nth best vf []) = length t ->
  (nth best errors 0 ==
   residual (nth best vf []) t (contrast e) (offset e))%Q.
Proof.
  intros vf tb t t' errors best e Hbest Hlen.
  pose proof (error_is_residual cfg domain_blocks block Hbest Hlen) as H.
  change (nth best errors 0 ==
          residual (nth best vf []) t
            (nth best (Compress.contrast_all tb (Compress.numerator tb t')) 0)
            (mean t
             - nth best (Compress.contrast_all tb (Compress.numerator tb t')) 0
               * nth best (Compress.t_mean tb) 0))%Q.
  replace (nth best (Compress.t_mean tb) 0%Q) with (m_of (nth best vf [])).
  - exact H.
  - unfold tb. rewrite t_mean_map. symmetry.
    apply (nth_map_in _ vf [] 0%Q Hbest).
Qed.

Section Collage.
Variable cfg : Config.
Hypothesis Hcfg : config_ok cfg.
Variable image : ndarray.
Hypothesis Himage : square (IMAGE_SIZE cfg) image.

Local Abbreviation N := (IMAGE_SIZE cfg).
Local Abbreviation r := (RANGE_SIZE cfg).
Local Abbreviation d := (DOMAIN_SIZE cfg).
Local Abbreviation S_ := (SYMMETRY_COUNT cfg).
Local Abbreviation p := (Decompress.domain_blocks_per_side cfg).
Local Abbreviation blocks := (Compress.extract_blocks cfg image d).
Local Abbreviation vf := (Compress.variant_flat cfg blocks).
Local Abbreviation tb := (Compress.build_table cfg blocks).

(** The block the decoder builds from a record of the encoder is the
    affine image of the variant the encoder selected for it. *)
Lemma mapped_block_of_fit (block : ndarray) :
  let t' := Compress.centered (flatten block) (mean (flatten block)) in
  let errors :=
    Compress.errors_all tb (Compress.numerator tb t') (Compress.energy t') in
  let e := Compress.fit cfg tb block in
  flatten (Decompress.mapped_block cfg image e) =
  map (fun u => (contrast e * u + offset e)%Q) (nth (argmin errors) vf []).
Proof.
  intros t' errors e.
  set (best := argmin errors).
  assert (Hbest : best < N / d * (N / d) * S_)
    by (apply fit_best_lt; assumption).
  assert (HS : 0 < S_) by (destruct Hcfg as (_ & _ & _ & _ & HS); lia).
  assert (Hdom : best / S_ < N / d * (N / d))
    by (apply Nat.Div0.div_lt_upper_bound; lia).
  assert (Hsym : best mod S_ < S_) by (apply Nat.mod_upper_bound; lia).
  assert (He : domain_ok cfg e).
  { unfold domain_ok, e, Compress.fit. cbn [domain].
    fold t' errors best. unfold Decompress.domain_blocks_per_side. lia. }
  unfold Decompress.mapped_block.
  rewrite (decoder_domain_block image He).
  change (add_scalar (scalar_mul (contrast e) ?V) (offset e))
    with (map_cells (fun u => (contrast e * u + offset e)%Q) V).
  rewrite flatten_map_cells. f_equal.
  transitivity (nth (best / S_ * S_ + best mod S_) vf []).
  - rewrite (variant_flat_nth Hcfg Himage Hdom Hsym).
    unfold e, Compress.fit. cbn [domain sym]. fold t' errors best.
    rewrite Nat2Z.id. reflexivity.
  - f_equal. pose proof (Nat.div_mod_eq best S_). lia.
Qed.

End Collage.

Section CollageBlock.
Variable cfg : Config.
Hypothesis Hcfg : config_ok cfg.
Variable image : ndarray.
Hypothesis Himage : square (IMAGE_SIZE cfg) image.
Variable uninit : nat -> nat -> Q.

Local Abbreviation N := (IMAGE_SIZE cfg).
Local Abbreviation r := (RANGE_SIZE cfg).
Local Abbreviation d := (DOMAIN_SIZE cfg).
Local Abbreviation q := (Decompress.range_blocks_per_side cfg).
Local Abbreviation ry := (Decompress.ry cfg).
Local Abbreviation rx := (Decompress.rx cfg).
Local Abbreviation pairs := (Compress.main cfg image).

Lemma collage_block :
  exists image',
    Decompress.iterate cfg image pairs uninit = Returned image' /\
    square N image' /\
    forall k, k < q * q ->
      (squared_distance
         (flatten (Compress.block_at image r (ry k) (rx k)))
         (flatten (Compress.block_at image' r (ry k) (rx k)))
       == selected_error cfg image k)%Q.
Proof.
  pose proof (main_codebook_ok Hcfg Himage) as Hbook.
  destruct (iterate_pixels Hcfg uninit Himage Hbook)
    as (image' & Hrun & Hsq & Hcells).
  exists image'. split; [exact Hrun|]. split; [exact Hsq|].
  intros k Hk.
  set (src := Compress.block_at image r (ry k) (rx k)).
  set (out := Compress.block_at image' r (ry k) (rx k)).
  set (tb := Compress.build_table cfg (Compress.extract_blocks cfg image d)).
  set (e := Compress.fit cfg tb src).
  assert (He : nth k pairs no_entry = e).
  { apply (main_nth Hcfg image no_entry). exact Hk. }
  destruct (range_block_inside Hcfg Hk) as [Hy Hx].
  pose proof (block_at_square _ _ _ Himage Hy Hx) as [S0 S1].
  pose proof (block_at_square _ _ _ Hsq Hy Hx) as [O0 O1].
  assert (Hdok : domain_ok cfg e).
  { destruct Hbook as [Hlen Hok]. rewrite <- He.
    apply (proj1 (Forall_forall _ _) Hok). apply nth_In. lia. }
  destruct (mapped_block_square Hcfg Himage Hdok) as [M0 M1].
  assert (Hout : flatten out = flatten (Decompress.mapped_block cfg image e)).
  { apply flatten_ext.
    - fold out in O0. congruence.
    - fold out in O1. congruence.
    - fold out in O0, O1. rewrite O0, O1. intros y x Hy' Hx'.
      destruct (block_pixel Hcfg Hk Hy' Hx') as (Hi & Hj & Hb & Hmy & Hmx).
      destruct Hsq as [Q0 Q1].
      unfold out. rewrite block_at_cell by lia.
      rewrite (Hcells _ _ Hi Hj), Hb, Hmy, Hmx, He. reflexivity. }
  fold src out. rewrite Hout.
  unfold e, tb. rewrite (mapped_block_of_fit Hcfg Himage src).
  rewrite squared_distance_affine.
  symmetry. apply fit_error_is_residual.
  - rewrite (variant_flat_length Hcfg Himage). apply fit_best_lt; assumption.
  - set (best := argmin _).
    assert (Hbest : best < N / d * (N / d) * SYMMETRY_COUNT cfg)
      by (apply fit_best_lt; assumption).
    rewrite <- (variant_flat_length Hcfg Himage) in Hbest.
    assert (Hin : In (nth best (Compress.variant_flat cfg
                                  (Compress.extract_blocks cfg image d)) [])
                     (Compress.variant_flat cfg
                        (Compress.extract_blocks cfg image d)))
      by (apply nth_In; exact Hbest).
    rewrite (variant_flat_rows Hcfg Himage) in Hin.
    apply in_flat_map in Hin. destruct Hin as (blk & Hblk & Hin).
    apply in_map_iff in Hin. destruct Hin as (s & Hs & _).
    rewrite (variant_flat_rows Hcfg Himage), <- Hs.
    rewrite (variant_length Hcfg (Z.of_nat s)
               (domain_blocks_square Hcfg Himage blk Hblk)).
    rewrite flatten_length. fold src in S0, S1. rewrite S0, S1. reflexivity.
Qed.

End CollageBlock.



(** ** Images that are encoded without error *)

Lemma squared_distance_nonneg (a b : list Q) :
  (0 <= squared_distance a b)%Q.
Proof.
  unfold squared_distance. induction (combine a b) as [|p l IH]; simpl.
  - apply Qle_refl.
  - pose proof (square_nonneg (fst p - snd p)). lra.
Qed.

Lemma squared_distance_zero (a : list Q) :
  forall (b : list Q) (n : nat),
    length a = length b -> (squared_distance a b == 0)%Q ->
    n < length a -> (nth n a 0 == nth n b 0)%Q.
Proof.
  induction a as [|x a IH]; intros [|y b] n Hlen H0 Hn;
    simpl in Hlen, Hn; try lia.
  pose proof (squared_distance_nonneg a b) as Hrest.
  pose proof (square_nonneg (x - y)) as Hsq.
  unfold squared_distance in H0, Hrest. cbn [combine map sum fst snd] in H0.
  destruct n as [|n].
  - simpl.
    assert (Hz : ((x - y) * (x - y) == 0)%Q) by lra.
    apply Qmult_integral in Hz. destruct Hz; lra.
  - simpl. apply IH; [lia| |lia].
    unfold squared_distance. lra.
Qed.

Lemma flatten_nth (A : ndarray) (i j : nat) :
  i < shape0 A -> j < shape1 A ->
  nth (i * shape1 A + j) (flatten A) 0%Q = cell A i j.
Proof.
  intros Hi Hj. unfold flatten.
  rewrite nth_flat_map_uniform with (a := 0).
  - rewrite seq_nth by exact Hi. simpl.
    rewrite (nth_map_in _ _ 0) by (rewrite length_seq; exact Hj).
    rewrite seq_nth by exact Hj. reflexivity.
  - intros k _. rewrite length_map, length_seq. reflexivity.
  - rewrite length_seq. exact Hi.
  - exact Hj.
Qed.

Lemma zero_error_cells (cfg : Config) (image : ndarray)
    (uninit : nat -> nat -> Q) :
  config_ok cfg -> square (IMAGE_SIZE cfg) image ->
  (forall k,
     k < Decompress.range_blocks_per_side cfg *
         Decompress.range_blocks_per_side cfg ->
     (selected_error cfg image k == 0)%Q) ->
  exists image',
    Decompress.iterate cfg image (Compress.main cfg image) uninit
    = Returned image' /\
    square (IMAGE_SIZE cfg) image' /\
    forall i j, i < IMAGE_SIZE cfg -> j < IMAGE_SIZE cfg ->
      (cell image' i j == cell image i j)%Q.
Proof.
  intros Hcfg Himage Hzero.
  destruct (collage_block Hcfg Himage uninit) as (image' & Hrun & Hsq & H).
  exists image'. split; [exact Hrun|]. split; [exact Hsq|].
  intros i j Hi Hj.
  set (k := block_of cfg i j).
  pose proof (pixel_block_lt Hcfg Hi Hj) as Hk. fold k in Hk.
  assert (Hb : block_of cfg i j = k) by reflexivity.
  destruct (proj2 (in_block_iff Hcfg Hk Hi Hj) Hb) as [[Hy1 Hy2] [Hx1 Hx2]].
  destruct (range_block_inside Hcfg Hk) as [Hry Hrx].
  pose proof (block_at_square _ _ _ Himage Hry Hrx) as [S0 S1].
  pose proof (block_at_square _ _ _ Hsq Hry Hrx) as [O0 O1].
  specialize (H k Hk). rewrite (Hzero k Hk) in H.
  set (y := i - Decompress.ry cfg k). set (x := j - Decompress.rx cfg k).
  assert (Hy : y < RANGE_SIZE cfg) by (unfold y; lia).
  assert (Hx : x < RANGE_SIZE cfg) by (unfold x; lia).
  pose proof (@squared_distance_zero
                (flatten (Compress.block_at image (RANGE_SIZE cfg)
                            (Decompress.ry cfg k) (Decompress.rx cfg k)))
                (flatten (Compress.block_at image' (RANGE_SIZE cfg)
                            (Decompress.ry cfg k) (Decompress.rx cfg k)))
                (y * RANGE_SIZE cfg + x)) as Hnth.
  rewrite !flatten_length, S0, S1, O0, O1 in Hnth.
  specialize (Hnth eq_refl H ltac:(nia)).
  pose proof (@flatten_nth (Compress.block_at image (RANGE_SIZE cfg)
                              (Decompress.ry cfg k) (Decompress.rx cfg k))
                y x) as Ea.
  pose proof (@flatten_nth (Compress.block_at image' (RANGE_SIZE cfg)
                              (Decompress.ry cfg k) (Decompress.rx cfg k))
                y x) as Eb.
  rewrite S0, S1 in Ea. rewrite O0, O1 in Eb.
  rewrite (Ea Hy Hx), (Eb Hy Hx) in Hnth.
  destruct Himage as [I0 I1]. destruct Hsq as [Q0 Q1].
  rewrite !block_at_cell in Hnth by lia.
  replace (Decompress.ry cfg k + y) with i in Hnth by (unfold y; lia).
  replace (Decompress.rx cfg k + x) with j in Hnth by (unfold x; lia).
  symmetry. exact Hnth.
Qed.




(** ** Domain indices outside the grid *)

Lemma transform_shape (A : ndarray) (s : Z) :
  (shape0 (Compress.transform A s) = shape0 A /\
   shape1 (Compress.transform A s) = shape1 A) \/
  (shape0 (Compress.transform A s) = shape1 A /\
   shape1 (Compress.transform A s) = shape0 A).
Proof.
  apply (transform_preserves
           (fun X => (shape0 X = shape0 A /\ shape1 X = shape1 A) \/
                     (shape0 X = shape1 A /\ shape1 X = shape0 A)));
    try (intros X [[H0 H1]|[H0 H1]]; simpl; intuition congruence).
  left. split; reflexivity.
Qed.

(** A value with no rows or no columns does not broadcast to a target with
    both. *)
Lemma setitem_empty_value (A V : ndarray) (y x h w : nat) :
  y + h <= shape0 A -> x + w <= shape1 A -> 0 < h -> 0 < w ->
  shape0 V = 0 \/ shape1 V = 0 ->
  setitem A y (y + h) x (x + w) V = Raised ValueError.
Proof.
  intros Hy Hx Hh Hw HV. unfold setitem.
  rewrite (Nat.min_l y), (Nat.min_l (y + h)) by lia.
  rewrite (Nat.min_l x), (Nat.min_l (x + w)) by lia.
  replace (y + h - y) with h by lia.
  replace (x + w - x) with w by lia.
  unfold broadcastable.
  destruct HV as [HV|HV]; rewrite HV.
  - destruct (Nat.eqb_spec 0 h); [lia|]. reflexivity.
  - destruct (Nat.eqb_spec 0 w); [lia|]. simpl.
    rewrite andb_false_r. reflexivity.
Qed.

Section DomainIndex.
Variable cfg : Config.
Hypothesis Hcfg : config_ok cfg.
Variable image : ndarray.
Hypothesis Himage : square (IMAGE_SIZE cfg) image.

Local Abbreviation N := (IMAGE_SIZE cfg).
Local Abbreviation r := (RANGE_SIZE cfg).
Local Abbreviation d := (DOMAIN_SIZE cfg).
Local Abbreviation p := (Decompress.domain_blocks_per_side cfg).
Local Abbreviation q := (Decompress.range_blocks_per_side cfg).

(** The rows the decoder slices for a domain index: none when the index is
    [>= D], in the last band of negative indices [-p .. -1], or [< -D]. *)
Lemma domain_rows_empty (n : Z) :
  (Z.of_nat (p * p) <= n \/ - Z.of_nat p <= n < 0 \/ n < - Z.of_nat (p * p))%Z ->
  slice_len (Decompress.dy cfg n) (Decompress.dy cfg n + Z.of_nat d) N = 0.
Proof.
  intros Hn.
  pose proof (config_N_d Hcfg) as HN. pose proof (config_dbps_pos Hcfg) as Hp.
  pose proof (config_d_pos Hcfg) as Hd.
  fold p in HN, Hp.
  unfold slice_len, clip_index, Decompress.dy.
  set (k := (n / Z.of_nat p)%Z).
  assert (Hk : (Z.of_nat p <= k \/ k = -1 \/ k < - Z.of_nat p)%Z).
  { unfold k. destruct Hn as [Hn|[Hn|Hn]].
    - left. apply Z.div_le_lower_bound; [lia|]. rewrite Nat2Z.inj_mul in Hn. lia.
    - right. left.
      assert (n / Z.of_nat p < 0)%Z by (apply Z.div_lt_upper_bound; lia).
      assert (-1 <= n / Z.of_nat p)%Z
        by (apply Z.div_le_lower_bound; lia).
      lia.
    - right. right. apply Z.div_lt_upper_bound; [lia|].
      rewrite Nat2Z.inj_mul in Hn. lia. }
  assert (HNz : Z.of_nat N = (Z.of_nat p * Z.of_nat d)%Z)
    by (rewrite <- Nat2Z.inj_mul; f_equal; exact HN).
  destruct (Z.ltb_spec (k * Z.of_nat d) 0);
    destruct (Z.ltb_spec (k * Z.of_nat d + Z.of_nat d) 0); nia.
Qed.

Lemma iterate_step_bad_domain (e : entry) (k : nat) (nm : ndarray) :
  square N nm -> k < q * q ->
  (Z.of_nat (p * p) <= domain e \/ - Z.of_nat p <= domain e < 0 \/
   domain e < - Z.of_nat (p * p))%Z ->
  Decompress.iterate_step cfg image e k nm = Raised ValueError.
Proof.
  intros [Hn0 Hn1] Hk He.
  destruct (range_block_inside Hcfg Hk) as [Hy Hx].
  pose proof (config_r_pos Hcfg) as Hr.
  unfold Decompress.iterate_step.
  apply setitem_empty_value; try lia.
  unfold Decompress.mapped_block.
  set (blk := getitem image _ _ _ _).
  assert (Hblk : shape0 blk = 0).
  { unfold blk, getitem. cbn [shape0].
    rewrite (proj1 Himage). apply domain_rows_empty. exact He. }
  change (shape0 (add_scalar (scalar_mul (contrast e) ?X) (offset e)))
    with (shape0 X).
  change (shape1 (add_scalar (scalar_mul (contrast e) ?X) (offset e)))
    with (shape1 X).
  change (Decompress.downscale ?X) with (Compress.downscale X).
  change (Decompress.transform ?X ?s) with (Compress.transform X s).
  destruct (transform_shape blk (sym e)) as [[T0 T1]|[T0 T1]].
  - left. apply (downscale_shape0 _ 0). simpl. congruence.
  - right. apply (downscale_shape1 _ 0). simpl. congruence.
Qed.

(** A negative index in [-D, -p) names the same rows and columns as the
    index plus [D]. *)
Lemma domain_block_alias (n : Z) :
  (- Z.of_nat (p * p) <= n < - Z.of_nat p)%Z ->
  let n' := (n + Z.of_nat (p * p))%Z in
  getitem image (Decompress.dy cfg n) (Decompress.dy cfg n + Z.of_nat d)
                (Decompress.dx cfg n) (Decompress.dx cfg n + Z.of_nat d) =
  getitem image (Decompress.dy cfg n') (Decompress.dy cfg n' + Z.of_nat d)
                (Decompress.dx cfg n') (Decompress.dx cfg n' + Z.of_nat d).
Proof.
  intros Hn n'.
  pose proof (config_N_d Hcfg) as HN. pose proof (config_dbps_pos Hcfg) as Hp.
  pose proof (config_d_pos Hcfg) as Hd.
  fold p in HN, Hp.
  assert (HNz : Z.of_nat N = (Z.of_nat p * Z.of_nat d)%Z)
    by (rewrite <- Nat2Z.inj_mul; f_equal; exact HN).
  assert (Hdiv : (n' / Z.of_nat p = n / Z.of_nat p + Z.of_nat p)%Z).
  { unfold n'. rewrite Nat2Z.inj_mul. apply Z.div_add. lia. }
  assert (Hmod : (n' mod Z.of_nat p = n mod Z.of_nat p)%Z).
  { unfold n'. rewrite Nat2Z.inj_mul. apply Z.mod_add. lia. }
  assert (Hk1 : (- Z.of_nat p <= n / Z.of_nat p)%Z).
  { apply Z.div_le_lower_bound; [lia|]. rewrite Nat2Z.inj_mul in Hn. lia. }
  assert (Hk2 : (n / Z.of_nat p < -1)%Z).
  { apply Z.div_lt_upper_bound; lia. }
  destruct Himage as [H0 H1].
  unfold getitem, slice_start, slice_len, Decompress.dx, Decompress.dy.
  rewrite Hdiv, Hmod, H0, H1.
  set (k := (n / Z.of_nat p)%Z) in *.
  assert (E1 : clip_index (k * Z.of_nat d) N =
               clip_index ((k + Z.of_nat p) * Z.of_nat d) N).
  { unfold clip_index.
    destruct (Z.ltb_spec (k * Z.of_nat d) 0);
      destruct (Z.ltb_spec ((k + Z.of_nat p) * Z.of_nat d) 0); nia. }
  assert (E2 : clip_index (k * Z.of_nat d + Z.of_nat d) N =
               clip_index ((k + Z.of_nat p) * Z.of_nat d + Z.of_nat d) N).
  { unfold clip_index.
    destruct (Z.ltb_spec (k * Z.of_nat d + Z.of_nat d) 0);
      destruct (Z.ltb_spec ((k + Z.of_nat p) * Z.of_nat d + Z.of_nat d) 0);
      nia. }
  rewrite E1, E2. reflexivity.
Qed.

End DomainIndex.

(** X9: the decoder has no range check on the domain index, but a record
    whose index is [>= D], or in [-p .. -1], or [< -D] (with [p = N/d] and
    [D = p^2]) selects no rows of the image, and the assignment of the empty
    block raises [ValueError] as soon as the record is reached. *)
Theorem bad_domain_index_raises (cfg : Config) (image : ndarray)
    (l1 l2 : list entry) (e : entry) (uninit : nat -> nat -> Q) :
  let N := IMAGE_SIZE cfg in
  let p := Z.of_nat (Decompress.domain_blocks_per_side cfg) in
  let R := Decompress.range_blocks_per_side cfg *
           Decompress.range_blocks_per_side cfg in
  config_ok cfg -> square N image ->
  Forall (domain_ok cfg) l1 -> length l1 < R ->
  (p * p <= domain e \/ - p <= domain e < 0 \/ domain e < - (p * p))%Z ->
  Decompress.iterate cfg image (l1 ++ e :: l2) uninit = Raised ValueError.
Proof.
  intros N p R Hcfg Himage Hl1 Hlen He. subst N p R.
  unfold Decompress.iterate. rewrite iterate_loop_app.
  destruct (iterate_loop_writes Hcfg Himage 0
              (nm := empty_like image uninit) Hl1)
    as (nm' & Hrun & Hsq & _).
  - exact Himage.
  - lia.
  - rewrite Hrun. cbn [bind Decompress.iterate_loop].
    rewrite (iterate_step_bad_domain Hcfg Himage e Hsq).
    + reflexivity.
    + simpl. exact Hlen.
    + rewrite Nat2Z.inj_mul. exact He.
Qed.

Lemma bad_domain_index_raises_witness :
  config_ok config8 /\ square 8 bright_corner /\
  Forall (domain_ok config8) [mk_entry 0 0 4 (-60)] /\
  1 < Decompress.range_blocks_per_side config8 *
      Decompress.range_blocks_per_side config8 /\
  (1 * 1 <= domain (mk_entry 1 0 0 20))%Z /\
  Decompress.iterate config8 bright_corner
    ([mk_entry 0 0 4 (-60)] ++ mk_entry 1 0 0 20 :: [])
    (fun _ _ => 0%Q) = Raised ValueError.
Proof.
  assert (Hl1 : Forall (domain_ok config8) [mk_entry 0 0 4 (-60)]).
  { constructor; [|constructor].
    vm_compute. split; [discriminate|reflexivity]. }
  assert (Hlen : 1 < Decompress.range_blocks_per_side config8 *
                     Decompress.range_blocks_per_side config8)
    by (vm_compute; lia).
  assert (He : (1 * 1 <= domain (mk_entry 1 0 0 20))%Z) by (simpl; lia).
  split; [exact config8_ok|]. split; [exact bright_corner_square|].
  split; [exact Hl1|]. split; [exact Hlen|]. split; [exact He|].
  exact (@bad_domain_index_raises config8 bright_corner
           [mk_entry 0 0 4 (-60)] [] (mk_entry 1 0 0 20) (fun _ _ => 0%Q)
           config8_ok bright_corner_square Hl1 Hlen (or_introl He)).
Defined.

(** X10: a negative domain index in [-D, -p) is not rejected either: by
    Python's negative slice bounds it reads the domain block of index
    [domain + D], so replacing the record by the one with that valid index
    leaves the iteration unchanged. *)
Theorem negative_domain_index_aliases (cfg : Config) (image : ndarray)
    (l1 l2 : list entry) (e : entry) (uninit : nat -> nat -> Q) :
  let N := IMAGE_SIZE cfg in
  let p := Z.of_nat (Decompress.domain_blocks_per_side cfg) in
  let e' := mk_entry (domain e + p * p) (sym e) (contrast e) (offset e) in
  config_ok cfg -> square N image ->
  (- (p * p) <= domain e < - p)%Z ->
  domain_ok cfg e' /\
  Decompress.iterate cfg image (l1 ++ e :: l2) uninit =
  Decompress.iterate cfg image (l1 ++ e' :: l2) uninit.
Proof.
  intros N p e' Hcfg Himage He. subst N p.
  split.
  { unfold domain_ok, e'. cbn [domain]. rewrite Nat2Z.inj_mul. lia. }
  assert (Hstep : forall k nm,
            Decompress.iterate_step cfg image e k nm =
            Decompress.iterate_step cfg image e' k nm).
  { intros k nm. unfold Decompress.iterate_step, Decompress.mapped_block.
    unfold e'. cbn [domain sym contrast offset].
    rewrite <- Nat2Z.inj_mul.
    assert (Hr : (- Z.of_nat (Decompress.domain_blocks_per_side cfg *
                              Decompress.domain_blocks_per_side cfg)
                  <= domain e
                  < - Z.of_nat (Decompress.domain_blocks_per_side cfg))%Z)
      by (rewrite Nat2Z.inj_mul; exact He).
    rewrite (domain_block_alias Hcfg Himage Hr). reflexivity. }
  unfold Decompress.iterate. rewrite !iterate_loop_app.
  destruct (Decompress.iterate_loop cfg image l1 0 (empty_like image uninit))
    as [nm1|err]; [|reflexivity].
  cbn [bind Decompress.iterate_loop]. rewrite Hstep. reflexivity.
Qed.

Lemma negative_domain_index_aliases_witness :
  let e := mk_entry (-3) 0 1 0 in
  config_ok config16 /\ square 16 two_tone /\
  (- (2 * 2) <= domain e < - 2)%Z /\
  Decompress.iterate config16 two_tone ([] ++ e :: []) (fun _ _ => 0%Q) =
  Decompress.iterate config16 two_tone ([] ++ mk_entry 1 0 1 0 :: [])
                     (fun _ _ => 0%Q).
Proof.
  intros e.
  assert (Hcfg : config_ok config16)
    by (unfold config_ok; simpl; repeat split; lia).
  assert (Hsq : square 16 two_tone) by (split; reflexivity).
  assert (He : (- (2 * 2) <= domain e < - 2)%Z) by (simpl; lia).
  split; [exact Hcfg|]. split; [exact Hsq|]. split; [exact He|].
  exact (proj2 (@negative_domain_index_aliases config16 two_tone [] [] e
                  (fun _ _ => 0%Q) Hcfg Hsq He)).
Defined.

(** ** Stopping and resuming the decoder *)


(** ** The viewer *)

Lemma viewer_iterate_loop (cfg : Config) (image : ndarray)
    (pairs : list entry) :
  forall (k : nat) (nm : ndarray),
    Interactive.iterate_loop cfg image pairs k nm =
    Decompress.iterate_loop cfg image pairs k nm.
Proof.
  induction pairs as [|e rest IH]; intros k nm; [reflexivity|].
  cbn [Interactive.iterate_loop Decompress.iterate_loop].
  change (Interactive.iterate_step cfg image e k nm)
    with (Decompress.iterate_step cfg image e k nm).
  destruct (Decompress.iterate_step cfg image e k nm) as [nm'|err];
    [|reflexivity].
  cbn [bind]. apply IH.
Qed.

Lemma viewer_iterate (cfg : Config) (image : ndarray) (pairs : list entry)
    (uninit : nat -> nat -> Q) :
  Interactive.iterate cfg image pairs uninit =
  Decompress.iterate cfg image pairs uninit.
Proof.
  unfold Interactive.iterate, Decompress.iterate.
  exact (viewer_iterate_loop cfg image pairs 0 (empty_like image uninit)).
Qed.

Section ViewerRun.
Variable cfg : Config.
Variable pairs : list entry.
Variable uninit : nat -> nat -> nat -> Q.

Local Abbreviation run := (Interactive.run cfg pairs uninit).
Local Abbreviation handle := (Interactive.handle cfg pairs uninit).

Lemma handle_step (st : Interactive.viewer) (ev : Interactive.event) :
  is_step ev = true ->
  handle st ev = Interactive.do_iteration cfg pairs uninit st.
Proof.
  destruct ev as [|[k|]]; cbn [is_step Interactive.handle Interactive.on_key];
    intros H; try reflexivity; try discriminate.
  rewrite H. reflexivity.
Qed.

Lemma handle_other (st : Interactive.viewer) (ev : Interactive.event) :
  is_step ev = false ->
  exists st',
    handle st ev = Returned st' /\
    Interactive.count st' = Interactive.count st /\
    Interactive.image st' = Interactive.image st /\
    Interactive.title st' = Interactive.title st /\
    Interactive.shown st' = Interactive.shown st.
Proof.
  destruct ev as [|[k|]]; cbn [is_step Interactive.handle Interactive.on_key];
    intros H; try discriminate.
  - rewrite H. destruct (String.eqb k "s").
    + eexists. split; [reflexivity|].
      cbn [Interactive.count Interactive.image Interactive.title
           Interactive.shown]. auto.
    + exists st. auto.
  - exists st. auto.
Qed.

Lemma run_iterations (events : list Interactive.event) :
  forall st : Interactive.viewer,
    match Decompress.iterations cfg (steps events) (Interactive.count st)
            (Interactive.image st) pairs uninit with
    | Returned img =>
        exists st',
          run st events = Returned st' /\
          Interactive.image st' = img /\
          Interactive.count st' = Interactive.count st + steps events /\
          (in_sync st -> in_sync st')
    | Raised err => run st events = Raised err
    end.
Proof.
  induction events as [|ev rest IH]; intros st.
  - unfold steps.
    cbn [filter length Decompress.iterations Interactive.run].
    exists st. split; [reflexivity|]. split; [reflexivity|].
    split; [lia|auto].
  - unfold steps. cbn [filter Interactive.run].
    destruct (is_step ev) eqn:Hev.
    + rewrite (@handle_step st ev Hev).
      cbn [length Decompress.iterations]. fold (steps rest).
      unfold Interactive.do_iteration.
      pose proof (viewer_iterate cfg (Interactive.image st) pairs
                    (uninit (Interactive.count st))) as Eit.
      destruct (Interactive.iterate cfg (Interactive.image st) pairs
                  (uninit (Interactive.count st))) as [image0|err0];
        rewrite <- Eit; [|reflexivity].
      cbn [bind]. rename image0 into image1.
      set (st1 := Interactive.mk_viewer _ _ _ _ _ _).
      specialize (IH st1). cbn [Interactive.count Interactive.image st1] in IH.
      destruct (Decompress.iterations cfg (steps rest)
                  (S (Interactive.count st)) image1 pairs uninit)
        as [img|err]; [|exact IH].
      destruct IH as (st' & Hrun & Himg & Hcount & Hsync).
      exists st'. split; [exact Hrun|]. split; [exact Himg|].
      split; [lia|]. intros _. apply Hsync. split; reflexivity.
    + destruct (@handle_other st ev Hev) as (st2 & Hh & Hc & Hi & Ht & Hs).
      rewrite Hh. cbn [bind]. fold (steps rest).
      specialize (IH st2). rewrite Hc, Hi in IH.
      destruct (Decompress.iterations cfg (steps rest) (Interactive.count st)
                  (Interactive.image st) pairs uninit)
        as [img|err]; [|exact IH].
      destruct IH as (st' & Hrun & Himg & Hcount & Hsync).
      exists st'. split; [exact Hrun|]. split; [exact Himg|].
      split; [exact Hcount|]. intros [H1 H2]. apply Hsync.
      split; congruence.
Qed.

Lemma run_app (e1 e2 : list Interactive.event) :
  forall st : Interactive.viewer,
    run st (e1 ++ e2) = (st' <- run st e1 ;; run st' e2).
Proof.
  induction e1 as [|ev rest IH]; intros st; [reflexivity|].
  cbn [app Interactive.run].
  destruct (handle st ev) as [st1|err]; [|reflexivity].
  cbn [bind]. apply IH.
Qed.

End ViewerRun.

(** X12: the viewer steps the batch decoder.  After any sequence of clicks
    and key presses, [n] of which are clicks or space keys, the viewer
    holds the estimate the batch decoder reaches after [n] iterations from
    the same seed, its counter and title are [n] and the plot shows that
    estimate clipped; the other keys change neither.  If one of those [n]
    iterations raises, so does the corresponding callback. *)
Theorem viewer_steps_decoder (cfg : Config) (pairs : list entry)
    (uninit : nat -> nat -> nat -> Q) (seed : ndarray)
    (events : list Interactive.event) :
  let n := steps events in
  let final := Interactive.run cfg pairs uninit (Interactive.start seed) events in
  (forall img,
     Decompress.iterations cfg n 0 seed pairs uninit = Returned img ->
     exists st,
       final = Returned st /\
       Interactive.image st = img /\
       Interactive.count st = n /\
       Interactive.title st = n /\
       Interactive.shown st = Interactive.clipped img) /\
  (forall err,
     Decompress.iterations cfg n 0 seed pairs uninit = Raised err ->
     final = Raised err).
Proof.
  intros n final. subst n final.
  pose proof (run_iterations cfg pairs uninit events (Interactive.start seed))
    as H.
  cbn [Interactive.count Interactive.image Interactive.start] in H.
  split.
  - intros img Himg. rewrite Himg in H.
    destruct H as (st & Hrun & Hi & Hc & Hsync).
    destruct (Hsync (conj eq_refl eq_refl)) as [Ht Hs].
    exists st. split; [exact Hrun|]. split; [exact Hi|].
    split; [exact Hc|]. split; [rewrite Ht; exact Hc|].
    rewrite Hs, Hi. reflexivity.
  - intros err Herr. rewrite Herr in H. exact H.
Qed.

(** X13: pressing [s] after exactly [ITERATIONS] steps writes the raster
    that the batch decoder writes for the same codebook and seed, whatever
    other keys were pressed in between. *)
Theorem viewer_save_is_decoder_output (cfg : Config) (pairs : list entry)
    (uninit : nat -> nat -> nat -> Q) (seed : ndarray)
    (events : list Interactive.event) (out : Decompress.raster) :
  steps events = ITERATIONS cfg ->
  Decompress.main cfg pairs seed uninit = Returned out ->
  exists st,
    Interactive.run cfg pairs uninit (Interactive.start seed)
      (events ++ [Interactive.KeyPress (Some "s"%string)]) = Returned st /\
    Interactive.saved st = Some out /\
    Interactive.count st = ITERATIONS cfg.
Proof.
  intros Hn Hmain. unfold Decompress.main in Hmain.
  pose proof (run_iterations cfg pairs uninit events (Interactive.start seed))
    as H.
  cbn [Interactive.count Interactive.image Interactive.start] in H.
  rewrite Hn in H.
  destruct (Decompress.iterations cfg (ITERATIONS cfg) 0 seed pairs uninit)
    as [img|err]; [|discriminate].
  cbn [bind] in Hmain. injection Hmain as <-.
  destruct H as (st1 & Hrun & Hi & Hc & _).
  rewrite run_app, Hrun.
  cbn [bind Interactive.run Interactive.handle Interactive.on_key].
  change (String.eqb "s" " ") with false.
  change (String.eqb "s" "s") with true.
  cbn [bind]. eexists. split; [reflexivity|].
  cbn [Interactive.saved Interactive.count]. rewrite Hi.
  split; [reflexivity|lia].
Qed.

Lemma viewer_steps_decoder_witness :
  let events := [Interactive.Clicked;
                 Interactive.KeyPress (Some "x"%string);
                 Interactive.KeyPress (Some " "%string);
                 Interactive.KeyPress None] in
  let uninit := fun _ _ _ : nat => 0%Q in
  exists img st,
    Decompress.iterations config8 (steps events) 0 bright_corner
                          bright_corner_book uninit = Returned img /\
    Interactive.run config8 bright_corner_book uninit
                    (Interactive.start bright_corner) events = Returned st /\
    Interactive.count st = 2.
Proof.
  intros events uninit.
  destruct (iterations_short config8_ok (proj2 bright_corner_book_ok)
              uninit (steps events) (Nat.le_refl _) 0 bright_corner_square)
    as (img & Hrun & _).
  destruct (proj1 (@viewer_steps_decoder config8 bright_corner_book uninit
                     bright_corner events) img Hrun)
    as (st & Hfinal & _ & Hc & _).
  exists img, st. split; [exact Hrun|]. split; [exact Hfinal|exact Hc].
Defined.

Lemma viewer_save_is_decoder_output_witness :
  let events := repeat Interactive.Clicked 8 in
  let uninit := fun _ _ _ : nat => 0%Q in
  steps events = ITERATIONS config8 /\
  exists out st,
    Decompress.main config8 bright_corner_book bright_corner uninit
    = Returned out /\
    Interactive.run config8 bright_corner_book uninit
      (Interactive.start bright_corner)
      (events ++ [Interactive.KeyPress (Some "s"%string)]) = Returned st /\
    Interactive.saved st = Some out.
Proof.
  intros events uninit.
  assert (Hn : steps events = ITERATIONS config8) by reflexivity.
  split; [exact Hn|].
  destruct (main_short config8_ok (proj2 bright_corner_book_ok)
              uninit bright_corner_square (Nat.le_refl _)
              ltac:(simpl; lia))
    as (out & Hmain & _).
  destruct (@viewer_save_is_decoder_output config8 bright_corner_book uninit
              bright_corner events out Hn Hmain)
    as (st & Hrun & Hsaved & _).
  exists out, st. split; [exact Hmain|]. split; [exact Hrun|exact Hsaved].
Defined.

(** ** Decoding an exactly encoded image *)

Section FixedPoint.
Variable cfg : Config.
Hypothesis Hcfg : config_ok cfg.
Variable pairs : list entry.
Hypothesis Hbook : codebook_ok cfg pairs.
Variable s : Q.
Hypothesis Hs : contrast_bounded s pairs.
Variable X : ndarray.
Hypothesis HX : square (IMAGE_SIZE cfg) X.
Hypothesis Hfix :
  forall u, exists X',
    Decompress.iterate cfg X pairs u = Returned X' /\
    forall i j, i < IMAGE_SIZE cfg -> j < IMAGE_SIZE cfg ->
      (cell X' i j == cell X i j)%Q.

Lemma iterations_to_fixed (count : nat) :
  forall (k : nat) (delta : Q) (A : ndarray) (uA : nat -> nat -> nat -> Q),
    close delta (IMAGE_SIZE cfg) A X ->
    exists A',
      Decompress.iterations cfg count k A pairs uA = Returned A' /\
      close (qpow s count * delta) (IMAGE_SIZE cfg) A' X.
Proof.
  induction count as [|c IH]; intros k delta A uA HAB.
  - exists A. split; [reflexivity|].
    destruct HAB as (HA & _ & H).
    split; [exact HA|]. split; [exact HX|].
    intros i j Hi Hj. simpl. rewrite Qmult_1_l. apply H; assumption.
  - destruct (iterate_close Hcfg Hbook Hs (uA k) (uA k) HAB)
      as (A1 & X1 & HrA & HrX & H1).
    destruct (Hfix (uA k)) as (X' & HrX' & Hcells).
    rewrite HrX in HrX'. injection HrX' as <-.
    assert (H1' : close (s * delta) (IMAGE_SIZE cfg) A1 X).
    { destruct H1 as (Ha & _ & Hc).
      split; [exact Ha|]. split; [exact HX|].
      intros i j Hi Hj. rewrite <- (Hcells i j Hi Hj).
      apply Hc; assumption. }
    destruct (IH (S k) _ A1 uA H1') as (A' & HA' & H').
    exists A'. split; [simpl; rewrite HrA; exact HA'|].
    destruct H' as (HsA & HsB & H).
    split; [exact HsA|]. split; [exact HsB|].
    intros i j Hi Hj.
    assert (E : (qpow s (S c) * delta == qpow s c * (s * delta))%Q)
      by (simpl; ring).
    rewrite E. apply H; assumption.
Qed.

End FixedPoint.

(** X14: round trip of an exactly encoded image.  When the encoder records
    error 0 for every range block of [image] and every contrast it emits
    is at most [s] in absolute value, decoding its codebook from a seed
    that differs from [image] by at most [delta] per pixel returns, after
    [count] iterations, an estimate that differs from [image] by at most
    [s^count * delta] per pixel. *)
Theorem exact_codebook_round_trip (cfg : Config) (image seed : ndarray)
    (uninit : nat -> nat -> nat -> Q) (s delta : Q) (count : nat) :
  let N := IMAGE_SIZE cfg in
  let R := Decompress.range_blocks_per_side cfg *
           Decompress.range_blocks_per_side cfg in
  let pairs := Compress.main cfg image in
  config_ok cfg -> square N image ->
  (forall k, k < R -> (selected_error cfg image k == 0)%Q) ->
  contrast_bounded s pairs ->
  close delta N seed image ->
  exists out,
    Decompress.iterations cfg count 0 seed pairs uninit = Returned out /\
    close (qpow s count * delta) N out image.
Proof.
  intros N R pairs Hcfg Himage Hzero Hs Hseed. subst N R pairs.
  apply (iterations_to_fixed Hcfg (main_codebook_ok Hcfg Himage) Hs Himage);
    [|exact Hseed].
  intros u.
  destruct (zero_error_cells u Hcfg Himage Hzero) as (X' & Hrun & _ & Hcells).
  exists X'. split; [exact Hrun | exact Hcells].
Qed.

Lemma ramp8_square : square 8 (ramp 8).
Proof. split; reflexivity. Qed.

Lemma ramp8_exact :
  forall k,
    k < Decompress.range_blocks_per_side config8 *
        Decompress.range_blocks_per_side config8 ->
    (selected_error config8 (ramp 8) k == 0)%Q.
Proof.
  intros k Hk.
  do 4 (destruct k as [|k]; [vm_compute; reflexivity|]).
  exfalso. revert Hk. vm_compute. lia.
Defined.

Lemma ramp8_contrasts :
  contrast_bounded (1 # 2) (Compress.main config8 (ramp 8)).
Proof.
  unfold contrast_bounded.
  apply Forall_forall. intros e He.
  apply (In_nth _ _ no_entry) in He. destruct He as (k & Hk & <-).
  change (length (Compress.main config8 (ramp 8))) with 4 in Hk.
  do 4 (destruct k as [|k]; [vm_compute; discriminate|]).
  lia.
Defined.

Lemma zero_seed_close_ramp8 : close 63 8 (const_tile 8 0) (ramp 8).
Proof.
  split; [split; reflexivity|]. split; [exact ramp8_square|].
  intros i j Hi Hj. apply Qabs_Qle_condition.
  cbn [cell const_tile ramp].
  unfold Qle, Qminus, Qplus, Qopp, inject_Z. cbn [Qnum Qden]. lia.
Defined.

Lemma exact_codebook_round_trip_witness :
  config_ok config8 /\ square 8 (ramp 8) /\
  contrast_bounded (1 # 2) (Compress.main config8 (ramp 8)) /\
  close 63 8 (const_tile 8 0) (ramp 8) /\
  exists out,
    Decompress.iterations config8 8 0 (const_tile 8 0)
      (Compress.main config8 (ramp 8)) (fun _ _ _ => 0%Q) = Returned out /\
    close (qpow (1 # 2) 8 * 63) 8 out (ramp 8).
Proof.
  split; [exact config8_ok|]. split; [exact ramp8_square|].
  split; [exact ramp8_contrasts|]. split; [exact zero_seed_close_ramp8|].
  exact (@exact_codebook_round_trip config8 (ramp 8) (const_tile 8 0)
           (fun _ _ _ => 0%Q) (1 # 2) 63 8 config8_ok ramp8_square
           ramp8_exact ramp8_contrasts zero_seed_close_ramp8).
Defined.

(** ** Isometries and downsampling *)

(** X15: on a tile of even side the isometry and the downsampling commute:
    downsampling the transformed tile gives, pixel for pixel, the
    transformed downsampled tile, for every symmetry id. *)
Theorem downscale_commutes_with_transform (A : ndarray) (m : nat) (s : Z) :
  square (2 * m) A ->
  square m (Compress.downscale (Compress.transform A s)) /\
  square m (Compress.transform (Compress.downscale A) s) /\
  forall i j, i < m -> j < m ->
    (cell (Compress.downscale (Compress.transform A s)) i j ==
     cell (Compress.transform (Compress.downscale A) s) i j)%Q.
Proof.
  intros HA.
  split; [apply downscale_square, transform_square; exact HA|].
  split; [apply transform_square, downscale_square; exact HA|].
  apply downscale_transform_commute; exact HA.
Qed.

Lemma downscale_commutes_with_transform_witness :
  square (2 * 4) (ramp 8) /\
  (cell (Compress.downscale (Compress.transform (ramp 8) 5)) 1 2 ==
   cell (Compress.transform (Compress.downscale (ramp 8)) 5) 1 2)%Q.
Proof.
  split; [exact ramp8_square|].
  apply (proj2 (proj2 (@downscale_commutes_with_transform (ramp 8) 4 5
                         ramp8_square))); lia.
Defined.

Lemma within_flip0 (lo hi : Q) (n : nat) (A : ndarray) :
  within lo hi n A -> within lo hi n (flip0 A).
Proof.
  intros [[H0 H1] H]. split; [split; assumption|].
  intros i j Hi Hj. cbn [cell flip0]. apply H; lia.
Qed.

Lemma within_flip1 (lo hi : Q) (n : nat) (A : ndarray) :
  within lo hi n A -> within lo hi n (flip1 A).
Proof.
  intros [[H0 H1] H]. split; [split; assumption|].
  intros i j Hi Hj. cbn [cell flip1]. apply H; lia.
Qed.

Lemma within_transpose (lo hi : Q) (n : nat) (A : ndarray) :
  within lo hi n A -> within lo hi n (transpose A).
Proof.
  intros [[H0 H1] H]. split; [split; assumption|].
  intros i j Hi Hj. cbn [cell transpose]. apply H; lia.
Qed.

(** X16: a variant never leaves the pixel range of its tile: when every
    pixel of a tile of even side lies in [[lo, hi]], so does every pixel of
    the downsampled transformed tile, for every symmetry id. *)
Theorem variant_within_range (A : ndarray) (m : nat) (s : Z) (lo hi : Q) :
  within lo hi (2 * m) A ->
  within lo hi m (Compress.downscale (Compress.transform A s)).
Proof.
  intros HA.
  assert (HT : within lo hi (2 * m) (Compress.transform A s)).
  { revert HA. apply transform_preserves;
      auto using within_flip0, within_flip1, within_transpose. }
  destruct HT as [Hsq H].
  split; [apply downscale_square; exact Hsq|].
  intros i j Hi Hj. rewrite downscale_cell.
  pose proof (H (2 * i) (2 * j) ltac:(lia) ltac:(lia)) as H1.
  pose proof (H (2 * i) (1 + 2 * j) ltac:(lia) ltac:(lia)) as H2.
  pose proof (H (1 + 2 * i) (2 * j) ltac:(lia) ltac:(lia)) as H3.
  pose proof (H (1 + 2 * i) (1 + 2 * j) ltac:(lia) ltac:(lia)) as H4.
  lra.
Qed.

Lemma ramp8_within : within 0 63 (2 * 4) (ramp 8).
Proof.
  split; [exact ramp8_square|].
  intros i j Hi Hj. cbn [cell ramp].
  unfold Qle, inject_Z. cbn [Qnum Qden]. lia.
Defined.

Lemma variant_within_range_witness :
  within 0 63 (2 * 4) (ramp 8) /\
  within 0 63 4 (Compress.downscale (Compress.transform (ramp 8) 3)).
Proof.
  split; [exact ramp8_within|].
  exact (@variant_within_range (ramp 8) 4 3 0 63 ramp8_within).
Defined.
